(** * puresnmp.api.raw: the SNMP operation engine and the multi-OID walk

    A shallow embedding of [puresnmp/api/raw.py].  The operations of the
    module ([get], [multiget], [getnext], [multigetnext], [set], [multiset],
    [bulkget]) are computations in a small state-and-exception monad over a
    [World] (the remote agent, the request-id source and the record of the
    datagrams handed to the transport).  The generators ([walk], [multiwalk],
    [bulkwalk]) are modelled by the run that a consumer draining them
    observes: the chronicle of their fetches, log records and yields, in the
    order in which they happen, and the way the run ends.

    The module imports its collaborators from [puresnmp.x690], [puresnmp.pdu],
    [puresnmp.transport] and [puresnmp.util]; what it uses of them (the
    order and the containment of OIDs, the transport, the request-id source,
    [group_varbinds], [get_unfinished_walk_oids]) is modelled from the
    specification, each definition saying so. *)

From Stdlib Require Import String DecimalString.
From Stdlib Require Import List ZArith NArith Bool Lia PeanoNat Permutation.
From Stdlib Require Import Sorted.
Import ListNotations.

Set Implicit Arguments.

(** ** Object identifiers *)

(** [ObjectIdentifier.identifiers]: the tuple of sub-identifiers. *)
Definition ObjectIdentifier : Type := list N.

(** Modelled from the spec: the strings that stand for OIDs
    ([ObjectIdentifier.from_string] and [unicode(oid)], both in
    [puresnmp/x690/types.py]).  "Parsed from a dotted-decimal string", and
    "for every OID string [s] in canonical form: [format(parse(s)) == s]".
    A string that [OID] accepts is kept as its text together with the OID
    that [OID] makes of it; the parser itself is not modelled.  Strings
    that [OID] does not accept are not in the model: the operations are
    described for arguments that parse. *)
Record OidStr : Type := mkStr { text : string; OID : ObjectIdentifier }.

(** [str(n)] of a sub-identifier. *)
Definition decimal (n : N) : string := NilEmpty.string_of_uint (N.to_uint n).

(** Modelled from the spec: the dotted-decimal text of an OID, its
    sub-identifiers in decimal, joined by dots. *)
Definition format (o : ObjectIdentifier) : string :=
  String.concat "." (map decimal o).

(** The canonical string of an OID, [Dotted o], is the one with the text
    that formatting gives; [Spelled text o] is a string with the given
    text that [OID] reads as [o], canonical or not (some other spelling of
    it, say with a leading zero in a sub-identifier). *)
Definition Dotted (o : ObjectIdentifier) : OidStr := mkStr (format o) o.

Definition Spelled (text : string) (o : ObjectIdentifier) : OidStr :=
  mkStr text o.

Definition unicode (o : ObjectIdentifier) : OidStr := Dotted o.

(** Modelled from the spec: [ObjectIdentifier.__eq__], equality of the
    sub-identifier sequences. *)
Fixpoint oid_eqb (a b : ObjectIdentifier) : bool :=
  match a, b with
  | [], [] => true
  | x :: a', y :: b' => N.eqb x y && oid_eqb a' b'
  | _, _ => false
  end.

Definition oid_eq_dec (a b : ObjectIdentifier) : {a = b} + {a <> b} :=
  list_eq_dec N.eq_dec a b.

(** The number of distinct OIDs in a list. *)
Definition distinct (l : list ObjectIdentifier) : nat :=
  length (nodup oid_eq_dec l).

(** Modelled from the spec: [ObjectIdentifier.__lt__], "ordering is
    lexicographic". *)
Fixpoint oid_ltb (a b : ObjectIdentifier) : bool :=
  match a, b with
  | _, [] => false
  | [], _ :: _ => true
  | x :: a', y :: b' => if N.eqb x y then oid_ltb a' b' else N.ltb x y
  end.

(** Modelled from the spec: [ObjectIdentifier.__contains__], "containment
    holds iff [a] is a strict prefix of [b]".  [strict_prefix base x] is the
    Python expression [x in base]. *)
Fixpoint strict_prefix (base x : ObjectIdentifier) : bool :=
  match base, x with
  | [], [] => false
  | [], _ :: _ => true
  | _ :: _, [] => false
  | p :: base', q :: x' => N.eqb p q && strict_prefix base' x'
  end.

Definition oid_in (x base : ObjectIdentifier) : bool := strict_prefix base x.

(** Equality of strings: two strings are equal when they have the same
    text (and with it the same parse). *)
Definition str_eqb (a b : OidStr) : bool :=
  String.eqb (text a) (text b) && oid_eqb (OID a) (OID b).

(** ** Python containers *)

(** What a [dict] asks of its keys: [__eq__] (hashing is not modelled).  The
    module keys its dicts by OIDs and by strings. *)
Class PyKey (K : Type) : Type := { key_eqb : K -> K -> bool }.

#[export] Instance ObjectIdentifier_key : PyKey ObjectIdentifier :=
  {| key_eqb := oid_eqb |}.

#[export] Instance OidStr_key : PyKey OidStr := {| key_eqb := str_eqb |}.

(** A [dict] (and an [OrderedDict]), kept in insertion order: assigning to
    a key that is present replaces the value in place, assigning to a new
    key appends. *)
Definition dict (K V : Type) : Type := list (K * V).

Section Dict.
Context {K : Type} {key : PyKey K} {V : Type}.

Fixpoint dict_set (d : dict K V) (k : K) (v : V) : dict K V :=
  match d with
  | [] => [(k, v)]
  | (k', v') :: d' =>
      if key_eqb k' k then (k', v) :: d' else (k', v') :: dict_set d' k v
  end.

(** [d[k]], [None] standing for [KeyError]. *)
Fixpoint dict_get (d : dict K V) (k : K) : option V :=
  match d with
  | [] => None
  | (k', v') :: d' => if key_eqb k' k then Some v' else dict_get d' k
  end.

Definition dict_items (d : dict K V) : list (K * V) := d.

Definition dict_values (d : dict K V) : list V := map snd d.

Definition dict_len (d : dict K V) : nat := length d.

(** [{k: v for k, v in pairs}], also the loop [for k, v in pairs: d[k] = v]. *)
Definition dict_of_pairs (pairs : list (K * V)) : dict K V :=
  fold_left (fun d kv => dict_set d (fst kv) (snd kv)) pairs [].

End Dict.

(** A Python [set] of OIDs; only membership is ever observed. *)
Definition oid_set : Type := list ObjectIdentifier.

Definition set_mem (x : ObjectIdentifier) (s : oid_set) : bool :=
  existsb (oid_eqb x) s.

Definition set_add (x : ObjectIdentifier) (s : oid_set) : oid_set := x :: s.

(** The builtin [any]. *)
Definition any (l : list bool) : bool := existsb (fun b => b) l.

(** The slice [l[i::n]] for a positive step [n]: [skip] elements are passed
    over before the next one is taken. *)
Fixpoint slice_step {A : Type} (skip n : nat) (l : list A) : list A :=
  match l with
  | [] => []
  | x :: l' =>
      match skip with
      | O => x :: slice_step (n - 1) n l'
      | S skip' => slice_step skip' n l'
      end
  end.

(** Items put in ascending order of a key that is a total order: a stable
    sort by insertion. *)
Section Ascending.
Variable A : Type.
Variable ltb : A -> A -> bool.

Fixpoint insert_ascending (x : A) (l : list A) : list A :=
  match l with
  | [] => [x]
  | y :: l' => if ltb y x then y :: insert_ascending x l' else x :: y :: l'
  end.

Definition ascending (l : list A) : list A :=
  fold_right insert_ascending [] l.
End Ascending.

(** ** Exceptions *)

(** The exception classes that cross the API.  [NoSuchOID] and
    [FaultySNMPImplementation] derive from [SnmpError]; an [except] clause
    naming one of the two does not catch a plain [SnmpError].  The message
    texts are not modelled. *)
Inductive Exception : Type :=
| SnmpError
| NoSuchOID
| FaultySNMPImplementation
| TypeError
| Timeout
| IndexError
| KeyError.

Inductive Result (A : Type) : Type :=
| Return (a : A)
| Raise (e : Exception).

Arguments Return {A} a.
Arguments Raise {A} e.

(** The builtin [sorted] on items whose [<] may raise.  The sort is stable,
    compares with [<] only, and fails with the exception that a comparison
    raises.  Each item is inserted among the items that follow it in the
    list: it passes the items that are smaller and stops at the first that
    is not, so that it is compared with the two items it comes to stand
    between.  For the groups of a round the outcome does not depend on
    which pairs are compared: the sort raises exactly when two groups
    cannot be compared, as is shown with the facts on the walks. *)
Section Sorted.
Variable A : Type.
Variable lt : A -> A -> Result bool.

Fixpoint insert_sorted (x : A) (l : list A) : Result (list A) :=
  match l with
  | [] => Return [x]
  | y :: l' =>
      match lt y x with
      | Raise e => Raise e
      | Return false => Return (x :: y :: l')
      | Return true =>
          match insert_sorted x l' with
          | Raise e => Raise e
          | Return l'' => Return (y :: l'')
          end
      end
  end.

Fixpoint sorted (l : list A) : Result (list A) :=
  match l with
  | [] => Return []
  | x :: l' =>
      match sorted l' with
      | Raise e => Raise e
      | Return tail => insert_sorted x tail
      end
  end.
End Sorted.

(** ** Configuration constants *)

Definition ERRORS_STRICT : string := "strict".
Definition ERRORS_WARN : string := "warn".

(** Modelled from the spec: [Version.V2C] of [puresnmp/const.py]; "version
    is fixed at 1 (the wire encoding of V2C)". *)
Definition V2C : Z := 1%Z.

(** The default values of the keyword arguments. *)
Definition default_port : Z := 161%Z.
Definition default_timeout : Z := 2%Z.
Definition default_max_list_size : Z := 1%Z.
Definition default_bulk_size : Z := 10%Z.

(** Invariant I6 of the spec: the most varbinds that a GETBULK response may
    carry, [n + m * max(0, k - n)] for [n] non-repeaters, [m] repetitions and
    [k] requested OIDs. *)
Definition bulk_bound (non_repeaters : nat) (max_list_size : Z)
           (requested : nat) : Z :=
  (Z.of_nat non_repeaters
   + max_list_size
     * Z.max 0 (Z.of_nat requested - Z.of_nat non_repeaters))%Z.

(** The interface of [puresnmp.x690.types.Type] that the module relies on:
    tagged values have [__eq__] and no order, so that [<] between two of
    them raises TypeError. *)
Class TypeOps (Value : Type) : Type := {
  value_eqb : Value -> Value -> bool
}.

Section Engine.
Context {Value : Type}.

(** ** Varbinds, PDUs, messages *)

Record VarBind : Type := mkVarBind { oid : ObjectIdentifier; value : Value }.

(** What a caller may pass where a tagged value is expected. *)
Inductive PyObject : Type :=
| Typed (v : Value)
| Untyped.

Definition isinstance_Type (o : PyObject) : bool :=
  match o with Typed _ => true | Untyped => false end.

Inductive Request : Type :=
| GetRequest (request_id : Z) (oids : list ObjectIdentifier)
| GetNextRequest (request_id : Z) (oids : list OidStr)
| SetRequest (request_id : Z) (binds : list VarBind)
| BulkGetRequest (request_id : Z) (non_repeaters : nat)
                 (max_repetitions : Z) (oids : list ObjectIdentifier).

(** The response PDU as the engine reads it.  A response with a non-zero
    [error_status] never reaches the engine: decoding it raises. *)
Record GetResponse : Type := mkGetResponse {
  request_id : Z;
  varbinds : list VarBind
}.

(** [Sequence(Integer(version), OctetString(community), pdu)]. *)
Record Packet : Type := Sequence {
  version : Z;
  community_of : string;
  pdu : Request
}.

Record Message : Type := mkMessage {
  msg_version : Z;
  msg_community : string;
  msg_pdu : GetResponse
}.

(** The BER codec is out of scope: a request datagram is represented by the
    packet it encodes, a reply datagram by what decoding it gives (the
    message, or the exception that [Sequence.from_bytes] raises on it). *)
Definition to_bytes (p : Packet) : Packet := p.

Definition Datagram : Type := (Exception + Message)%type.

(** ** The world outside the module *)

Record SendCall : Type := mkSendCall {
  sc_ip : string;
  sc_port : Z;
  sc_packet : Packet;
  sc_timeout : Z
}.

Inductive Reply : Type :=
| NoReply
| Answer (d : Datagram).

(** The agent answers a datagram knowing every datagram sent so far, the
    current one last. *)
Record World : Type := mkWorld {
  agent : list SendCall -> Reply;
  request_id_counter : Z;
  sent : list SendCall
}.

Definition M (A : Type) : Type := World -> Result A * World.

Definition ret {A : Type} (a : A) : M A := fun w => (Return a, w).

Definition raise {A : Type} (e : Exception) : M A := fun w => (Raise e, w).

Definition bind {A B : Type} (m : M A) (k : A -> M B) : M B :=
  fun w =>
    match m w with
    | (Return a, w') => k a w'
    | (Raise e, w') => (Raise e, w')
    end.

Notation "x <- m ;; k" := (bind m (fun x => k))
  (at level 61, m at next level, right associativity).

(** Modelled from the spec: [get_request_id] of [puresnmp/transport.py], "a
    fresh 32-bit non-zero identifier per request (monotonic counter with
    wrap-skipping zero)". *)
Definition next_request_id (counter : Z) : Z :=
  (counter mod 4294967295 + 1)%Z.

Definition get_request_id : M Z :=
  fun w =>
    let fresh := next_request_id (request_id_counter w) in
    (Return fresh,
     {| agent := agent w; request_id_counter := fresh; sent := sent w |}).

(** Modelled from the spec: [send] of [puresnmp/transport.py], "send a
    request datagram, return a reply datagram or fail with timeout". *)
Definition send (ip : string) (port : Z) (packet : Packet) (timeout : Z)
  : M Datagram :=
  fun w =>
    let calls := sent w ++ [mkSendCall ip port packet timeout] in
    let w' := {| agent := agent w;
                 request_id_counter := request_id_counter w;
                 sent := calls |} in
    match agent w calls with
    | NoReply => (Raise Timeout, w')
    | Answer d => (Return d, w')
    end.

(** Modelled from the spec: [Sequence.from_bytes] of
    [puresnmp/x690/types.py] on a reply datagram.  Decoding gives the
    message or raises: NoSuchOID and SnmpError for a response that carries
    an error status, other exceptions for a malformed datagram. *)
Definition Sequence_from_bytes (response : Datagram) : M Message :=
  match response with
  | inl e => raise e
  | inr m => ret m
  end.

(** [raw_response[2]]. *)
Definition item2 (raw_response : Message) : GetResponse :=
  msg_pdu raw_response.

(** ** The operations *)

Definition multiget (ip community : string) (oids : list OidStr)
           (port timeout : Z) : M (list Value) :=
  let parsed_oids := map OID oids in
  rid <- get_request_id ;;
  let packet := Sequence V2C community (GetRequest rid parsed_oids) in
  response <- send ip port (to_bytes packet) timeout ;;
  raw_response <- Sequence_from_bytes response ;;
  let output := map value (varbinds (item2 raw_response)) in
  if negb (length output =? length oids)
  then raise SnmpError
  else ret output.

Definition get (ip community : string) (oid : OidStr) (port timeout : Z)
  : M Value :=
  output <- multiget ip community [oid] port timeout ;;
  match output with
  | v :: _ => ret v
  | [] => raise IndexError
  end.

(** The loop that verifies that the retrieved OIDs are successors of the
    requested ones. *)
Fixpoint verify_successors (pairs : list (OidStr * VarBind)) : M unit :=
  match pairs with
  | [] => ret tt
  | (requested, retrieved) :: rest =>
      if negb (oid_ltb (OID requested) (oid retrieved))
      then raise FaultySNMPImplementation
      else verify_successors rest
  end.

Definition multigetnext (ip community : string) (oids : list OidStr)
           (port timeout : Z) : M (list VarBind) :=
  rid <- get_request_id ;;
  let request := GetNextRequest rid oids in
  let packet := Sequence V2C community request in
  response <- send ip port (to_bytes packet) timeout ;;
  raw_response <- Sequence_from_bytes response ;;
  let response_object := item2 raw_response in
  if negb (length (varbinds response_object) =? length oids)
  then raise SnmpError
  else
    let output :=
      map (fun vb => mkVarBind (oid vb) (value vb))
          (varbinds response_object) in
    _ <- verify_successors (combine oids output) ;;
    ret output.

Definition getnext (ip community : string) (oid : OidStr) (port timeout : Z)
  : M VarBind :=
  output <- multigetnext ip community [oid] port timeout ;;
  match output with
  | vb :: _ => ret vb
  | [] => raise IndexError
  end.

(** [[VarBind(OID(k), v) for k, v in mappings]], defined when every value
    is an instance of [Type]. *)
Fixpoint binds_of (mappings : list (OidStr * PyObject))
  : option (list VarBind) :=
  match mappings with
  | [] => Some []
  | (k, Typed v) :: rest =>
      option_map (cons (mkVarBind (OID k) v)) (binds_of rest)
  | (_, Untyped) :: _ => None
  end.

Definition multiset (ip community : string)
           (mappings : list (OidStr * PyObject)) (port timeout : Z)
  : M (dict OidStr Value) :=
  if any (map (fun kv => negb (isinstance_Type (snd kv))) mappings)
  then raise TypeError
  else
    match binds_of mappings with
    | None => raise TypeError
    | Some binds =>
        rid <- get_request_id ;;
        let request := SetRequest rid binds in
        let packet := Sequence V2C community request in
        response <- send ip port (to_bytes packet) timeout ;;
        raw_response <- Sequence_from_bytes response ;;
        let output :=
          dict_of_pairs
            (map (fun vb => (unicode (oid vb), value vb))
                 (varbinds (item2 raw_response))) in
        if negb (dict_len output =? length mappings)
        then raise SnmpError
        else ret output
    end.

Definition set (ip community : string) (oid : OidStr) (value : PyObject)
           (port timeout : Z) : M Value :=
  result <- multiset ip community [(oid, value)] port timeout ;;
  match dict_get result oid with
  | Some v => ret v
  | None => raise KeyError
  end.

Record BulkResult : Type := mkBulkResult {
  scalars : dict OidStr Value;
  listing : dict OidStr Value
}.

(** [scalar_oids or []] and [repeating_oids or []]: an absent list is the
    empty list. *)
Definition bulkget (ip community : string)
           (scalar_oids repeating_oids : list OidStr) (max_list_size : Z)
           (port timeout : Z) : M BulkResult :=
  let oids := map OID scalar_oids ++ map OID repeating_oids in
  let non_repeaters := length scalar_oids in
  rid <- get_request_id ;;
  let packet :=
    Sequence V2C community
             (BulkGetRequest rid non_repeaters max_list_size oids) in
  response <- send ip port (to_bytes packet) timeout ;;
  raw_response <- Sequence_from_bytes response ;;
  let n := Nat.min non_repeaters (length oids) in
  let m := max_list_size in
  let r := Z.max (Z.of_nat (length oids) - Z.of_nat n) 0 in
  let expected_max_varbinds := (Z.of_nat n + m * r)%Z in
  if (Z.of_nat (length (varbinds (item2 raw_response)))
      >? expected_max_varbinds)%Z
  then raise SnmpError
  else
    let scalar_tmp :=
      firstn (length scalar_oids) (varbinds (item2 raw_response)) in
    let repeating_tmp :=
      skipn (length scalar_oids) (varbinds (item2 raw_response)) in
    let scalar_out :=
      dict_of_pairs
        (map (fun vb => (unicode (oid vb), value vb)) scalar_tmp) in
    let repeating_out :=
      dict_of_pairs
        (map (fun vb => (unicode (oid vb), value vb)) repeating_tmp) in
    ret (mkBulkResult scalar_out repeating_out).

(** ** One exchange, seen from outside

    Every operation makes one exchange with the agent: it draws a request
    id, sends one packet and decodes one reply.  The following definitions
    name the datagram of that exchange, the agent's reply to it and the
    world it leaves behind; they are used to state what an operation does
    with a given reply. *)

Definition exchange_call (w : World) (ip : string) (port : Z)
           (community : string) (request : Z -> Request) (timeout : Z)
  : SendCall :=
  mkSendCall ip port
    (Sequence V2C community
              (request (next_request_id (request_id_counter w))))
    timeout.

Definition answer_to (w : World) (ip : string) (port : Z)
           (community : string) (request : Z -> Request) (timeout : Z)
  : Reply :=
  agent w (sent w ++ [exchange_call w ip port community request timeout]).

Definition after_exchange (w : World) (call : SendCall) : World :=
  {| agent := agent w;
     request_id_counter := next_request_id (request_id_counter w);
     sent := sent w ++ [call] |}.

(** The successor test of [multigetnext] on all pairs at once. *)
Definition successors_ok (oids : list OidStr) (output : list VarBind)
  : bool :=
  forallb (fun p => oid_ltb (OID (fst p)) (oid (snd p)))
          (combine oids output).

(** The agent [a] with the [request_id] of every response rewritten by
    [f]: the same varbinds, the same errors, another pairing. *)
Definition retag (f : Z -> Z) (a : list SendCall -> Reply)
  : list SendCall -> Reply :=
  fun calls =>
    match a calls with
    | Answer (inr m) =>
        Answer (inr (mkMessage (msg_version m) (msg_community m)
                       (mkGetResponse (f (request_id (msg_pdu m)))
                                      (varbinds (msg_pdu m)))))
    | r => r
    end.

Definition retagged (f : Z -> Z) (w : World) : World :=
  {| agent := retag f (agent w);
     request_id_counter := request_id_counter w;
     sent := sent w |}.

(** An operation is blind to the pairing of responses when rewriting the
    [request_id] of the agent's responses changes neither its result nor
    what it leaves behind. *)
Definition blind_to_request_id {A : Type} (op : M A) : Prop :=
  forall (f : Z -> Z) (w : World),
    op (retagged f w) = (fst (op w), retagged f (snd (op w))).

(** ** The walk engine *)

Context {ops : TypeOps Value}.

(** [VarBind] is a named tuple: tuples are equal component by component,
    and [a < b] compares the first components that differ.  When these are
    the values, the comparison raises TypeError, for tagged values have no
    order. *)
Definition varbind_eqb (a b : VarBind) : bool :=
  oid_eqb (oid a) (oid b) && value_eqb (value a) (value b).

Definition varbind_lt (a b : VarBind) : Result bool :=
  if oid_eqb (oid a) (oid b)
  then (if value_eqb (value a) (value b)
        then Return false
        else Raise TypeError)
  else Return (oid_ltb (oid a) (oid b)).

(** Lists compare at their first differing element; a proper prefix is
    smaller. *)
Fixpoint varbinds_lt (a b : list VarBind) : Result bool :=
  match a, b with
  | _, [] => Return false
  | [], _ :: _ => Return true
  | x :: a', y :: b' =>
      if varbind_eqb x y then varbinds_lt a' b' else varbind_lt x y
  end.

(** Modelled from the spec: [WalkRow] of [puresnmp/util.py], the last
    varbind received for a base and whether the base is unfinished. *)
Record WalkRow : Type := mkWalkRow {
  row_value : VarBind;
  unfinished : bool
}.

(** Modelled from the spec: [group_varbinds] of [puresnmp/util.py].  The
    fetcher answers the [n] OIDs of a round in an interleaved list, one
    varbind per OID and repetition ("fetcher contract"); the varbinds are
    dealt by position to the OID they answer, "within each base queue,
    order is preserved as received", so that "out-of-tree tail entries
    signal termination for that base".  With [user_roots] each queue is
    "re-keyed by containment": it goes under the requested base that
    contains the OID the round started from, and is dropped when no base
    contains it. *)
Definition group_varbinds (varbinds : list VarBind)
           (effective_roots user_roots : list ObjectIdentifier)
  : dict ObjectIdentifier (list VarBind) :=
  let n := length effective_roots in
  let results :=
    fold_left
      (fun d ir => dict_set d (snd ir) (slice_step (fst ir) n varbinds))
      (combine (seq 0 n) effective_roots) [] in
  match user_roots with
  | [] => results
  | _ :: _ =>
      fold_left
        (fun new_results kv =>
           match find (fun base => oid_in (fst kv) base) user_roots with
           | None => new_results
           | Some base => dict_set new_results base (snd kv)
           end)
        (dict_items results) []
  end.

(** [v[-1]] of a non-empty list. *)
Definition last_item {A : Type} (v : list A) : option A :=
  match rev v with
  | [] => None
  | x :: _ => Some x
  end.

(** Modelled from the spec: [get_unfinished_walk_oids] of
    [puresnmp/util.py]; "an unfinished base is one whose last received
    varbind is still inside its subtree and whose next fetch would be
    [last.oid]".  The rows come in ascending order of base. *)
Definition get_unfinished_walk_oids
           (grouped_oids : dict ObjectIdentifier (list VarBind))
  : list (ObjectIdentifier * WalkRow) :=
  let last_received_oids :=
    flat_map
      (fun kv =>
         match last_item (snd kv) with
         | None => []
         | Some l => [(fst kv, mkWalkRow l (oid_in (oid l) (fst kv)))]
         end)
      (dict_items grouped_oids) in
  filter (fun item => unfinished (snd item))
         (ascending (fun a b => oid_ltb (fst a) (fst b))
                    last_received_oids).

(** [fetcher.__name__]. *)
Inductive FetcherName : Type :=
| name_multigetnext
| name_bulkwalk_fetcher (bulk_size : Z).

Record Fetcher : Type := mkFetcher {
  fetcher_name : FetcherName;
  fetcher_call : string -> string -> list OidStr -> Z -> Z -> M (list VarBind)
}.

(** The records that the module hands to [LOG]. *)
Inductive LogRecord : Type :=
| DebugWalking (n : nat) (name : FetcherName)
| DebugContinue (unfinished total : nat)
| DebugUnexpected (varbind : VarBind)
| WarningAborted (ip : string) (next_fetches_str : list OidStr)
                 (exc : Exception).

(** What a generator does, in the order in which it does it. *)
Inductive WalkEvent : Type :=
| Fetch (oids : list OidStr) (result : Result (list VarBind))
| Log (record : LogRecord)
| Yield (varbind : VarBind).

(** How the run of a generator ends: it is exhausted, an exception leaves
    it, or the bound on the number of rounds observed is reached while it
    still has rounds to go. *)
Inductive Outcome : Type :=
| Exhausted
| Propagated (e : Exception)
| StillRunning.

Definition Run : Type := (list WalkEvent * Outcome * World)%type.

Definition run_events (r : Run) : list WalkEvent := fst (fst r).
Definition run_outcome (r : Run) : Outcome := snd (fst r).
Definition run_world (r : Run) : World := snd r.

(** The inner loop [for varbind in var]; [log_skipped] tells the loop
    before the [while] (which logs what it skips) from the one inside. *)
Fixpoint yield_group (log_skipped : bool)
         (requested_oids : list ObjectIdentifier) (var : list VarBind)
         (yielded : oid_set) : list WalkEvent * oid_set :=
  match var with
  | [] => ([], yielded)
  | varbind :: rest =>
      let containment :=
        map (fun b => oid_in (oid varbind) b) requested_oids in
      if negb (any containment) || set_mem (oid varbind) yielded
      then
        let '(events, yielded') :=
          yield_group log_skipped requested_oids rest yielded in
        ((if log_skipped then [Log (DebugUnexpected varbind)] else [])
           ++ events, yielded')
      else
        let '(events, yielded') :=
          yield_group log_skipped requested_oids rest
                      (set_add (oid varbind) yielded) in
        (Yield varbind :: events, yielded')
  end.

(** The outer loop [for var in sorted(grouped_oids.values())]. *)
Fixpoint yield_groups (log_skipped : bool)
         (requested_oids : list ObjectIdentifier)
         (vars : list (list VarBind)) (yielded : oid_set)
  : list WalkEvent * oid_set :=
  match vars with
  | [] => ([], yielded)
  | var :: rest =>
      let '(events, yielded1) :=
        yield_group log_skipped requested_oids var yielded in
      let '(events', yielded2) :=
        yield_groups log_skipped requested_oids rest yielded1 in
      (events ++ events', yielded2)
  end.

(** The loop [while unfinished_oids]; [fuel] bounds the number of rounds
    that are observed. *)
Fixpoint walk_rounds (fuel : nat) (ip community : string) (port timeout : Z)
         (fetcher : Fetcher) (errors : string) (total : nat)
         (requested_oids : list ObjectIdentifier)
         (unfinished_oids : list (ObjectIdentifier * WalkRow))
         (yielded : oid_set) (w : World) : Run :=
  match unfinished_oids with
  | [] => ([], Exhausted, w)
  | _ :: _ =>
      match fuel with
      | O => ([], StillRunning, w)
      | S fuel' =>
          let next_fetches :=
            map (fun u => oid (row_value (snd u))) unfinished_oids in
          let next_fetches_str := map unicode next_fetches in
          match fetcher_call fetcher ip community next_fetches_str
                             port timeout w with
          | (Raise NoSuchOID, w1) =>
              ([Fetch next_fetches_str (Raise NoSuchOID)], Exhausted, w1)
          | (Raise FaultySNMPImplementation, w1) =>
              if String.eqb errors ERRORS_WARN
              then
                ([Fetch next_fetches_str (Raise FaultySNMPImplementation);
                  Log (WarningAborted ip next_fetches_str
                                      FaultySNMPImplementation)],
                 Exhausted, w1)
              else
                ([Fetch next_fetches_str (Raise FaultySNMPImplementation)],
                 Propagated FaultySNMPImplementation, w1)
          | (Raise e, w1) =>
              ([Fetch next_fetches_str (Raise e)], Propagated e, w1)
          | (Return varbinds, w1) =>
              let grouped_oids :=
                group_varbinds varbinds next_fetches requested_oids in
              let unfinished_oids' :=
                get_unfinished_walk_oids grouped_oids in
              let remaining :=
                Log (DebugContinue (length unfinished_oids') total) in
              match sorted varbinds_lt (dict_values grouped_oids) with
              | Raise e =>
                  ([Fetch next_fetches_str (Return varbinds); remaining],
                   Propagated e, w1)
              | Return vars =>
                  let '(events, yielded') :=
                    yield_groups false requested_oids vars yielded in
                  let '(events', outcome, w2) :=
                    walk_rounds fuel' ip community port timeout fetcher
                                errors total requested_oids unfinished_oids'
                                yielded' w1 in
                  (Fetch next_fetches_str (Return varbinds)
                     :: remaining
                     :: events ++ events',
                   outcome, w2)
              end
          end
      end
  end.

Definition multiwalk (fuel : nat) (ip community : string)
           (oids : list OidStr) (port timeout : Z) (fetcher : Fetcher)
           (errors : string) (w : World) : Run :=
  let walking := Log (DebugWalking (length oids) (fetcher_name fetcher)) in
  match fetcher_call fetcher ip community oids port timeout w with
  | (Raise e, w1) => ([walking; Fetch oids (Raise e)], Propagated e, w1)
  | (Return varbinds, w1) =>
      let requested_oids := map OID oids in
      let grouped_oids := group_varbinds varbinds requested_oids [] in
      let unfinished_oids := get_unfinished_walk_oids grouped_oids in
      let remaining :=
        Log (DebugContinue (length unfinished_oids) (length oids)) in
      match sorted varbinds_lt (dict_values grouped_oids) with
      | Raise e =>
          ([walking; Fetch oids (Return varbinds); remaining],
           Propagated e, w1)
      | Return vars =>
          let '(events, yielded) :=
            yield_groups true requested_oids vars [] in
          let '(events', outcome, w2) :=
            walk_rounds fuel ip community port timeout fetcher errors
                        (length oids) requested_oids unfinished_oids
                        yielded w1 in
          (walking
             :: Fetch oids (Return varbinds)
             :: remaining
             :: events ++ events',
           outcome, w2)
      end
  end.

(** The default value of [multiwalk]'s [fetcher] argument. *)
Definition multigetnext_fetcher : Fetcher :=
  mkFetcher name_multigetnext multigetnext.

Definition walk (fuel : nat) (ip community : string) (oid : OidStr)
           (port timeout : Z) (errors : string) (w : World) : Run :=
  multiwalk fuel ip community [oid] port timeout multigetnext_fetcher
            errors w.

Definition _bulkwalk_fetcher (bulk_size : Z) : Fetcher :=
  mkFetcher (name_bulkwalk_fetcher bulk_size)
    (fun ip community oids port timeout =>
       result <- bulkget ip community [] oids bulk_size port timeout ;;
       ret (map (fun kv => mkVarBind (OID (fst kv)) (snd kv))
                (dict_items (listing result)))).

(** What a caller may pass as [oids]: a list, or (by mistake) one string. *)
Inductive OidsArgument : Type :=
| PyList (oids : list OidStr)
| PyStr (oid : OidStr).

(** [for oid, value in result: yield VarBind(oid, value)]. *)
Definition reyield (e : WalkEvent) : WalkEvent :=
  match e with
  | Yield vb => Yield (mkVarBind (oid vb) (value vb))
  | _ => e
  end.

Definition bulkwalk (fuel : nat) (ip community : string)
           (oids : OidsArgument) (bulk_size : Z) (port : Z) (w : World)
  : Run :=
  match oids with
  | PyStr _ => ([], Propagated TypeError, w)
  | PyList oids =>
      let result :=
        multiwalk fuel ip community oids port default_timeout
                  (_bulkwalk_fetcher bulk_size) ERRORS_STRICT w in
      (map reyield (run_events result), run_outcome result,
       run_world result)
  end.

(** The varbinds that a run hands to its consumer. *)
Definition yields (events : list WalkEvent) : list VarBind :=
  flat_map (fun e => match e with Yield vb => [vb] | _ => [] end) events.

Definition is_warning (e : WalkEvent) : bool :=
  match e with
  | Log (WarningAborted _ _ _) => true
  | _ => false
  end.

Definition is_fetch (e : WalkEvent) : bool :=
  match e with
  | Fetch _ _ => true
  | _ => false
  end.

(** ** Vocabulary for the runs of a walk *)

(** Guard (a) of the yield loops: the OID lies in a requested base. *)
Definition contained (requested_oids : list ObjectIdentifier)
           (vb : VarBind) : Prop :=
  any (map (fun base => oid_in (oid vb) base) requested_oids) = true.

(** The OIDs that a round of the loop fetches: the last OID received for
    each unfinished base. *)
Definition frontier (unfinished_oids : list (ObjectIdentifier * WalkRow))
  : list OidStr :=
  map unicode (map (fun u => oid (row_value (snd u))) unfinished_oids).

Definition fetch_failed (e : WalkEvent) : Prop :=
  exists fetched exc, e = Fetch fetched (Raise exc).

(** Events that are neither a fetch nor a warning. *)
Definition quiet (e : WalkEvent) : Prop :=
  is_fetch e = false /\ is_warning e = false.

(** The yields among [events] are new with respect to the set [yielded]:
    they lie in a requested base, their OIDs are pairwise distinct and
    not in [yielded], and [yielded'] is [yielded] with these OIDs added. *)
Definition fresh_yields (requested_oids : list ObjectIdentifier)
           (yielded : oid_set) (events : list WalkEvent)
           (yielded' : oid_set) : Prop :=
  Forall (contained requested_oids) (yields events) /\
  NoDup (map oid (yields events)) /\
  (forall x, In x (map oid (yields events)) -> ~ In x yielded) /\
  (forall x, In x yielded' <->
             In x yielded \/ In x (map oid (yields events))).


(** How the loop of the walk ends on a fetch that raises [e]: the events
    that follow the fetch and the outcome of the run. *)
Definition ends_with (errors ip : string) (fetched : list OidStr)
           (e : Exception) (post : list WalkEvent) (outcome : Outcome)
  : Prop :=
  match e with
  | NoSuchOID => post = [] /\ outcome = Exhausted
  | FaultySNMPImplementation =>
      if String.eqb errors ERRORS_WARN
      then post = [Log (WarningAborted ip fetched FaultySNMPImplementation)]
           /\ outcome = Exhausted
      else post = [] /\ outcome = Propagated FaultySNMPImplementation
  | _ => post = [] /\ outcome = Propagated e
  end.

(** The world [w'] comes from [w] by sending datagrams with the timeout
    [t] only. *)
Definition sends_with_timeout (t : Z) (w w' : World) : Prop :=
  exists new, sent w' = sent w ++ new /\
              Forall (fun call => sc_timeout call = t) new.

End Engine.

(** ** Scenarios of the test suite

    The tagged values of the scenarios are [Integer]s. *)

#[export] Instance Integer_ops : TypeOps Z :=
  {| value_eqb := Z.eqb |}.

(** [Sequence(Integer(1), OctetString(b'public'), GetResponse(rid, vbs))]. *)
Definition response (rid : Z) (vbs : list (@VarBind Z)) : @Reply Z :=
  Answer (inr (mkMessage 1%Z "public" (mkGetResponse rid vbs))).

(** A reply whose decoding raises [e]. *)
Definition failing (e : Exception) : @Reply Z := Answer (inl e).

Definition world_of (a : list (@SendCall Z) -> @Reply Z) : @World Z :=
  mkWorld a 0%Z [].

(** [test_walk_endless_loop]: the agent answers 1.2.3, 1.2.4, 1.2.5 and then
    1.2.5 for ever. *)
Definition endless_loop_agent : list (@SendCall Z) -> @Reply Z :=
  fun calls =>
    match length calls with
    | 1 => response 234 [mkVarBind [1; 2; 3]%N 123%Z]
    | 2 => response 234 [mkVarBind [1; 2; 4]%N 124%Z]
    | _ => response 234 [mkVarBind [1; 2; 5]%N 125%Z]
    end.

(** Two bases, 1.2 and 1.3: the agent is stuck on 1.2.1 for the first base
    and goes on properly (1.3.1, 1.3.2, 1.3.3, ...) for the second. *)
Definition stuck_on_first_base_agent : list (@SendCall Z) -> @Reply Z :=
  fun calls =>
    response 234 [mkVarBind [1; 2; 1]%N 1%Z;
                  mkVarBind [1%N; 3%N; N.of_nat (length calls)] 2%Z].

(** The agent reports the end of the tree at once. *)
Definition end_of_tree_agent : list (@SendCall Z) -> @Reply Z :=
  fun _ => failing NoSuchOID.

(** The agent answers every request with the one varbind 1.2.3. *)
Definition echo_agent : list (@SendCall Z) -> @Reply Z :=
  fun _ => response 234 [mkVarBind [1; 2; 3]%N 30%Z].

(** The agent answers every request with two varbinds. *)
Definition two_varbinds_agent : list (@SendCall Z) -> @Reply Z :=
  fun _ => response 234 [mkVarBind [1; 2; 3]%N 30%Z;
                         mkVarBind [1; 2; 4]%N 40%Z].

(** Replies played back in order, as the mocked [send] of the test suite
    does; once the list is used up nothing answers. *)
Definition scripted (replies : list (@Reply Z))
  : list (@SendCall Z) -> @Reply Z :=
  fun calls => nth (length calls - 1) replies NoReply.

(** [test_walk_increasing_oid_lenient]: 1.2.3, 1.2.4, 1.2.5 and then the
    smaller 1.2.1. *)
Definition decreasing_agent : list (@SendCall Z) -> @Reply Z :=
  scripted [response 234 [mkVarBind [1; 2; 3]%N 123%Z];
            response 234 [mkVarBind [1; 2; 4]%N 124%Z];
            response 234 [mkVarBind [1; 2; 5]%N 125%Z];
            response 234 [mkVarBind [1; 2; 1]%N 121%Z]].

(** [test_multiwalk_non_containment], first case: the agent returns the
    requested OIDs themselves. *)
Definition same_oids_agent : list (@SendCall Z) -> @Reply Z :=
  scripted [response 123 [mkVarBind [1; 2; 3]%N 30%Z;
                          mkVarBind [2; 3; 4]%N 40%Z]].

(** Two columns of a table, walked together: after the last row of each
    column the agent goes on to the first row of the next column. *)
Definition two_columns_agent : list (@SendCall Z) -> @Reply Z :=
  scripted [response 234 [mkVarBind [1; 1; 1]%N 1%Z;
                          mkVarBind [1; 2; 1]%N 10%Z];
            response 234 [mkVarBind [1; 1; 78]%N 78%Z;
                          mkVarBind [1; 2; 78]%N 20%Z];
            response 234 [mkVarBind [1; 2; 1]%N 10%Z;
                          mkVarBind [1; 3; 1]%N 30%Z]].

(** A bulk walk of the base 1.2 with two repetitions: the second response
    runs out of the tree. *)
Definition bulk_agent : list (@SendCall Z) -> @Reply Z :=
  scripted [response 234 [mkVarBind [1; 2; 1]%N 1%Z;
                          mkVarBind [1; 2; 2]%N 2%Z];
            response 234 [mkVarBind [1; 2; 3]%N 3%Z;
                          mkVarBind [1; 3; 1]%N 4%Z]].

(** Two bases, 1.1 and 1.2: the agent answers both with the OID 1.2.1, and
    with two different values. *)
Definition same_oid_twice_agent : list (@SendCall Z) -> @Reply Z :=
  fun _ => response 234 [mkVarBind [1; 2; 1]%N 1%Z;
                         mkVarBind [1; 2; 1]%N 2%Z].

(** ** Properties that the operations do not have

    Each of the following propositions is refuted below on one of the
    scenarios. *)

(** [multiget] would enforce invariant I4 if it never accepted a response
    whose [request_id] is not the one of the request. *)
Definition multiget_enforces_I4 : Prop :=
  forall (w : @World Z) ip community oids port timeout m,
    answer_to w ip port community
              (fun rid => GetRequest rid (map OID oids)) timeout
    = Answer (inr m) ->
    request_id (msg_pdu m) <> next_request_id (request_id_counter w) ->
    forall values,
      fst (multiget ip community oids port timeout w) <> Return values.

(** [bulkget] would report a response beyond the bound of I6 as a faulty
    implementation. *)
Definition bulkget_overflow_raises_faulty : Prop :=
  forall (w : @World Z) ip community scalar_oids repeating_oids
         max_list_size port timeout m,
    answer_to w ip port community
              (fun rid =>
                 BulkGetRequest rid (length scalar_oids) max_list_size
                   (map OID scalar_oids ++ map OID repeating_oids))
              timeout
    = Answer (inr m) ->
    (Z.of_nat (length (varbinds (msg_pdu m)))
     > bulk_bound (length scalar_oids) max_list_size
                  (length scalar_oids + length repeating_oids))%Z ->
    fst (bulkget ip community scalar_oids repeating_oids max_list_size
                 port timeout w)
    = Raise FaultySNMPImplementation.

(** [multigetnext] would answer every response in which some retrieved OID
    is not a strict successor of the OID requested at its position with a
    FaultySNMPImplementation. *)
Definition multigetnext_non_successor_raises_faulty : Prop :=
  forall (w : @World Z) ip community oids port timeout m,
    answer_to w ip port community
              (fun rid => GetNextRequest rid oids) timeout
    = Answer (inr m) ->
    Exists (fun p => oid_ltb (OID (fst p)) (oid (snd p)) = false)
           (combine oids (varbinds (msg_pdu m))) ->
    fst (multigetnext ip community oids port timeout w)
    = Raise FaultySNMPImplementation.

(** [multigetnext] would return [N] results whenever the response carries
    [N] varbinds. *)
Definition multigetnext_matching_count_returns : Prop :=
  forall (w : @World Z) ip community oids port timeout m,
    answer_to w ip port community
              (fun rid => GetNextRequest rid oids) timeout
    = Answer (inr m) ->
    length (varbinds (msg_pdu m)) = length oids ->
    exists output,
      fst (multigetnext ip community oids port timeout w) = Return output /\
      length output = length oids.

(** ** The rest of the module: table *)

Section Table.
Context {Value : Type} {ops : TypeOps Value}.

(** Modelled from the spec: [tablify] of [puresnmp/x690/util.py], "given a
    flat ordered sequence of VarBinds from a walk and an integer
    num_base_nodes, produce a list of row-maps".  It reads the whole stream;
    how it makes the rows is left open. *)
Variable Row : Type.
Variable tablify : list (@VarBind Value) -> Z -> list Row.

(** [table] drains the walk into [tablify]: it returns the rows when the
    walk is exhausted and raises what leaves the walk; [None] when the
    rounds observed do not reach the end of the walk. *)
Definition table (fuel : nat) (ip community : string) (oid : OidStr)
           (port : Z) (num_base_nodes : Z) (w : @World Value)
  : option (Result (list Row)) * @World Value :=
  let tmp := walk fuel ip community oid port default_timeout ERRORS_STRICT w in
  (match run_outcome tmp with
   | Exhausted => Some (Return (tablify (yields (run_events tmp))
                                        num_base_nodes))
   | Propagated e => Some (Raise e)
   | StillRunning => None
   end,
   run_world tmp).

End Table.

(** ** Vocabulary for the operations and their datagrams *)

Section OperationVocabulary.
Context {Value : Type}.

(** An operation passes on the failures of the exchange whose reply is
    [reply]: the timeout of the transport and the exception of the
    decoding. *)
Definition passes_failures_on {A : Type} (op : @M Value A)
           (reply : @World Value -> @Reply Value) : Prop :=
  forall w,
    (reply w = NoReply -> fst (op w) = Raise Timeout) /\
    (forall e, reply w = Answer (inl e) -> fst (op w) = Raise e).

(** An operation makes exactly the exchange that sends [call]. *)
Definition makes_one_exchange {A : Type} (op : @M Value A)
           (call : @World Value -> @SendCall Value) : Prop :=
  forall w, snd (op w) = after_exchange w (call w).

(** The varbind of a response that a lookup by OID finds: the last one for
    this OID. *)
Definition last_for (o : ObjectIdentifier) (vbs : list (@VarBind Value))
  : option (@VarBind Value) :=
  find (fun vb => oid_eqb (oid vb) o) (rev vbs).

(** The datagram of a GETNEXT for [oids], as a walk sends it. *)
Definition getnext_datagram (ip : string) (port : Z) (community : string)
           (timeout : Z) (oids : list OidStr) (call : @SendCall Value)
  : Prop :=
  exists rid,
    call = mkSendCall ip port
             (Sequence V2C community (GetNextRequest rid oids)) timeout.

(** The datagram of a GETBULK for [oids] without non-repeaters, as a bulk
    walk sends it. *)
Definition bulk_datagram (ip : string) (port : Z) (community : string)
           (timeout : Z) (bulk_size : Z) (oids : list OidStr)
           (call : @SendCall Value) : Prop :=
  exists rid,
    call = mkSendCall ip port
             (Sequence V2C community
                       (BulkGetRequest rid 0 bulk_size (map OID oids)))
             timeout.

(** What a GETNEXT fetch may return for [oids]: as many varbinds, each a
    strict successor of the OID at its position. *)
Definition successors_of (oids : list OidStr)
           (result : Result (list (@VarBind Value))) : Prop :=
  forall vbs,
    result = Return vbs ->
    Forall2 (fun requested retrieved =>
               oid_ltb (OID requested) (oid retrieved) = true) oids vbs.

End OperationVocabulary.

(** The fetches of a chronicle, paired with the datagrams sent for them:
    [shape oids result call] holds of each fetch and its datagram. *)
Definition fetches_sent {Value : Type}
           (shape : list OidStr -> Result (list (@VarBind Value)) ->
                    @SendCall Value -> Prop)
           (events : list (@WalkEvent Value))
           (calls : list (@SendCall Value)) : Prop :=
  Forall2 (fun event call =>
             exists oids result,
               event = Fetch oids result /\ shape oids result call)
          (filter is_fetch events) calls.

(** ** The log handler of the test suite *)

(** A log record as [CapturingHandler] reads it: its level and its message,
    [record.msg % record.args]. *)
Record PyLogRecord : Type := mkPyLogRecord {
  levelno : Z;
  message : string
}.

(** What [assertContains] writes to [sys.stderr] before it fails. *)
Inductive StderrLine : Type :=
| CapturedHeader
| CapturedLine (level : Z) (text : string).

Inductive Asserted : Type :=
| Passed
| AssertionError (printed : list StderrLine).

Section CapturingHandler.

(** [re.search(message_regex, text)] of the standard library, as a truth
    value. *)
Variable re_search : string -> string -> bool.

(** [self.captured_records]. *)
Definition CapturingHandler : Type := list PyLogRecord.

Definition emit (self : CapturingHandler) (record : PyLogRecord)
  : CapturingHandler :=
  self ++ [record].

(** The loop of [assertContains], which leaves at the first match. *)
Fixpoint found_in (level : Z) (message_regex : string)
         (records : list PyLogRecord) : bool :=
  match records with
  | [] => false
  | record :: rest =>
      let matches_level := Z.eqb (levelno record) level in
      let matches_re := re_search message_regex (message record) in
      if matches_level && matches_re
      then true
      else found_in level message_regex rest
  end.

Definition assertContains (self : CapturingHandler) (level : Z)
           (message_regex : string) : Asserted :=
  if found_in level message_regex self
  then Passed
  else AssertionError
         (CapturedHeader
            :: map (fun record =>
                      CapturedLine (levelno record) (message record))
                   self).

End CapturingHandler.

(** * Facts *)

(** ** Containers *)

Lemma oid_eqb_eq (a b : ObjectIdentifier) : oid_eqb a b = true <-> a = b.
Proof.
  revert b; induction a as [|x a IH]; intros [|y b]; simpl;
    try (split; intro; discriminate || reflexivity).
  rewrite andb_true_iff, N.eqb_eq, IH.
  split.
  - intros [-> ->]; reflexivity.
  - intros E; injection E; auto.
Qed.

Lemma oid_eqb_refl (a : ObjectIdentifier) : oid_eqb a a = true.
Proof. apply oid_eqb_eq; reflexivity. Qed.

Lemma set_mem_In (x : ObjectIdentifier) (s : oid_set) :
  set_mem x s = true <-> In x s.
Proof.
  unfold set_mem; rewrite existsb_exists; split.
  - intros [y [Hin Heq]]. apply oid_eqb_eq in Heq; subst; exact Hin.
  - intros Hin; exists x; split; [exact Hin | apply oid_eqb_refl].
Qed.

Lemma str_eqb_eq (a b : OidStr) : str_eqb a b = true <-> a = b.
Proof.
  destruct a as [s x], b as [t y]; unfold str_eqb; simpl.
  rewrite andb_true_iff, String.eqb_eq, oid_eqb_eq; split.
  - intros [-> ->]; reflexivity.
  - intros E; injection E; auto.
Qed.

(** The strings of distinct OIDs are distinct, and parse back. *)
Lemma unicode_inj (a b : ObjectIdentifier) : unicode a = unicode b -> a = b.
Proof. intros E; exact (f_equal OID E). Qed.

Lemma OID_unicode (o : ObjectIdentifier) : OID (unicode o) = o.
Proof. reflexivity. Qed.

Lemma NoDup_unicode (l : list ObjectIdentifier) :
  NoDup l -> NoDup (map unicode l).
Proof.
  induction 1 as [|x l Hx _ IH]; simpl; constructor; [|exact IH].
  intros Hin; apply in_map_iff in Hin as (y & Hy & Hin).
  apply unicode_inj in Hy; subst; contradiction.
Qed.

(** Distinct canonical strings denote distinct OIDs. *)
Lemma NoDup_OID (l : list OidStr) :
  NoDup l ->
  (forall k, In k l -> k = unicode (OID k)) ->
  NoDup (map OID l).
Proof.
  induction 1 as [|k l Hk _ IH]; intros Hcanonical; simpl; constructor.
  - intros Hin; apply in_map_iff in Hin as (k' & Hk' & Hin).
    apply Hk.
    rewrite (Hcanonical k (or_introl eq_refl)), <- Hk',
      <- (Hcanonical k' (or_intror Hin)).
    exact Hin.
  - apply IH; intros k' Hk'; apply Hcanonical; right; exact Hk'.
Qed.

(** What the dicts rely on: [__eq__] of the keys is equality. *)
Class PyKeyLaws (K : Type) {key : PyKey K} : Prop :=
  key_eqb_eq : forall a b : K, key_eqb a b = true <-> a = b.

Arguments PyKeyLaws K {key}.

#[export] Instance ObjectIdentifier_key_laws : PyKeyLaws ObjectIdentifier.
Proof. exact oid_eqb_eq. Qed.

#[export] Instance OidStr_key_laws : PyKeyLaws OidStr.
Proof. exact str_eqb_eq. Qed.

Section DictFacts.
Context {K : Type} {key : PyKey K} {laws : PyKeyLaws K}.
Variable V : Type.

Lemma key_eqb_refl (a : K) : key_eqb a a = true.
Proof. apply key_eqb_eq; reflexivity. Qed.

Lemma key_eq_dec (a b : K) : {a = b} + {a <> b}.
Proof.
  destruct (key_eqb a b) eqn:E.
  - left; apply key_eqb_eq; exact E.
  - right; intros H; apply key_eqb_eq in H; congruence.
Qed.

Lemma dict_set_keys_present (d : dict K V) k v :
  In k (map fst d) -> map fst (dict_set d k v) = map fst d.
Proof.
  induction d as [|[k' v'] d IH]; simpl; [intros []|].
  intros Hin. destruct (key_eqb k' k) eqn:E; simpl; [reflexivity|].
  destruct Hin as [-> | Hin].
  - rewrite key_eqb_refl in E; discriminate.
  - rewrite IH by exact Hin; reflexivity.
Qed.

Lemma dict_set_keys_absent (d : dict K V) k v :
  ~ In k (map fst d) -> map fst (dict_set d k v) = map fst d ++ [k].
Proof.
  induction d as [|[k' v'] d IH]; simpl; [reflexivity|].
  intros Hnin. destruct (key_eqb k' k) eqn:E; simpl.
  - apply key_eqb_eq in E; subst; tauto.
  - rewrite IH by tauto; reflexivity.
Qed.

(** Filling a dict whose keys are distinct keeps them distinct and adds
    exactly the keys assigned. *)
Lemma dict_fill_keys (pairs : list (K * V)) :
  forall d : dict K V,
    NoDup (map fst d) ->
    let d' := fold_left (fun d kv => dict_set d (fst kv) (snd kv)) pairs d in
    NoDup (map fst d') /\
    (forall x, In x (map fst d') <-> In x (map fst d) \/ In x (map fst pairs)).
Proof.
  induction pairs as [|[k v] pairs IH]; intros d Hnd; simpl.
  - split; [exact Hnd | intros x; tauto].
  - destruct (in_dec key_eq_dec k (map fst d)) as [Hin | Hnin].
    + destruct (IH (dict_set d k v)) as [Hnd' Hkeys].
      { rewrite dict_set_keys_present by exact Hin; exact Hnd. }
      split; [exact Hnd'|].
      intros x; rewrite Hkeys, dict_set_keys_present by exact Hin.
      split; [tauto|]. intros [H | [<- | H]]; tauto.
    + destruct (IH (dict_set d k v)) as [Hnd' Hkeys].
      { rewrite dict_set_keys_absent by exact Hnin.
        apply NoDup_app; [exact Hnd | repeat constructor; intros [] |].
        intros a Ha [<- | []]; exact (Hnin Ha). }
      split; [exact Hnd'|].
      intros x; rewrite Hkeys, dict_set_keys_absent by exact Hnin.
      rewrite in_app_iff; simpl; tauto.
Qed.

(** [len] of a dict built from pairs counts the distinct keys. *)
Lemma dict_len_of_pairs (dec : forall a b : K, {a = b} + {a <> b})
      (pairs : list (K * V)) :
  dict_len (dict_of_pairs pairs) = length (nodup dec (map fst pairs)).
Proof.
  unfold dict_len, dict_of_pairs.
  destruct (dict_fill_keys pairs (@nil (K * V)) (NoDup_nil _))
    as [Hnd Hkeys].
  rewrite <- (length_map fst).
  apply Permutation_length, NoDup_Permutation.
  - exact Hnd.
  - apply NoDup_nodup.
  - intros x; rewrite Hkeys, nodup_In; simpl; tauto.
Qed.
End DictFacts.

(** An injective function keeps the number of distinct elements. *)
Lemma nodup_map_length (A B : Type)
      (decA : forall a b : A, {a = b} + {a <> b})
      (decB : forall a b : B, {a = b} + {a <> b}) (f : A -> B) :
  (forall a b, f a = f b -> a = b) ->
  forall l, length (nodup decB (map f l)) = length (nodup decA l).
Proof.
  intros Hinj; induction l as [|x l IH]; simpl; [reflexivity|].
  destruct (in_dec decB (f x) (map f l)) as [Hin | Hnin];
    destruct (in_dec decA x l) as [Hin' | Hnin']; simpl; try congruence.
  - exfalso; apply in_map_iff in Hin as (y & Hy & Hin).
    apply Hinj in Hy; subst; contradiction.
  - exfalso; apply Hnin, in_map; exact Hin'.
Qed.

(** ** The operation engine *)

Section OperationFacts.
Context {Value : Type}.

Implicit Types (w : @World Value) (m : @Message Value).

Lemma varbind_eta (vbs : list (@VarBind Value)) :
  map (fun vb => mkVarBind (oid vb) (value vb)) vbs = vbs.
Proof.
  induction vbs as [|[o v] vbs IH]; simpl; [|rewrite IH]; reflexivity.
Qed.

(** The successor loop touches nothing: it only accepts or raises. *)
Lemma verify_successors_spec oids (output : list (@VarBind Value)) w :
  verify_successors (combine oids output) w =
  (if successors_ok oids output
   then Return tt
   else Raise FaultySNMPImplementation, w).
Proof.
  unfold successors_ok.
  induction (combine oids output) as [|[requested retrieved] pairs IH];
    simpl; [reflexivity|].
  destruct (oid_ltb (OID requested) (oid retrieved)); simpl;
    [exact IH | reflexivity].
Qed.

Lemma successors_ok_false oids (output : list (@VarBind Value)) :
  successors_ok oids output = false <->
  Exists (fun p => oid_ltb (OID (fst p)) (oid (snd p)) = false)
         (combine oids output).
Proof.
  unfold successors_ok.
  induction (combine oids output) as [|p pairs IH]; simpl.
  - split; [discriminate | intros H; inversion H].
  - rewrite andb_false_iff, IH; split.
    + intros [H | H]; [left | right]; exact H.
    + intros H; inversion H; subst; [left | right]; assumption.
Qed.

Lemma successors_ok_true oids (output : list (@VarBind Value)) :
  length output = length oids ->
  successors_ok oids output = true ->
  Forall2 (fun requested retrieved =>
             oid_ltb (OID requested) (oid retrieved) = true) oids output.
Proof.
  unfold successors_ok; revert output.
  induction oids as [|o oids IH]; intros [|vb output]; simpl;
    try discriminate; intros Hlen Hok; constructor.
  - apply andb_true_iff in Hok; tauto.
  - apply IH; [lia | apply andb_true_iff in Hok; tauto].
Qed.

(** What each operation makes of the three kinds of reply. *)

Lemma multiget_exchange ip community oids port timeout w :
  let request := fun rid => GetRequest rid (map OID oids) in
  let w' := after_exchange
              w (exchange_call w ip port community request timeout) in
  multiget ip community oids port timeout w =
  match answer_to w ip port community request timeout with
  | NoReply => (Raise Timeout, w')
  | Answer (inl e) => (Raise e, w')
  | Answer (inr m) =>
      (if length (varbinds (msg_pdu m)) =? length oids
       then Return (map value (varbinds (msg_pdu m)))
       else Raise SnmpError, w')
  end.
Proof.
  unfold multiget, bind, get_request_id, send, answer_to, exchange_call,
    after_exchange, to_bytes; simpl.
  destruct (agent w _) as [|[e|m]]; simpl; try reflexivity.
  unfold item2; rewrite length_map.
  destruct (_ =? _); reflexivity.
Qed.

Lemma multigetnext_exchange ip community oids port timeout w :
  let request := fun rid => @GetNextRequest Value rid oids in
  let w' := after_exchange
              w (exchange_call w ip port community request timeout) in
  multigetnext ip community oids port timeout w =
  match answer_to w ip port community request timeout with
  | NoReply => (Raise Timeout, w')
  | Answer (inl e) => (Raise e, w')
  | Answer (inr m) =>
      (if length (varbinds (msg_pdu m)) =? length oids
       then (if successors_ok oids (varbinds (msg_pdu m))
             then Return (varbinds (msg_pdu m))
             else Raise FaultySNMPImplementation)
       else Raise SnmpError, w')
  end.
Proof.
  unfold multigetnext, bind, get_request_id, send, answer_to, exchange_call,
    after_exchange, to_bytes; simpl.
  destruct (agent w _) as [|[e|m]]; simpl; try reflexivity.
  unfold item2. destruct (_ =? _); simpl; [|reflexivity].
  rewrite varbind_eta, verify_successors_spec.
  destruct (successors_ok _ _); reflexivity.
Qed.

Lemma length_dict_of_varbinds (vbs : list (@VarBind Value)) :
  dict_len (dict_of_pairs (map (fun vb => (unicode (oid vb), value vb)) vbs))
  = distinct (map oid vbs).
Proof.
  rewrite (dict_len_of_pairs (@key_eq_dec OidStr _ _)), map_map; simpl.
  unfold distinct.
  rewrite <- (@nodup_map_length _ _ oid_eq_dec (@key_eq_dec OidStr _ _)
                                unicode unicode_inj (map oid vbs)), map_map.
  reflexivity.
Qed.

Lemma multiset_exchange ip community mappings binds port timeout w :
  any (map (fun kv => negb (isinstance_Type (snd kv))) mappings) = false ->
  binds_of mappings = Some binds ->
  let request := fun rid => SetRequest rid binds in
  let w' := after_exchange
              w (exchange_call w ip port community request timeout) in
  multiset ip community mappings port timeout w =
  match answer_to w ip port community request timeout with
  | NoReply => (Raise Timeout, w')
  | Answer (inl e) => (Raise e, w')
  | Answer (inr m) =>
      let output :=
        dict_of_pairs (map (fun vb => (unicode (oid vb), value vb))
                           (varbinds (msg_pdu m))) in
      (if dict_len output =? length mappings
       then Return output
       else Raise SnmpError, w')
  end.
Proof.
  intros Hany Hbinds.
  unfold multiset; rewrite Hany, Hbinds.
  unfold bind, get_request_id, send, answer_to, exchange_call,
    after_exchange, to_bytes; simpl.
  destruct (agent w _) as [|[e|m]]; simpl; try reflexivity.
  unfold item2. destruct (_ =? _); reflexivity.
Qed.

Lemma bulkget_exchange ip community scalar_oids repeating_oids
      max_list_size port timeout w :
  let request := fun rid =>
    BulkGetRequest rid (length scalar_oids) max_list_size
                   (map OID scalar_oids ++ map OID repeating_oids) in
  let w' := after_exchange
              w (exchange_call w ip port community request timeout) in
  bulkget ip community scalar_oids repeating_oids max_list_size port
          timeout w =
  match answer_to w ip port community request timeout with
  | NoReply => (Raise Timeout, w')
  | Answer (inl e) => (Raise e, w')
  | Answer (inr m) =>
      let vbs := varbinds (msg_pdu m) in
      let as_pair := fun vb => (unicode (oid vb), value vb) in
      (if (Z.of_nat (length vbs)
           >? bulk_bound (length scalar_oids) max_list_size
                         (length scalar_oids + length repeating_oids))%Z
       then Raise SnmpError
       else Return
              (mkBulkResult
                 (dict_of_pairs
                    (map as_pair (firstn (length scalar_oids) vbs)))
                 (dict_of_pairs
                    (map as_pair (skipn (length scalar_oids) vbs)))),
       w')
  end.
Proof.
  unfold bulkget, bind, get_request_id, send, answer_to, exchange_call,
    after_exchange, to_bytes; simpl.
  destruct (agent w _) as [|[e|m]]; simpl; try reflexivity.
  unfold item2, bulk_bound.
  rewrite length_app, !length_map.
  replace (Nat.min (length scalar_oids)
                   (length scalar_oids + length repeating_oids))
    with (length scalar_oids) by lia.
  rewrite (Z.max_comm _ 0).
  destruct (_ >? _)%Z; reflexivity.
Qed.

End OperationFacts.

Section OperationClaims.
Context {Value : Type}.

Implicit Types (w : @World Value) (m : @Message Value).

Lemma blind_ret {A : Type} (a : A) : blind_to_request_id (@ret Value A a).
Proof. intros f w; reflexivity. Qed.

Lemma blind_raise {A : Type} e : blind_to_request_id (@raise Value A e).
Proof. intros f w; reflexivity. Qed.

Lemma blind_bind {A B : Type} (op : @M Value A) (k : A -> @M Value B) :
  blind_to_request_id op ->
  (forall a, blind_to_request_id (k a)) ->
  blind_to_request_id (bind op k).
Proof.
  intros Hop Hk f w; unfold bind.
  rewrite Hop. destruct (op w) as [[a|e] w']; simpl.
  - apply Hk.
  - reflexivity.
Qed.

Ltac blind_exchange w :=
  unfold answer_to, exchange_call, after_exchange, retagged, retag; simpl;
  destruct (agent w _) as [|[?|?]]; simpl; reflexivity.

Lemma multiget_blind ip community oids port timeout :
  blind_to_request_id
    (@multiget Value ip community oids port timeout).
Proof.
  intros f w. rewrite !multiget_exchange. blind_exchange w.
Qed.

Lemma multigetnext_blind ip community oids port timeout :
  blind_to_request_id
    (@multigetnext Value ip community oids port timeout).
Proof.
  intros f w. rewrite !multigetnext_exchange. blind_exchange w.
Qed.

Lemma multiset_blind ip community mappings port timeout :
  blind_to_request_id
    (@multiset Value ip community mappings port timeout).
Proof.
  intros f w.
  destruct (any (map (fun kv => negb (isinstance_Type (snd kv))) mappings))
    eqn:Hany.
  { unfold multiset; rewrite Hany; reflexivity. }
  destruct (binds_of mappings) as [binds|] eqn:Hbinds.
  - rewrite !(multiset_exchange _ _ _ _ _ _ Hany Hbinds).
    blind_exchange w.
  - unfold multiset; rewrite Hany, Hbinds; reflexivity.
Qed.

Lemma bulkget_blind ip community scalar_oids repeating_oids max_list_size
      port timeout :
  blind_to_request_id
    (@bulkget Value ip community scalar_oids repeating_oids max_list_size
              port timeout).
Proof.
  intros f w. rewrite !bulkget_exchange. blind_exchange w.
Qed.

(** C1 (as amended).  No operation of the engine compares the request_id
    of the response with the one of the request: for get, multiget,
    getnext, multigetnext, set, multiset and bulkget, an agent that pairs
    its responses with any other request_id gets the same result, the same
    datagram sent and the same request-id counter.  A response whose
    request_id differs is accepted like a matching one. *)
Theorem request_id_never_compared :
  forall ip community port timeout,
    (forall oid,
        blind_to_request_id (@get Value ip community oid port timeout)) /\
    (forall oids,
        blind_to_request_id (@multiget Value ip community oids port timeout))
    /\
    (forall oid,
        blind_to_request_id (@getnext Value ip community oid port timeout))
    /\
    (forall oids,
        blind_to_request_id
          (@multigetnext Value ip community oids port timeout)) /\
    (forall oid value,
        blind_to_request_id
          (@set Value ip community oid value port timeout)) /\
    (forall mappings,
        blind_to_request_id
          (@multiset Value ip community mappings port timeout)) /\
    (forall scalar_oids repeating_oids max_list_size,
        blind_to_request_id
          (@bulkget Value ip community scalar_oids repeating_oids
                    max_list_size port timeout)).
Proof.
  intros ip community port timeout; repeat split.
  - intros requested.
    apply blind_bind; [apply multiget_blind|].
    intros [|v output]; [apply blind_raise | apply blind_ret].
  - intros oids; apply multiget_blind.
  - intros requested.
    apply blind_bind; [apply multigetnext_blind|].
    intros [|vb output]; [apply blind_raise | apply blind_ret].
  - intros oids; apply multigetnext_blind.
  - intros requested val.
    apply blind_bind; [apply multiset_blind|].
    intros result; destruct (dict_get result requested);
      [apply blind_ret | apply blind_raise].
  - intros mappings; apply multiset_blind.
  - intros scalar_oids repeating_oids max_list_size; apply bulkget_blind.
Qed.

(** C9.  When the response to a multiget carries as many varbinds as
    OIDs were requested, the result is the list of the values of the
    response varbinds, in the order of the response.  The OIDs of the
    response are not looked at: any other response with the same values,
    whatever its OIDs, gives the same result without error. *)
Theorem multiget_returns_response_values :
  forall w ip community oids port timeout m,
    answer_to w ip port community
              (fun rid => GetRequest rid (map OID oids)) timeout
    = Answer (inr m) ->
    length (varbinds (msg_pdu m)) = length oids ->
    fst (multiget ip community oids port timeout w)
    = Return (map value (varbinds (msg_pdu m))) /\
    (forall w2 m2,
        answer_to w2 ip port community
                  (fun rid => GetRequest rid (map OID oids)) timeout
        = Answer (inr m2) ->
        map value (varbinds (msg_pdu m2))
        = map value (varbinds (msg_pdu m)) ->
        fst (multiget ip community oids port timeout w2)
        = fst (multiget ip community oids port timeout w)).
Proof.
  intros w ip community oids port timeout m Hanswer Hlen.
  assert (Hw : fst (multiget ip community oids port timeout w)
               = Return (map value (varbinds (msg_pdu m)))).
  { rewrite multiget_exchange; simpl; rewrite Hanswer; simpl.
    apply Nat.eqb_eq in Hlen; rewrite Hlen; reflexivity. }
  split; [exact Hw|].
  intros w2 m2 Hanswer2 Hvalues.
  rewrite Hw, multiget_exchange; simpl; rewrite Hanswer2; simpl.
  assert (Hlen2 : length (varbinds (msg_pdu m2)) = length oids).
  { rewrite <- Hlen, <- (length_map value), Hvalues, length_map.
    reflexivity. }
  apply Nat.eqb_eq in Hlen2; rewrite Hlen2, Hvalues; reflexivity.
Qed.

(** C5 (as amended).  For every multigetnext call whose response carries
    as many varbinds as OIDs were requested: when the OID of each retrieved
    varbind is strictly greater than the OID requested at the same
    position the varbinds are returned, and when any is not strictly
    greater the operation raises FaultySNMPImplementation and returns
    nothing.  Whatever the reply, the varbinds that multigetnext returns
    are strict successors of the requested OIDs.  getnext, one OID and the
    first varbind, does the same. *)
Theorem multigetnext_returns_successors_only :
  (forall w ip community oids port timeout m,
      answer_to w ip port community
                (fun rid => GetNextRequest rid oids) timeout
      = Answer (inr m) ->
      length (varbinds (msg_pdu m)) = length oids ->
      let output := varbinds (msg_pdu m) in
      let result := fst (multigetnext ip community oids port timeout w) in
      (Forall2 (fun requested retrieved =>
                  oid_ltb (OID requested) (oid retrieved) = true)
               oids output ->
       result = Return output) /\
      (Exists (fun p => oid_ltb (OID (fst p)) (oid (snd p)) = false)
              (combine oids output) ->
       result = Raise FaultySNMPImplementation)) /\
  (forall w ip community oids port timeout output,
      fst (multigetnext ip community oids port timeout w) = Return output ->
      Forall2 (fun requested retrieved =>
                 oid_ltb (OID requested) (oid retrieved) = true)
              oids output) /\
  (forall w ip community requested port timeout m retrieved,
      answer_to w ip port community
                (fun rid => GetNextRequest rid [requested]) timeout
      = Answer (inr m) ->
      varbinds (msg_pdu m) = [retrieved] ->
      fst (getnext ip community requested port timeout w)
      = if oid_ltb (OID requested) (oid retrieved)
        then Return retrieved
        else Raise FaultySNMPImplementation).
Proof.
  split; [|split].
  - intros w ip community oids port timeout m Hanswer Hlen output result.
    subst result output.
    rewrite multigetnext_exchange; simpl; rewrite Hanswer; simpl.
    pose proof Hlen as Hlenb; apply Nat.eqb_eq in Hlenb; rewrite Hlenb.
    split.
    + intros Hall.
      destruct (successors_ok oids (varbinds (msg_pdu m))) eqn:Hok;
        [reflexivity|].
      apply successors_ok_false in Hok.
      exfalso; clear - Hall Hok.
      induction Hall as [|requested retrieved oids output Hlt _ IH];
        simpl in Hok; inversion Hok; subst; simpl in *;
        [congruence | auto].
    + intros Hex. apply successors_ok_false in Hex; rewrite Hex.
      reflexivity.
  - intros w ip community oids port timeout output.
    rewrite multigetnext_exchange; simpl.
    destruct (answer_to _ _ _ _ _ _) as [|[e|m]]; simpl; try discriminate.
    destruct (_ =? _) eqn:Hlen; [|discriminate].
    destruct (successors_ok _ _) eqn:Hok; [|discriminate].
    intros E; injection E as <-.
    apply successors_ok_true; [apply Nat.eqb_eq; exact Hlen | exact Hok].
  - intros w ip community requested port timeout m retrieved Hanswer Hvbs.
    unfold getnext, bind.
    rewrite multigetnext_exchange; simpl; rewrite Hanswer; simpl.
    rewrite Hvbs; unfold successors_ok; simpl.
    destruct (oid_ltb _ _); reflexivity.
Qed.

(** C6 (as amended).  With N requested varbinds: multiget, multigetnext
    and multiset raise SnmpError when the count of the response varbinds
    (for multiset, the number of distinct response OIDs) differs from N;
    otherwise multiget and multiset return exactly N results, and
    multigetnext returns exactly N results when every retrieved OID is a
    strict successor of the requested one. *)
Theorem cardinality_of_responses :
  (forall w ip community oids port timeout m,
      answer_to w ip port community
                (fun rid => GetRequest rid (map OID oids)) timeout
      = Answer (inr m) ->
      let result := fst (multiget ip community oids port timeout w) in
      (length (varbinds (msg_pdu m)) <> length oids ->
       result = Raise SnmpError) /\
      (length (varbinds (msg_pdu m)) = length oids ->
       exists output, result = Return output /\
                      length output = length oids)) /\
  (forall w ip community oids port timeout m,
      answer_to w ip port community
                (fun rid => GetNextRequest rid oids) timeout
      = Answer (inr m) ->
      let result := fst (multigetnext ip community oids port timeout w) in
      (length (varbinds (msg_pdu m)) <> length oids ->
       result = Raise SnmpError) /\
      (length (varbinds (msg_pdu m)) = length oids ->
       successors_ok oids (varbinds (msg_pdu m)) = true ->
       exists output, result = Return output /\
                      length output = length oids)) /\
  (forall w ip community mappings binds port timeout m,
      binds_of mappings = Some binds ->
      answer_to w ip port community
                (fun rid => SetRequest rid binds) timeout
      = Answer (inr m) ->
      let result := fst (multiset ip community mappings port timeout w) in
      let count := distinct (map oid (varbinds (msg_pdu m))) in
      (count <> length mappings -> result = Raise SnmpError) /\
      (count = length mappings ->
       exists output, result = Return output /\
                      dict_len output = length mappings)).
Proof.
  split; [|split].
  - intros w ip community oids port timeout m Hanswer result.
    subst result.
    rewrite multiget_exchange; simpl; rewrite Hanswer; simpl.
    split; intros Hlen.
    + apply Nat.eqb_neq in Hlen; rewrite Hlen; reflexivity.
    + pose proof Hlen as Hlenb; apply Nat.eqb_eq in Hlenb; rewrite Hlenb.
      eexists; split; [reflexivity|]. rewrite length_map; exact Hlen.
  - intros w ip community oids port timeout m Hanswer result.
    subst result.
    rewrite multigetnext_exchange; simpl; rewrite Hanswer; simpl.
    split.
    + intros Hlen. apply Nat.eqb_neq in Hlen; rewrite Hlen; reflexivity.
    + intros Hlen Hok.
      pose proof Hlen as Hlenb; apply Nat.eqb_eq in Hlenb.
      rewrite Hlenb, Hok.
      eexists; split; [reflexivity | exact Hlen].
  - intros w ip community mappings binds port timeout m Hbinds Hanswer
           result count.
    subst result count.
    assert (Hany : any (map (fun kv => negb (isinstance_Type (snd kv)))
                            mappings) = false).
    { clear - Hbinds. revert binds Hbinds; unfold any.
      induction mappings as [|[k [v|]] mappings IH]; simpl;
        intros binds Hbinds; try discriminate; [reflexivity|].
      destruct (binds_of mappings) as [rest|]; [|discriminate].
      exact (IH rest eq_refl). }
    rewrite (multiset_exchange _ _ _ _ _ _ Hany Hbinds); simpl.
    rewrite Hanswer; simpl.
    rewrite length_dict_of_varbinds.
    split; intros Hcount.
    + apply Nat.eqb_neq in Hcount; rewrite Hcount; reflexivity.
    + pose proof Hcount as Hb; apply Nat.eqb_eq in Hb; rewrite Hb.
      eexists; split; [reflexivity|].
      rewrite length_dict_of_varbinds; exact Hcount.
Qed.

(** C4 (as amended).  For a bulkget with n = non_repeaters (the number of
    scalar OIDs), m = max_list_size and k requested OIDs: when the
    response carries more than n + m * max(0, k - n) varbinds the
    operation raises SnmpError; otherwise the cardinality check passes
    and the operation returns the scalars and the listing. *)
Theorem bulkget_cardinality :
  forall w ip community scalar_oids repeating_oids max_list_size port
         timeout m,
    answer_to w ip port community
              (fun rid =>
                 BulkGetRequest rid (length scalar_oids) max_list_size
                   (map OID scalar_oids ++ map OID repeating_oids))
              timeout
    = Answer (inr m) ->
    let n := length scalar_oids in
    let k := length scalar_oids + length repeating_oids in
    let vbs := varbinds (msg_pdu m) in
    let as_pair := fun vb : @VarBind Value => (unicode (oid vb), value vb) in
    let result :=
      fst (bulkget ip community scalar_oids repeating_oids max_list_size
                   port timeout w) in
    ((Z.of_nat (length vbs) > bulk_bound n max_list_size k)%Z ->
     result = Raise SnmpError) /\
    ((Z.of_nat (length vbs) <= bulk_bound n max_list_size k)%Z ->
     result = Return (mkBulkResult
                        (dict_of_pairs (map as_pair (firstn n vbs)))
                        (dict_of_pairs (map as_pair (skipn n vbs))))).
Proof.
  intros w ip community scalar_oids repeating_oids max_list_size port
         timeout m Hanswer n k vbs as_pair result.
  subst result n k vbs as_pair.
  rewrite bulkget_exchange; simpl; rewrite Hanswer; simpl.
  split; intros Hcmp.
  - apply Z.gtb_gt in Hcmp; rewrite Hcmp; reflexivity.
  - destruct (_ >? _)%Z eqn:E; [apply Z.gtb_gt in E; lia | reflexivity].
Qed.

End OperationClaims.

(** ** The walk engine *)

Section ListFacts.
Variable A : Type.

(** An element that does not occur in the front part of a list lies in its
    back part. *)
Lemma app_cons_in_back (P : A -> Prop) :
  forall (front back pre : list A) (x : A) (post : list A),
    Forall (fun y => ~ P y) front ->
    P x ->
    pre ++ x :: post = front ++ back ->
    exists pre', pre = front ++ pre' /\ back = pre' ++ x :: post.
Proof.
  induction front as [|y front IH]; intros back pre x post Hfront Hx Heq.
  - exists pre; split; [reflexivity | symmetry; exact Heq].
  - inversion Hfront as [|? ? Hy Hfront']; subst.
    destruct pre as [|z pre]; simpl in Heq; injection Heq as -> Heq.
    + contradiction.
    + destruct (IH back pre x post Hfront' Hx Heq) as [pre' [-> ->]].
      exists pre'; split; reflexivity.
Qed.
End ListFacts.

Section WalkFacts.
Context {Value : Type} {ops : TypeOps Value}.

Implicit Types (w : @World Value) (events : list (@WalkEvent Value))
         (yielded : oid_set).

Lemma yields_app events events' :
  yields (events ++ events') = yields events ++ yields events'.
Proof. unfold yields; apply flat_map_app. Qed.

Lemma fresh_yields_nil requested_oids yielded :
  fresh_yields (Value := Value) requested_oids yielded [] yielded.
Proof.
  repeat split; simpl; try constructor; tauto.
Qed.

Lemma fresh_yields_app requested_oids yielded yielded1 yielded2
      events events' :
  fresh_yields requested_oids yielded events yielded1 ->
  fresh_yields requested_oids yielded1 events' yielded2 ->
  fresh_yields requested_oids yielded (events ++ events') yielded2.
Proof.
  intros (Hc & Hnd & Hnew & Hset) (Hc' & Hnd' & Hnew' & Hset').
  unfold fresh_yields; rewrite yields_app, map_app.
  repeat split.
  - apply Forall_app; split; assumption.
  - apply NoDup_app; [exact Hnd | exact Hnd' |].
    intros x Hx Hx'. apply (Hnew' x Hx'), Hset; right; exact Hx.
  - intros x Hx Hin. apply in_app_iff in Hx as [Hx | Hx].
    + exact (Hnew x Hx Hin).
    + apply (Hnew' x Hx), Hset; left; exact Hin.
  - rewrite Hset', Hset, in_app_iff; tauto.
  - rewrite Hset', Hset, in_app_iff; tauto.
Qed.

Lemma fresh_yields_silent requested_oids yielded yielded' events e :
  yields [e] = [] ->
  fresh_yields requested_oids yielded events yielded' ->
  fresh_yields requested_oids yielded (e :: events) yielded'.
Proof.
  intros He H. unfold fresh_yields in *.
  change (e :: events) with ([e] ++ events).
  rewrite yields_app, He; exact H.
Qed.

Lemma yield_group_fresh log_skipped requested_oids var :
  forall yielded events yielded',
    yield_group log_skipped requested_oids var yielded
    = (events, yielded') ->
    fresh_yields requested_oids yielded events yielded' /\
    Forall quiet events.
Proof.
  induction var as [|varbind rest IH]; intros yielded events yielded';
    simpl.
  - intros E; injection E as <- <-.
    split; [apply fresh_yields_nil | constructor].
  - destruct (negb _ || set_mem _ _) eqn:Hguard.
    + destruct (yield_group _ _ rest yielded) as [events0 yielded0] eqn:E0.
      intros E; injection E as <- <-.
      destruct (IH _ _ _ E0) as [Hfresh Hquiet].
      destruct log_skipped; simpl; [|split; assumption].
      split.
      * apply fresh_yields_silent; [reflexivity | exact Hfresh].
      * constructor; [split; reflexivity | exact Hquiet].
    + destruct (yield_group _ _ rest _) as [events0 yielded0] eqn:E0.
      intros E; injection E as <- <-.
      destruct (IH _ _ _ E0) as [(Hc & Hnd & Hnew & Hset) Hquiet].
      apply orb_false_iff in Hguard as [Hany Hmem].
      apply negb_false_iff in Hany.
      assert (Hnotin : ~ In (oid varbind) yielded).
      { intros Hin; apply set_mem_In in Hin; congruence. }
      split; [|constructor; [split; reflexivity | exact Hquiet]].
      unfold fresh_yields, set_add in *; simpl.
      repeat split.
      * constructor; [exact Hany | exact Hc].
      * constructor; [|exact Hnd].
        intros Hin; apply (Hnew _ Hin); left; reflexivity.
      * intros x [<- | Hx]; [exact Hnotin|].
        intros Hin; apply (Hnew _ Hx); right; exact Hin.
      * rewrite Hset; simpl; tauto.
      * rewrite Hset; simpl; tauto.
Qed.

Lemma yield_groups_fresh log_skipped requested_oids vars :
  forall yielded events yielded',
    yield_groups log_skipped requested_oids vars yielded
    = (events, yielded') ->
    fresh_yields requested_oids yielded events yielded' /\
    Forall quiet events.
Proof.
  induction vars as [|var rest IH]; intros yielded events yielded'; simpl.
  - intros E; injection E as <- <-.
    split; [apply fresh_yields_nil | constructor].
  - destruct (yield_group _ _ var yielded) as [events1 yielded1] eqn:E1.
    destruct (yield_groups _ _ rest yielded1) as [events2 yielded2] eqn:E2.
    intros E; injection E as <- <-.
    destruct (yield_group_fresh _ _ _ _ E1) as [Hf1 Hq1].
    destruct (IH _ _ _ E2) as [Hf2 Hq2].
    split.
    + exact (fresh_yields_app Hf1 Hf2).
    + apply Forall_app; split; assumption.
Qed.




Lemma quiet_not_failed (e : @WalkEvent Value) :
  quiet e -> ~ fetch_failed e.
Proof. intros [Hf _] (fetched & exc & ->); discriminate. Qed.

Lemma ends_with_post errors ip fetched e (post : list (@WalkEvent Value))
      outcome :
  ends_with errors ip fetched e post outcome ->
  post = [] \/
  post = [Log (WarningAborted ip fetched FaultySNMPImplementation)].
Proof.
  unfold ends_with; destruct e; try (intros [-> _]; left; reflexivity).
  destruct (String.eqb errors ERRORS_WARN); intros [-> _];
    [right | left]; reflexivity.
Qed.

Section Rounds.
Variables (ip community : string) (port timeout : Z).
Variable fetcher : @Fetcher Value.
Variable errors : string.
Variable total : nat.
Variable requested_oids : list ObjectIdentifier.

Let rounds fuel unfinished_oids yielded w :=
  walk_rounds fuel ip community port timeout fetcher errors total
              requested_oids unfinished_oids yielded w.

Let fetch oids w := fetcher_call fetcher ip community oids port timeout w.

(** The four ways in which the loop goes on from a state: it stops
    without an event, its fetch raises, it makes one more round, or the
    [sorted] of the round raises. *)
Lemma walk_rounds_inv fuel unfinished_oids yielded w events outcome w' :
  rounds fuel unfinished_oids yielded w = (events, outcome, w') ->
  (events = [] /\ w' = w /\
   (outcome = Exhausted /\ unfinished_oids = [] \/
    outcome = StillRunning /\ fuel = 0)) \/
  (exists fuel' e post,
      fuel = S fuel' /\
      fetch (frontier unfinished_oids) w = (Raise e, w') /\
      events = Fetch (frontier unfinished_oids) (Raise e) :: post /\
      ends_with errors ip (frontier unfinished_oids) e post outcome) \/
  (exists fuel' varbinds w1 vars events1 yielded1 events2,
      let grouped_oids :=
        group_varbinds
          varbinds
          (map (fun u => oid (row_value (snd u))) unfinished_oids)
          requested_oids in
      fuel = S fuel' /\
      fetch (frontier unfinished_oids) w = (Return varbinds, w1) /\
      sorted varbinds_lt (dict_values grouped_oids) = Return vars /\
      yield_groups false requested_oids vars yielded
      = (events1, yielded1) /\
      rounds fuel' (get_unfinished_walk_oids grouped_oids) yielded1 w1
      = (events2, outcome, w') /\
      events =
      Fetch (frontier unfinished_oids) (Return varbinds)
        :: Log (DebugContinue
                  (length (get_unfinished_walk_oids grouped_oids)) total)
        :: events1 ++ events2) \/
  (exists fuel' varbinds e,
      let grouped_oids :=
        group_varbinds
          varbinds
          (map (fun u => oid (row_value (snd u))) unfinished_oids)
          requested_oids in
      fuel = S fuel' /\
      fetch (frontier unfinished_oids) w = (Return varbinds, w') /\
      sorted varbinds_lt (dict_values grouped_oids) = Raise e /\
      events =
      [Fetch (frontier unfinished_oids) (Return varbinds);
       Log (DebugContinue
              (length (get_unfinished_walk_oids grouped_oids)) total)] /\
      outcome = Propagated e).
Proof.
  subst rounds fetch; unfold frontier.
  destruct unfinished_oids as [|u us].
  { destruct fuel; simpl; intros E; injection E as <- <- <-;
      left; repeat split; left; split; reflexivity. }
  destruct fuel as [|fuel'].
  { simpl; intros E; injection E as <- <- <-.
    left; repeat split; right; split; reflexivity. }
  cbn [walk_rounds].
  destruct (fetcher_call _ _ _ _ _ _ w) as [[varbinds|e] w1] eqn:Hfetch.
  - destruct (sorted varbinds_lt _) as [vars|e] eqn:Hsort.
    + destruct (yield_groups _ _ _ _) as [events1 yielded1] eqn:Hy.
      destruct (walk_rounds _ _ _ _ _ _ _ _ _ _ _ w1)
        as [[events2 outcome2] w2] eqn:Hr.
      intros E; injection E as <- <- <-.
      right; right; left.
      exists fuel', varbinds, w1, vars, events1, yielded1, events2.
      repeat split; assumption.
    + intros E; injection E as <- <- <-.
      right; right; right.
      exists fuel', varbinds, e.
      repeat split; assumption.
  - destruct e; try destruct (String.eqb errors ERRORS_WARN) eqn:Hw;
      intros E; injection E as <- <- <-;
      right; left; do 3 eexists;
      (split; [reflexivity|]); (split; [reflexivity|]);
      (split; [reflexivity|]); unfold ends_with; try rewrite Hw;
      split; reflexivity.
Qed.


(** A fetch of the loop that raises ends the run as [ends_with] says. *)
Lemma walk_rounds_failed_fetch fuel :
  forall unfinished_oids yielded w events outcome w',
    rounds fuel unfinished_oids yielded w = (events, outcome, w') ->
    forall pre fetched e post,
      events = pre ++ Fetch fetched (Raise e) :: post ->
      ends_with errors ip fetched e post outcome.
Proof.
  induction fuel as [|fuel IH];
    intros unfinished_oids yielded w events outcome w' Hrun
           pre fetched e post Hsplit;
    apply walk_rounds_inv in Hrun
      as [(-> & _) | [(fuel' & e0 & post0 & Hfuel & _ & -> & Hend)
                     | [(fuel' & varbinds & w1 & vars & events1 & yielded1
                         & events2 & Hfuel & _ & _ & Hy & Hr & ->)
                       | (fuel' & varbinds & e1 & Hfuel & _ & _ & -> & _)]]];
    try discriminate;
    try (destruct pre; discriminate).
  - destruct pre as [|x pre]; simpl in Hsplit.
    + injection Hsplit as <- <- <-; exact Hend.
    + injection Hsplit as _ Hpost.
      apply ends_with_post in Hend as [-> | ->];
        destruct pre as [|? [|? ?]]; discriminate.
  - injection Hfuel as <-.
    destruct (yield_groups_fresh _ _ _ _ Hy) as [_ Hquiet].
    symmetry in Hsplit.
    change (?a :: ?b :: events1 ++ events2)
      with ((a :: b :: events1) ++ events2) in Hsplit.
    apply (app_cons_in_back (@fetch_failed Value)) in Hsplit
      as (pre' & _ & Hback).
    + exact (IH _ _ _ _ _ _ Hr _ _ _ _ Hback).
    + constructor; [intros (? & ? & ?); discriminate|].
      constructor; [intros (? & ? & ?); discriminate|].
      eapply Forall_impl; [|exact Hquiet].
      intros a; apply quiet_not_failed.
    + exists fetched, e; reflexivity.
  - destruct pre as [|x [|y [|z pre]]]; discriminate Hsplit.
Qed.


(** Outside the warn mode the loop logs no warning. *)
Lemma walk_rounds_no_warning fuel :
  String.eqb errors ERRORS_WARN = false ->
  forall unfinished_oids yielded w events outcome w',
    rounds fuel unfinished_oids yielded w = (events, outcome, w') ->
    Forall (fun e => is_warning e = false) events.
Proof.
  intros Hstrict.
  induction fuel as [|fuel IH];
    intros unfinished_oids yielded w events outcome w' Hrun;
    apply walk_rounds_inv in Hrun
      as [(-> & _) | [(fuel' & e0 & post0 & Hfuel & _ & -> & Hend)
                     | [(fuel' & varbinds & w1 & vars & events1 & yielded1
                         & events2 & Hfuel & _ & _ & Hy & Hr & ->)
                       | (fuel' & varbinds & e1 & Hfuel & _ & _ & -> & _)]]];
    try discriminate; try constructor; try reflexivity.
  - unfold ends_with in Hend; rewrite Hstrict in Hend.
    destruct e0; destruct Hend as [-> _]; constructor.
  - injection Hfuel as <-.
    constructor; [reflexivity|].
    apply Forall_app; split; [|exact (IH _ _ _ _ _ _ Hr)].
    destruct (yield_groups_fresh _ _ _ _ Hy) as [_ Hquiet].
    eapply Forall_impl; [|exact Hquiet].
    intros a [_ Ha]; exact Ha.
  - repeat constructor.
Qed.

(** A relation between worlds that every call of the fetcher
    establishes, and that is reflexive and transitive, holds between
    the worlds before and after the loop. *)
Lemma walk_rounds_world (R : @World Value -> @World Value -> Prop) :
  (forall w, R w w) ->
  (forall w1 w2 w3, R w1 w2 -> R w2 w3 -> R w1 w3) ->
  (forall oids w r w1, fetch oids w = (r, w1) -> R w w1) ->
  forall fuel unfinished_oids yielded w events outcome w',
    rounds fuel unfinished_oids yielded w = (events, outcome, w') ->
    R w w'.
Proof.
  intros Hrefl Htrans Hfetch.
  induction fuel as [|fuel IH];
    intros unfinished_oids yielded w events outcome w' Hrun;
    apply walk_rounds_inv in Hrun
      as [(_ & -> & _) | [(fuel' & e0 & post0 & Hfuel & Hf & _)
                         | [(fuel' & varbinds & w1 & vars & events1
                             & yielded1 & events2 & Hfuel & Hf & _ & Hy
                             & Hr & _)
                           | (fuel' & varbinds & e1 & Hfuel & Hf & _)]]];
    try discriminate; try apply Hrefl.
  - exact (Hfetch _ _ _ _ Hf).
  - injection Hfuel as <-.
    exact (Htrans _ _ _ (Hfetch _ _ _ _ Hf) (IH _ _ _ _ _ _ Hr)).
  - exact (Hfetch _ _ _ _ Hf).
Qed.

End Rounds.

(** The three ways in which a walk starts: its first fetch raises, it
    yields what the first fetch brought and enters the loop, or the
    [sorted] before the first yield raises. *)
Lemma multiwalk_inv fuel ip community oids port timeout
      (fetcher : @Fetcher Value) errors w events outcome w' :
  multiwalk fuel ip community oids port timeout fetcher errors w
  = (events, outcome, w') ->
  let walking := Log (DebugWalking (length oids) (fetcher_name fetcher)) in
  (exists e,
      fetcher_call fetcher ip community oids port timeout w
      = (Raise e, w') /\
      events = [walking; Fetch oids (Raise e)] /\
      outcome = Propagated e) \/
  (exists varbinds w1 vars events1 yielded1 events2,
      let grouped_oids := group_varbinds varbinds (map OID oids) [] in
      fetcher_call fetcher ip community oids port timeout w
      = (Return varbinds, w1) /\
      sorted varbinds_lt (dict_values grouped_oids) = Return vars /\
      yield_groups true (map OID oids) vars [] = (events1, yielded1) /\
      walk_rounds fuel ip community port timeout fetcher errors
                  (length oids) (map OID oids)
                  (get_unfinished_walk_oids grouped_oids) yielded1 w1
      = (events2, outcome, w') /\
      events =
      walking
        :: Fetch oids (Return varbinds)
        :: Log (DebugContinue
                  (length (get_unfinished_walk_oids grouped_oids))
                  (length oids))
        :: events1 ++ events2) \/
  (exists varbinds e,
      let grouped_oids := group_varbinds varbinds (map OID oids) [] in
      fetcher_call fetcher ip community oids port timeout w
      = (Return varbinds, w') /\
      sorted varbinds_lt (dict_values grouped_oids) = Raise e /\
      events =
      [walking;
       Fetch oids (Return varbinds);
       Log (DebugContinue
              (length (get_unfinished_walk_oids grouped_oids))
              (length oids))] /\
      outcome = Propagated e).
Proof.
  unfold multiwalk.
  destruct (fetcher_call _ _ _ _ _ _ w) as [[varbinds|e] w1] eqn:Hfetch.
  - destruct (sorted varbinds_lt _) as [vars|e] eqn:Hsort.
    + destruct (yield_groups _ _ _ _) as [events1 yielded1] eqn:Hy.
      destruct (walk_rounds _ _ _ _ _ _ _ _ _ _ _ w1)
        as [[events2 outcome2] w2] eqn:Hr.
      intros E; injection E as <- <- <-.
      right; left. exists varbinds, w1, vars, events1, yielded1, events2.
      repeat split; assumption.
    + intros E; injection E as <- <- <-.
      right; right. exists varbinds, e.
      repeat split; assumption.
  - intros E; injection E as <- <- <-.
    left; exists e; repeat split.
Qed.


(** C2 (as amended).  In a multiwalk run with errors=warn, when a fetch
    other than the first raises FaultySNMPImplementation, the walk logs
    one warning and ends at once for every base: the warning is the last
    event of the run, so that no further fetch is made and no further
    varbind is yielded, whatever bases were still unfinished. *)
Theorem warn_mode_aborts_whole_walk :
  forall fuel ip community oids port timeout (fetcher : @Fetcher Value) w
         pre fetched post,
    let run :=
      multiwalk fuel ip community oids port timeout fetcher ERRORS_WARN w in
    run_events run
    = pre ++ Fetch fetched (Raise FaultySNMPImplementation) :: post ->
    Exists (fun e => is_fetch e = true) pre ->
    post = [Log (WarningAborted ip fetched FaultySNMPImplementation)] /\
    run_outcome run = Exhausted.
Proof.
  intros fuel ip community oids port timeout fetcher w pre fetched post run.
  destruct run as [[events outcome] w'] eqn:Hrun; subst run.
  unfold run_events, run_outcome; simpl.
  intros Hsplit Hpre.
  apply multiwalk_inv in Hrun
    as [(e & _ & -> & ->)
       | [(varbinds & w1 & vars & events1 & yielded1 & events2
           & _ & _ & Hy & Hr & ->)
         | (varbinds & e & _ & _ & -> & _)]].
  - exfalso.
    destruct pre as [|x [|y pre]]; simpl in Hsplit; try discriminate.
    + injection Hsplit as <- _ _.
      inversion Hpre as [? ? Hx | ? ? Hx]; [discriminate Hx | inversion Hx].
    + injection Hsplit as _ _ Hrest; destruct pre; discriminate.
  - destruct (yield_groups_fresh _ _ _ _ Hy) as [_ Hquiet].
    symmetry in Hsplit.
    change (?a :: ?b :: ?c :: events1 ++ events2)
      with ((a :: b :: c :: events1) ++ events2) in Hsplit.
    apply (app_cons_in_back (@fetch_failed Value)) in Hsplit
      as (pre' & _ & Hback).
    + exact (walk_rounds_failed_fetch _ _ _ _ _ _ _ _ _ _ _ _ Hr
                                      _ _ _ _ Hback).
    + do 3 (constructor; [intros (? & ? & ?); discriminate|]).
      eapply Forall_impl; [|exact Hquiet].
      intros a; apply quiet_not_failed.
    + exists fetched, FaultySNMPImplementation; reflexivity.
  - destruct pre as [|x [|y [|z [|z' pre]]]]; discriminate Hsplit.
Qed.

Lemma reyield_id (events : list (@WalkEvent Value)) :
  map reyield events = events.
Proof.
  induction events as [|e events IH]; simpl; [reflexivity|].
  rewrite IH; destruct e as [| |[o v]]; reflexivity.
Qed.

Lemma sends_with_timeout_refl t w : sends_with_timeout t w w.
Proof. exists []; split; [symmetry; apply app_nil_r | constructor]. Qed.

Lemma sends_with_timeout_trans t w1 w2 w3 :
  sends_with_timeout t w1 w2 -> sends_with_timeout t w2 w3 ->
  sends_with_timeout t w1 w3.
Proof.
  intros (new1 & E1 & H1) (new2 & E2 & H2).
  exists (new1 ++ new2); split.
  - rewrite E2, E1, app_assoc; reflexivity.
  - apply Forall_app; split; assumption.
Qed.

(** The bulk fetcher hands the timeout it is given to the transport. *)
Lemma bulkwalk_fetcher_timeout bulk_size ip community oids port timeout
      w r w1 :
  fetcher_call (_bulkwalk_fetcher bulk_size) ip community oids port
               timeout w = (r, w1) ->
  sends_with_timeout timeout w w1.
Proof.
  unfold _bulkwalk_fetcher; simpl; unfold bind.
  rewrite bulkget_exchange.
  set (call := exchange_call _ _ _ _ _ _).
  assert (Hafter : sends_with_timeout timeout w (after_exchange w call)).
  { exists [call]; split; [reflexivity | repeat constructor]. }
  destruct (answer_to _ _ _ _ _ _) as [|[e|m]]; simpl;
    try destruct (_ >? _)%Z; simpl;
    intros E; injection E as _ <-; exact Hafter.
Qed.

(** C10.  bulkwalk has no timeout and no errors parameter: for a list of
    OIDs it is the multiwalk with the bulk fetcher, the default timeout of
    2 seconds and the strict error mode.  Hence every datagram of a
    bulkwalk is sent with the timeout 2, no warning is ever logged (the
    warn mode cannot be reached), and every FaultySNMPImplementation
    raised by a fetch ends the run and propagates to the caller. *)
Theorem bulkwalk_is_strict_with_default_timeout :
  forall fuel ip community oids bulk_size port w,
    let run := bulkwalk fuel ip community (PyList oids) bulk_size port w in
    run = multiwalk fuel ip community oids port 2
                    (_bulkwalk_fetcher bulk_size) ERRORS_STRICT w /\
    sends_with_timeout 2 w (run_world run) /\
    Forall (fun e => is_warning e = false) (run_events run) /\
    (forall pre fetched post,
        run_events run
        = pre ++ Fetch fetched (Raise FaultySNMPImplementation) :: post ->
        post = [] /\
        run_outcome run = Propagated FaultySNMPImplementation).
Proof.
  intros fuel ip community oids bulk_size port w run.
  assert (Hrun : run = multiwalk fuel ip community oids port 2
                                 (_bulkwalk_fetcher bulk_size)
                                 ERRORS_STRICT w).
  { subst run; unfold bulkwalk, default_timeout.
    rewrite reyield_id.
    destruct (multiwalk _ _ _ _ _ _ _ _ _) as [[events outcome] w'].
    reflexivity. }
  split; [exact Hrun|].
  clearbody run.
  destruct run as [[events outcome] w'] eqn:E; subst run.
  unfold run_events, run_outcome, run_world; simpl.
  symmetry in Hrun.
  apply multiwalk_inv in Hrun
    as [(e & Hfetch & -> & ->)
       | [(varbinds & w1 & vars & events1 & yielded1 & events2
           & Hfetch & _ & Hy & Hr & ->)
         | (varbinds & e & Hfetch & _ & -> & _)]].
  - split; [exact (bulkwalk_fetcher_timeout _ _ _ _ _ _ _ Hfetch)|].
    split; [repeat constructor|].
    intros pre fetched post Hsplit.
    destruct pre as [|x [|y pre]]; simpl in Hsplit; try discriminate.
    + injection Hsplit as _ _ <- <-; split; reflexivity.
    + injection Hsplit as _ _ Hrest; destruct pre; discriminate.
  - destruct (yield_groups_fresh _ _ _ _ Hy) as [_ Hquiet].
    split; [|split].
    + eapply sends_with_timeout_trans;
        [exact (bulkwalk_fetcher_timeout _ _ _ _ _ _ _ Hfetch)|].
      eapply walk_rounds_world with (R := sends_with_timeout 2);
        [| | |exact Hr].
      * apply sends_with_timeout_refl.
      * apply sends_with_timeout_trans.
      * intros fetched w0 r w2; apply bulkwalk_fetcher_timeout.
    + do 3 (constructor; [reflexivity|]).
      apply Forall_app; split.
      * eapply Forall_impl; [|exact Hquiet]. intros a [_ Ha]; exact Ha.
      * eapply walk_rounds_no_warning; [|exact Hr]. reflexivity.
    + intros pre fetched post Hsplit.
      symmetry in Hsplit.
      change (?a :: ?b :: ?c :: events1 ++ events2)
        with ((a :: b :: c :: events1) ++ events2) in Hsplit.
      apply (app_cons_in_back (@fetch_failed Value)) in Hsplit
        as (pre' & _ & Hback).
      * exact (walk_rounds_failed_fetch _ _ _ _ _ _ _ _ _ _ _ _ Hr
                                        _ _ _ _ Hback).
      * do 3 (constructor; [intros (? & ? & ?); discriminate|]).
        eapply Forall_impl; [|exact Hquiet].
        intros a; apply quiet_not_failed.
      * exists fetched, FaultySNMPImplementation; reflexivity.
  - split; [exact (bulkwalk_fetcher_timeout _ _ _ _ _ _ _ Hfetch)|].
    split; [repeat constructor|].
    intros pre fetched post Hsplit.
    destruct pre as [|x [|y [|z [|z' pre]]]]; discriminate Hsplit.
Qed.


End WalkFacts.

(** ** The scenarios *)

Local Open Scope Z_scope.

(** C1, counterexample.  The request of the multiget carries the request_id
    1, the response of the agent the request_id 234, and the value of the
    response is returned all the same. *)
Lemma multiget_accepts_foreign_request_id : ~ multiget_enforces_I4.
Proof.
  intros H.
  refine (H (world_of echo_agent) "::1"%string "private"%string
            [Dotted [1; 2; 3]%N] 161 2
            (mkMessage 1 "public" (mkGetResponse 234 [mkVarBind [1; 2; 3]%N 30]))
            eq_refl _ [30] eq_refl).
  vm_compute; discriminate.
Qed.

(** C4, counterexample.  One repeating OID with max_list_size 1 allows one
    varbind; on a response with two varbinds bulkget raises SnmpError, not
    FaultySNMPImplementation. *)
Lemma bulkget_overflow_raises_SnmpError : ~ bulkget_overflow_raises_faulty.
Proof.
  intros H.
  specialize (H (world_of two_varbinds_agent) "::1"%string "private"%string
                [] [Dotted [1; 2]%N] 1 161 2
                (mkMessage 1 "public"
                   (mkGetResponse 234 [mkVarBind [1; 2; 3]%N 30;
                                       mkVarBind [1; 2; 4]%N 40]))
                eq_refl).
  assert (Hover : Z.of_nat 2 > bulk_bound 0 1 1) by (vm_compute; reflexivity).
  specialize (H Hover). vm_compute in H. discriminate H.
Qed.

(** C5, counterexample.  The response to a multigetnext of the one OID 1.2.3
    carries two varbinds, the first for 1.2.3 itself, which is not a strict
    successor: the count is checked first, and the operation raises
    SnmpError, not FaultySNMPImplementation. *)
Lemma multigetnext_checks_the_count_first :
  ~ multigetnext_non_successor_raises_faulty.
Proof.
  intros H.
  specialize (H (world_of two_varbinds_agent) "::1"%string "private"%string
                [Dotted [1; 2; 3]%N] 161 2
                (mkMessage 1 "public"
                   (mkGetResponse 234 [mkVarBind [1; 2; 3]%N 30;
                                       mkVarBind [1; 2; 4]%N 40]))
                eq_refl).
  assert (Hex : Exists
                  (fun p : OidStr * @VarBind Z =>
                     oid_ltb (OID (fst p)) (oid (snd p)) = false)
                  (combine [Dotted [1; 2; 3]%N]
                           [mkVarBind [1; 2; 3]%N 30;
                            mkVarBind [1; 2; 4]%N 40]))
    by (left; reflexivity).
  specialize (H Hex). vm_compute in H. discriminate H.
Qed.

(** C6, counterexample.  The response to a multigetnext of the one OID 1.2.3
    carries one varbind, for 1.2.3 itself: the count matches and the
    operation raises FaultySNMPImplementation instead of returning one
    result. *)
Lemma multigetnext_matching_count_may_raise :
  ~ multigetnext_matching_count_returns.
Proof.
  intros H.
  destruct (H (world_of echo_agent) "::1"%string "private"%string
              [Dotted [1; 2; 3]%N] 161 2
              (mkMessage 1 "public"
                 (mkGetResponse 234 [mkVarBind [1; 2; 3]%N 30]))
              eq_refl eq_refl) as [output [Hret _]].
  vm_compute in Hret. discriminate Hret.
Qed.

(** C2, counterexample.  A walk of the bases 1.2 and 1.3 in warn mode.  The
    second reply of the agent repeats 1.2.1 for the first base and brings
    1.3.2, a proper successor inside its base, for the second.  The fetch
    raises, and the walk stops for both bases: 1.3.2 is not yielded and no
    third request is made, although the base 1.3 was unfinished. *)
Lemma warn_mode_stops_the_other_bases :
  let run :=
    multiwalk 10 "::1" "private" [Dotted [1; 2]%N; Dotted [1; 3]%N] 161 2
              multigetnext_fetcher ERRORS_WARN
              (world_of stuck_on_first_base_agent) in
  stuck_on_first_base_agent (sent (run_world run))
  = response 234 [mkVarBind [1; 2; 1]%N 1; mkVarBind [1; 3; 2]%N 2] /\
  oid_ltb [1; 3; 1]%N [1; 3; 2]%N = true /\
  oid_in [1; 3; 2]%N [1; 3]%N = true /\
  yields (run_events run)
  = [mkVarBind [1; 2; 1]%N 1; mkVarBind [1; 3; 1]%N 2] /\
  ~ In (mkVarBind [1; 3; 2]%N 2) (yields (run_events run)) /\
  length (sent (run_world run)) = 2%nat /\
  run_outcome run = Exhausted.
Proof.
  vm_compute.
  repeat split; try reflexivity.
  intros [E | [E | []]]; discriminate E.
Qed.

(** C3, the failing input.  The agent answers the first request of a walk
    with the end of the tree: NoSuchOID leaves the generator, from walk and
    from bulkwalk, in both error modes, instead of an empty stream. *)
Theorem first_fetch_NoSuchOID_propagates :
  forall fuel errors,
    let w := world_of end_of_tree_agent in
    let run := walk fuel "::1" "private" (Dotted [1; 2]%N) 161 2 errors w in
    let bulk_run :=
      bulkwalk fuel "::1" "private" (PyList [Dotted [1; 2]%N]) 10 161 w in
    run_events run
    = [Log (DebugWalking 1 name_multigetnext);
       Fetch [Dotted [1; 2]%N] (Raise NoSuchOID)] /\
    run_outcome run = Propagated NoSuchOID /\
    run_outcome bulk_run = Propagated NoSuchOID.
Proof.
  intros fuel errors; repeat split.
Qed.

(** C8.  A walk of the one base 1.2 in warn mode against an agent that
    answers 1.2.3, 1.2.4, 1.2.5 and then 1.2.5 for ever: once three rounds
    of the loop are allowed, and however many more, the walk terminates, it
    has yielded exactly the three varbinds, it has made four fetches (four
    datagrams sent) and logged one warning. *)
Theorem endless_loop_walk_terminates :
  forall extra,
    let run :=
      walk (3 + extra) "::1" "private" (Dotted [1; 2]%N) 161 2 ERRORS_WARN
           (world_of endless_loop_agent) in
    run_outcome run = Exhausted /\
    yields (run_events run)
    = [mkVarBind [1; 2; 3]%N 123;
       mkVarBind [1; 2; 4]%N 124;
       mkVarBind [1; 2; 5]%N 125] /\
    length (filter is_fetch (run_events run)) = 4%nat /\
    length (sent (run_world run)) = 4%nat /\
    length (filter is_warning (run_events run)) = 1%nat.
Proof.
  intros extra; repeat split.
Qed.

(** ** The test suite on the model *)

(** [test_get_multiple_return_binds]. *)
Example test_get_multiple_return_binds :
  fst (get "::1" "private" (Dotted [1; 2; 3]%N) 161 2
           (world_of two_varbinds_agent))
  = Raise SnmpError.
Proof. reflexivity. Qed.

(** [test_getnext_increasing_oid_strict]. *)
Example test_getnext_increasing_oid_strict :
  fst (getnext "::1" "private" (Dotted [1; 2; 3]%N) 161 2 (world_of echo_agent))
  = Raise FaultySNMPImplementation.
Proof. reflexivity. Qed.

(** [test_walk_increasing_oid_lenient]. *)
Example test_walk_increasing_oid_lenient :
  let run :=
    walk 10 "::1" "private" (Dotted [1; 2]%N) 161 2 ERRORS_WARN
         (world_of decreasing_agent) in
  yields (run_events run)
  = [mkVarBind [1; 2; 3]%N 123;
     mkVarBind [1; 2; 4]%N 124;
     mkVarBind [1; 2; 5]%N 125] /\
  filter is_warning (run_events run)
  = [Log (WarningAborted "::1" [Dotted [1; 2; 5]%N]
                         FaultySNMPImplementation)] /\
  run_outcome run = Exhausted.
Proof. repeat split. Qed.

(** [test_multiwalk_non_containment], first case. *)
Example test_multiwalk_non_containment :
  run_outcome
    (multiwalk 10 "::1" "public" [Dotted [1; 2; 3]%N; Dotted [2; 3; 4]%N] 161 2
               multigetnext_fetcher ERRORS_STRICT (world_of same_oids_agent))
  = Propagated FaultySNMPImplementation.
Proof. reflexivity. Qed.

(** The order of [test_multi_walk]: round by round, and in each round base
    by base.  The third round brings 1.2.1 again, which lies in a requested
    base and was yielded before, and 1.3.1, which lies in none: both are
    skipped and both bases are finished. *)
Example two_columns_walk :
  let run :=
    multiwalk 10 "::1" "public" [Dotted [1; 1]%N; Dotted [1; 2]%N] 161 2
              multigetnext_fetcher ERRORS_STRICT
              (world_of two_columns_agent) in
  yields (run_events run)
  = [mkVarBind [1; 1; 1]%N 1; mkVarBind [1; 2; 1]%N 10;
     mkVarBind [1; 1; 78]%N 78; mkVarBind [1; 2; 78]%N 20] /\
  length (sent (run_world run)) = 3%nat /\
  run_outcome run = Exhausted.
Proof. repeat split. Qed.

(** A bulk walk stops at the round whose tail leaves the tree. *)
Example bulkwalk_out_of_tree_tail :
  let run :=
    bulkwalk 10 "::1" "public" (PyList [Dotted [1; 2]%N]) 2 161
             (world_of bulk_agent) in
  yields (run_events run)
  = [mkVarBind [1; 2; 1]%N 1; mkVarBind [1; 2; 2]%N 2;
     mkVarBind [1; 2; 3]%N 3] /\
  length (sent (run_world run)) = 2%nat /\
  run_outcome run = Exhausted.
Proof. repeat split. Qed.

(** Two groups that start with the same OID and with different values
    cannot be compared: the sorted of the first round raises TypeError in
    either error mode, after the one fetch and before any yield. *)
Example groups_that_cannot_be_sorted :
  forall errors,
    let run :=
      multiwalk 10 "::1" "public" [Dotted [1; 1]%N; Dotted [1; 2]%N] 161 2
                multigetnext_fetcher errors
                (world_of same_oid_twice_agent) in
    run_events run
    = [Log (DebugWalking 2 name_multigetnext);
       Fetch [Dotted [1; 1]%N; Dotted [1; 2]%N]
             (Return [mkVarBind [1; 2; 1]%N 1; mkVarBind [1; 2; 1]%N 2]);
       Log (DebugContinue 1 2)] /\
    run_outcome run = Propagated TypeError /\
    length (sent (run_world run)) = 1%nat.
Proof. intros errors; repeat split. Qed.

(** The canonical string of an OID has its dotted-decimal text. *)
Example canonical_string :
  text (unicode [1; 3; 6; 1; 2; 1]%N) = "1.3.6.1.2.1"%string /\
  Spelled "1.3.6.1.2.1" [1; 3; 6; 1; 2; 1]%N
  = unicode [1; 3; 6; 1; 2; 1]%N /\
  Spelled ".1.3.6.1.2.1" [1; 3; 6; 1; 2; 1]%N
  <> unicode [1; 3; 6; 1; 2; 1]%N.
Proof. repeat split; discriminate. Qed.

(** A set of 1.2.3 spelled with a leading dot: the agent reports the
    requested OID, and the lookup of the result by the string raises
    KeyError.  With the canonical string the lookup finds the value. *)
Example set_with_a_leading_dot :
  fst (set "::1" "private" (Spelled ".1.2.3" [1; 2; 3]%N) (Typed 99) 161 2
           (world_of echo_agent))
  = Raise KeyError /\
  fst (set "::1" "private" (Spelled "1.2.3" [1; 2; 3]%N) (Typed 99) 161 2
           (world_of echo_agent))
  = Return 30 /\
  fst (set "::1" "private" (Dotted [1; 2; 3]%N) (Typed 99) 161 2
           (world_of echo_agent))
  = Return 30.
Proof. repeat split. Qed.

(** [test_get_call_args_issue_22]: a string where a list is expected. *)
Example test_bulkwalk_oids_not_a_list :
  run_outcome
    (bulkwalk 10 "::1" "public" (PyStr (Dotted [1; 2; 3]%N)) 2 161
              (world_of bulk_agent))
  = Propagated TypeError.
Proof. reflexivity. Qed.

(** ** Instances of the conditional facts *)

(** C9 on a request for 1.2.9 that is answered with a varbind for 1.2.3. *)
Lemma multiget_returns_response_values_witness :
  fst (multiget "::1" "private" [Dotted [1; 2; 9]%N] 161 2
                (world_of echo_agent))
  = Return [30].
Proof.
  exact (proj1 (@multiget_returns_response_values
                  Z (world_of echo_agent) "::1" "private"
                  [Dotted [1; 2; 9]%N] 161 2
                  (mkMessage 1 "public"
                     (mkGetResponse 234 [mkVarBind [1; 2; 3]%N 30]))
                  eq_refl eq_refl)).
Defined.

(** C5 on a request for 1.2.3 that is answered with 1.2.3 itself. *)
Lemma multigetnext_returns_successors_only_witness :
  fst (multigetnext "::1" "private" [Dotted [1; 2; 3]%N] 161 2
                    (world_of echo_agent))
  = Raise FaultySNMPImplementation.
Proof.
  apply (proj2 (proj1 multigetnext_returns_successors_only
                      (world_of echo_agent) "::1"%string "private"%string
                      [Dotted [1; 2; 3]%N] 161 2
                      (mkMessage 1 "public"
                         (mkGetResponse 234 [mkVarBind [1; 2; 3]%N 30]))
                      eq_refl eq_refl)).
  left; reflexivity.
Defined.

(** C6 on a request for one OID that is answered with two varbinds. *)
Lemma cardinality_of_responses_witness :
  fst (multiget "::1" "private" [Dotted [1; 2; 9]%N] 161 2
                (world_of two_varbinds_agent))
  = Raise SnmpError.
Proof.
  apply (proj1 (proj1 cardinality_of_responses
                      (world_of two_varbinds_agent) "::1"%string
                      "private"%string [Dotted [1; 2; 9]%N] 161 2
                      (mkMessage 1 "public"
                         (mkGetResponse 234 [mkVarBind [1; 2; 3]%N 30;
                                             mkVarBind [1; 2; 4]%N 40]))
                      eq_refl)).
  simpl; lia.
Defined.

(** C4 on one repeating OID, max_list_size 1 and a response of two
    varbinds. *)
Lemma bulkget_cardinality_witness :
  fst (bulkget "::1" "private" [] [Dotted [1; 2]%N] 1 161 2
               (world_of two_varbinds_agent))
  = Raise SnmpError.
Proof.
  apply (proj1 (@bulkget_cardinality
                  Z (world_of two_varbinds_agent) "::1" "private"
                  [] [Dotted [1; 2]%N] 1 161 2
                  (mkMessage 1 "public"
                     (mkGetResponse 234 [mkVarBind [1; 2; 3]%N 30;
                                         mkVarBind [1; 2; 4]%N 40]))
                  eq_refl)).
  vm_compute; reflexivity.
Defined.


(** C2 on the walk of the bases 1.2 and 1.3 whose second fetch raises: the
    five events before the fetch, the fetch, the warning, and nothing
    more. *)
Lemma warn_mode_aborts_whole_walk_witness :
  let run :=
    multiwalk 10 "::1" "private" [Dotted [1; 2]%N; Dotted [1; 3]%N] 161 2
              multigetnext_fetcher ERRORS_WARN
              (world_of stuck_on_first_base_agent) in
  skipn 6 (run_events run)
  = [Log (WarningAborted "::1" [Dotted [1; 2; 1]%N; Dotted [1; 3; 1]%N]
                         FaultySNMPImplementation)] /\
  run_outcome run = Exhausted.
Proof.
  apply (@warn_mode_aborts_whole_walk
           Z Integer_ops 10 "::1" "private"
           [Dotted [1; 2]%N; Dotted [1; 3]%N] 161 2
           multigetnext_fetcher (world_of stuck_on_first_base_agent)
           [Log (DebugWalking 2 name_multigetnext);
            Fetch [Dotted [1; 2]%N; Dotted [1; 3]%N]
                  (Return [mkVarBind [1; 2; 1]%N 1; mkVarBind [1; 3; 1]%N 2]);
            Log (DebugContinue 2 2);
            Yield (mkVarBind [1; 2; 1]%N 1);
            Yield (mkVarBind [1; 3; 1]%N 2)]
           [Dotted [1; 2; 1]%N; Dotted [1; 3; 1]%N]
           [Log (WarningAborted "::1" [Dotted [1; 2; 1]%N; Dotted [1; 3; 1]%N]
                                FaultySNMPImplementation)]).
  - reflexivity.
  - right; left; reflexivity.
Defined.

(** * The rest of the module *)

(** ** Lookups in the dicts of the results *)

Lemma find_app_first (A : Type) (f : A -> bool) (l1 l2 : list A) :
  find f (l1 ++ l2)
  = match find f l1 with
    | Some x => Some x
    | None => find f l2
    end.
Proof.
  induction l1 as [|x l1 IH]; simpl; [reflexivity|].
  destruct (f x); [reflexivity | exact IH].
Qed.

Section MoreDictFacts.
Context {K : Type} {key : PyKey K} {laws : PyKeyLaws K}.
Variable V : Type.

Lemma dict_get_set (d : dict K V) k v q :
  dict_get (dict_set d k v) q
  = if key_eqb k q then Some v else dict_get d q.
Proof.
  induction d as [|[k' v'] d IH]; simpl; [reflexivity|].
  destruct (key_eqb k' k) eqn:Ek; simpl.
  - apply key_eqb_eq in Ek; subst k'.
    destruct (key_eqb k q); reflexivity.
  - rewrite IH.
    destruct (key_eqb k' q) eqn:Eq; [|reflexivity].
    destruct (key_eqb k q) eqn:Ekq; [|reflexivity].
    apply key_eqb_eq in Eq; apply key_eqb_eq in Ekq; subst.
    rewrite key_eqb_refl in Ek; discriminate.
Qed.

(** A lookup in a dict filled from pairs finds the last pair for the key. *)
Lemma dict_get_fill (pairs : list (K * V)) :
  forall (d : dict K V) q,
    dict_get (fold_left (fun d kv => dict_set d (fst kv) (snd kv)) pairs d) q
    = match find (fun p => key_eqb (fst p) q) (rev pairs) with
      | Some p => Some (snd p)
      | None => dict_get d q
      end.
Proof.
  induction pairs as [|[k v] pairs IH]; intros d q; simpl; [reflexivity|].
  rewrite IH, find_app_first.
  destruct (find _ (rev pairs)); [reflexivity|].
  simpl; rewrite dict_get_set.
  destruct (key_eqb k q); reflexivity.
Qed.

Lemma dict_set_absent (d : dict K V) k v :
  ~ In k (map fst d) -> dict_set d k v = d ++ [(k, v)].
Proof.
  induction d as [|[k' v'] d IH]; simpl; [reflexivity|].
  intros Hnin. destruct (key_eqb k' k) eqn:E.
  - apply key_eqb_eq in E; subst; tauto.
  - rewrite IH by tauto; reflexivity.
Qed.

(** Pairs with distinct keys fill a dict with themselves, in their order. *)
Lemma dict_fill_distinct (pairs : list (K * V)) :
  forall d : dict K V,
    NoDup (map fst d ++ map fst pairs) ->
    fold_left (fun d kv => dict_set d (fst kv) (snd kv)) pairs d
    = d ++ pairs.
Proof.
  induction pairs as [|[k v] pairs IH]; intros d Hnd; simpl.
  - symmetry; apply app_nil_r.
  - simpl in Hnd.
    assert (Hk : ~ In k (map fst d)).
    { apply NoDup_remove_2 in Hnd. intros Hin; apply Hnd.
      apply in_or_app; left; exact Hin. }
    rewrite dict_set_absent by exact Hk.
    rewrite IH.
    + rewrite <- app_assoc; reflexivity.
    + rewrite map_app; simpl; rewrite <- app_assoc; exact Hnd.
Qed.

Lemma dict_of_pairs_distinct (pairs : list (K * V)) :
  NoDup (map fst pairs) -> dict_of_pairs pairs = pairs.
Proof.
  intros Hnd; unfold dict_of_pairs.
  rewrite dict_fill_distinct; [reflexivity | exact Hnd].
Qed.

Lemma dict_of_pairs_keys_distinct (pairs : list (K * V)) :
  NoDup (map fst (dict_of_pairs pairs)).
Proof.
  exact (proj1 (dict_fill_keys pairs (@nil (K * V)) (NoDup_nil _))).
Qed.

(** An item of a dict is what a lookup of its key finds. *)
Lemma dict_get_item (d : dict K V) k v :
  NoDup (map fst d) -> In (k, v) d -> dict_get d k = Some v.
Proof.
  induction d as [|[k' v'] d IH]; simpl; [contradiction|].
  intros Hnd Hin; inversion Hnd as [|? ? Hk' Hnd']; subst.
  destruct Hin as [E | Hin].
  - injection E as -> ->; rewrite key_eqb_refl; reflexivity.
  - destruct (key_eqb k' k) eqn:Ek.
    + apply key_eqb_eq in Ek; subst k'.
      exfalso; apply Hk'. apply in_map_iff.
      exists (k, v); split; [reflexivity | exact Hin].
    + exact (IH Hnd' Hin).
Qed.

(** The keys of a dict built from pairs are keys of the pairs. *)
Lemma dict_of_pairs_keys (pairs : list (K * V)) k :
  In k (map fst (dict_of_pairs pairs)) -> In k (map fst pairs).
Proof.
  intros Hin.
  apply (proj2 (dict_fill_keys pairs (@nil (K * V)) (NoDup_nil _))) in Hin.
  destruct Hin as [[] | Hin]; exact Hin.
Qed.

Lemma dict_len_at_most (pairs : list (K * V)) :
  (dict_len (dict_of_pairs pairs) <= length pairs)%nat.
Proof.
  rewrite (dict_len_of_pairs key_eq_dec).
  rewrite <- (length_map fst pairs).
  apply NoDup_incl_length; [apply NoDup_nodup|].
  intros x Hx; apply nodup_In in Hx; exact Hx.
Qed.

End MoreDictFacts.

(** ** The operations, one by one *)

Section MoreOperationFacts.
Context {Value : Type}.

Implicit Types (w : @World Value) (m : @Message Value).

Lemma bind_world {A B : Type} (op : @M Value A) (k : A -> @M Value B) w :
  (forall a w', snd (k a w') = w') ->
  snd (bind op k w) = snd (op w).
Proof.
  intros Hk; unfold bind.
  destruct (op w) as [[a|e] w']; simpl; [apply Hk | reflexivity].
Qed.

Lemma untyped_any (mappings : list (OidStr * @PyObject Value)) :
  Exists (fun kv => isinstance_Type (snd kv) = false) mappings ->
  any (map (fun kv => negb (isinstance_Type (snd kv))) mappings) = true.
Proof.
  unfold any; induction 1 as [kv rest Hkv | kv rest _ IH]; simpl.
  - rewrite Hkv; reflexivity.
  - rewrite IH; apply orb_true_r.
Qed.

Lemma typed_any (mappings : list (OidStr * @PyObject Value)) binds :
  binds_of mappings = Some binds ->
  any (map (fun kv => negb (isinstance_Type (snd kv))) mappings) = false.
Proof.
  revert binds; unfold any.
  induction mappings as [|[k [v|]] mappings IH]; simpl;
    intros binds Hbinds; try discriminate; [reflexivity|].
  destruct (binds_of mappings) as [rest|]; [|discriminate].
  exact (IH rest eq_refl).
Qed.

(** The canonical string of an OID is a given string when the string
    denotes this OID and is canonical. *)
Lemma str_eqb_unicode (a : ObjectIdentifier) (s : OidStr) :
  str_eqb (unicode a) s
  = oid_eqb a (OID s) && str_eqb s (unicode (OID s)).
Proof.
  unfold str_eqb; simpl.
  destruct (oid_eqb a (OID s)) eqn:E; simpl.
  - apply oid_eqb_eq in E; subst a.
    rewrite oid_eqb_refl, andb_true_r, andb_true_r.
    apply String.eqb_sym.
  - apply andb_false_r.
Qed.

(** A lookup by a string in a dict made of the varbinds of a response
    finds the last varbind whose OID has this very string: the one of the
    OID that the string denotes when the string is canonical, and none
    when it is another spelling. *)
Lemma lookup_of_varbinds (vbs : list (@VarBind Value)) (s : OidStr) :
  dict_get (dict_of_pairs (map (fun vb => (unicode (oid vb), value vb)) vbs))
           s
  = if str_eqb s (unicode (OID s))
    then option_map value (last_for (OID s) vbs)
    else None.
Proof.
  unfold dict_of_pairs, last_for; rewrite dict_get_fill; simpl.
  rewrite <- map_rev.
  induction (rev vbs) as [|vb rest IH]; simpl.
  - destruct (str_eqb _ _); reflexivity.
  - rewrite str_eqb_unicode.
    destruct (oid_eqb (oid vb) (OID s)); simpl; [|exact IH].
    destruct (str_eqb s (unicode (OID s))); [reflexivity | exact IH].
Qed.

Lemma lookup_of_canonical (vbs : list (@VarBind Value)) o :
  dict_get (dict_of_pairs (map (fun vb => (unicode (oid vb), value vb)) vbs))
           (unicode o)
  = option_map value (last_for o vbs).
Proof.
  rewrite lookup_of_varbinds, OID_unicode.
  rewrite (proj2 (str_eqb_eq (unicode o) (unicode o)) eq_refl).
  reflexivity.
Qed.

(** X1.  get returns the value of the one varbind of the response, and
    raises SnmpError on a response with no varbind or with several: the
    index [0] of its result never fails. *)
Theorem get_returns_the_sole_value :
  forall w ip community requested port timeout m,
    answer_to w ip port community
              (fun rid => GetRequest rid [OID requested]) timeout
    = Answer (inr m) ->
    (forall vb, varbinds (msg_pdu m) = [vb] ->
                fst (get ip community requested port timeout w)
                = Return (value vb)) /\
    (length (varbinds (msg_pdu m)) <> 1%nat ->
     fst (get ip community requested port timeout w) = Raise SnmpError).
Proof.
  intros w ip community requested port timeout m Hanswer.
  pose proof (multiget_exchange ip community [requested] port timeout w) as E.
  simpl in E.
  change (map OID [requested]) with [OID requested] in E.
  rewrite Hanswer in E.
  unfold get, bind; rewrite E; clear E.
  split.
  - intros vb Hvb; rewrite Hvb; reflexivity.
  - intros Hlen.
    apply Nat.eqb_neq in Hlen; simpl in Hlen; rewrite Hlen; reflexivity.
Qed.

(** X2.  Whatever the agent answers, a varbind that getnext returns has an
    OID strictly greater than the requested one; on a response with no
    varbind or with several getnext raises SnmpError, so that the index
    [0] of its result never fails. *)
Theorem getnext_returns_a_successor :
  forall w ip community requested port timeout,
    (forall vb,
        fst (getnext ip community requested port timeout w) = Return vb ->
        oid_ltb (OID requested) (oid vb) = true) /\
    (forall m,
        answer_to w ip port community
                  (fun rid => GetNextRequest rid [requested]) timeout
        = Answer (inr m) ->
        length (varbinds (msg_pdu m)) <> 1%nat ->
        fst (getnext ip community requested port timeout w)
        = Raise SnmpError).
Proof.
  intros w ip community requested port timeout.
  pose proof (multigetnext_exchange ip community [requested] port timeout w)
    as E.
  simpl in E.
  unfold getnext, bind; rewrite E; clear E.
  split.
  - intros vb.
    destruct (answer_to _ _ _ _ _ _) as [|[e|m]]; simpl; try discriminate.
    destruct (varbinds (msg_pdu m)) as [|vb0 [|vb1 rest]]; simpl;
      try discriminate.
    unfold successors_ok; simpl.
    destruct (oid_ltb (OID requested) (oid vb0)) eqn:Hlt; simpl;
      [|discriminate].
    intros H; injection H as <-; exact Hlt.
  - intros m Hanswer Hlen; rewrite Hanswer; simpl.
    apply Nat.eqb_neq in Hlen; simpl in Hlen; rewrite Hlen; reflexivity.
Qed.

(** X3.  set sends one varbind and looks its result up by the string that
    the caller gave for the OID.  With one distinct OID in the response it
    returns the value reported for the requested OID, whatever value was
    sent, when the string is the canonical string of this OID; it raises
    KeyError when the string is another spelling of the OID, although the
    agent reported the requested OID, and when the reported OID is another
    one.  With no OID or several distinct OIDs it raises SnmpError. *)
Theorem set_returns_the_reported_value :
  forall w ip community requested v port timeout m,
    answer_to w ip port community
              (fun rid => SetRequest rid [mkVarBind (OID requested) v])
              timeout
    = Answer (inr m) ->
    let vbs := varbinds (msg_pdu m) in
    let result :=
      fst (set ip community requested (Typed v) port timeout w) in
    (distinct (map oid vbs) <> 1%nat -> result = Raise SnmpError) /\
    (distinct (map oid vbs) = 1%nat ->
     requested = unicode (OID requested) ->
     result = match last_for (OID requested) vbs with
              | Some vb => Return (value vb)
              | None => Raise KeyError
              end) /\
    (distinct (map oid vbs) = 1%nat ->
     requested <> unicode (OID requested) ->
     result = Raise KeyError) /\
    (forall reported,
        vbs = [mkVarBind (OID requested) reported] ->
        result = if str_eqb requested (unicode (OID requested))
                 then Return reported
                 else Raise KeyError) /\
    (forall other reported,
        vbs = [mkVarBind other reported] ->
        other <> OID requested ->
        result = Raise KeyError).
Proof.
  intros w ip community requested v port timeout m Hanswer vbs result.
  assert (Hresult :
            result
            = if (distinct (map oid vbs) =? 1)%nat
              then (if str_eqb requested (unicode (OID requested))
                    then match last_for (OID requested) vbs with
                         | Some vb => Return (value vb)
                         | None => Raise KeyError
                         end
                    else Raise KeyError)
              else Raise SnmpError).
  { subst result; unfold set, bind.
    rewrite (@multiset_exchange
               Value ip community [(requested, Typed v)]
               [mkVarBind (OID requested) v] port timeout w
               eq_refl eq_refl).
    simpl; rewrite Hanswer; simpl.
    rewrite length_dict_of_varbinds; fold vbs.
    destruct (distinct (map oid vbs) =? 1)%nat; simpl; [|reflexivity].
    rewrite lookup_of_varbinds; fold vbs.
    destruct (str_eqb requested (unicode (OID requested)));
      [|reflexivity].
    destruct (last_for (OID requested) vbs); reflexivity. }
  rewrite Hresult; clear Hresult.
  repeat split.
  - intros H; apply Nat.eqb_neq in H; rewrite H; reflexivity.
  - intros H Hcanonical; rewrite H.
    apply str_eqb_eq in Hcanonical; rewrite Hcanonical; reflexivity.
  - intros H Hspelled; rewrite H.
    destruct (str_eqb requested (unicode (OID requested))) eqn:E;
      [|reflexivity].
    apply str_eqb_eq in E; contradiction.
  - intros reported ->; unfold last_for; simpl.
    rewrite oid_eqb_refl; reflexivity.
  - intros other reported -> Hother; unfold last_for; simpl.
    destruct (oid_eqb other (OID requested)) eqn:E.
    + apply oid_eqb_eq in E; contradiction.
    + destruct (str_eqb _ _); reflexivity.
Qed.

(** X4.  multiset (and set) check the values before anything else: when a
    value is not an instance of Type they raise TypeError, no request id is
    drawn and no datagram is sent. *)
Theorem untyped_value_raises_before_sending :
  forall w ip community port timeout,
    (forall mappings,
        Exists (fun kv => isinstance_Type (snd kv) = false) mappings ->
        multiset ip community mappings port timeout w
        = (Raise TypeError, w)) /\
    (forall requested,
        set ip community requested Untyped port timeout w
        = (Raise TypeError, w)).
Proof.
  intros w ip community port timeout; split.
  - intros mappings Hex.
    unfold multiset; rewrite (untyped_any Hex); reflexivity.
  - intros requested; reflexivity.
Qed.

(** X5.  Each operation makes exactly one exchange, whatever the agent
    answers and also when the operation fails: one request id is drawn and
    one datagram goes to the ip and port given, with the timeout given, and
    carries version 2c, the community and the PDU of the operation with the
    OIDs as given (for bulkget, the number of scalar OIDs as non-repeaters
    and max_list_size as repetitions). *)
Theorem operations_make_one_exchange :
  forall ip community port timeout,
    (forall oids,
        makes_one_exchange
          (@multiget Value ip community oids port timeout)
          (fun w => exchange_call w ip port community
                      (fun rid => GetRequest rid (map OID oids)) timeout)) /\
    (forall requested,
        makes_one_exchange
          (@get Value ip community requested port timeout)
          (fun w => exchange_call w ip port community
                      (fun rid => GetRequest rid [OID requested]) timeout)) /\
    (forall oids,
        makes_one_exchange
          (@multigetnext Value ip community oids port timeout)
          (fun w => exchange_call w ip port community
                      (fun rid => GetNextRequest rid oids) timeout)) /\
    (forall requested,
        makes_one_exchange
          (@getnext Value ip community requested port timeout)
          (fun w => exchange_call w ip port community
                      (fun rid => GetNextRequest rid [requested]) timeout)) /\
    (forall mappings binds,
        binds_of mappings = Some binds ->
        makes_one_exchange
          (@multiset Value ip community mappings port timeout)
          (fun w => exchange_call w ip port community
                      (fun rid => SetRequest rid binds) timeout)) /\
    (forall requested v,
        makes_one_exchange
          (@set Value ip community requested (Typed v) port timeout)
          (fun w => exchange_call w ip port community
                      (fun rid => SetRequest rid [mkVarBind (OID requested) v])
                      timeout)) /\
    (forall scalar_oids repeating_oids max_list_size,
        makes_one_exchange
          (@bulkget Value ip community scalar_oids repeating_oids
                    max_list_size port timeout)
          (fun w => exchange_call w ip port community
                      (fun rid =>
                         BulkGetRequest
                           rid (length scalar_oids) max_list_size
                           (map OID scalar_oids ++ map OID repeating_oids))
                      timeout)).
Proof.
  intros ip community port timeout.
  assert (Hget : forall oids,
             makes_one_exchange
               (@multiget Value ip community oids port timeout)
               (fun w => exchange_call w ip port community
                           (fun rid => GetRequest rid (map OID oids))
                           timeout)).
  { intros oids w; rewrite multiget_exchange; simpl.
    destruct (answer_to _ _ _ _ _ _) as [|[e|m]]; reflexivity. }
  assert (Hnext : forall oids,
             makes_one_exchange
               (@multigetnext Value ip community oids port timeout)
               (fun w => exchange_call w ip port community
                           (fun rid => GetNextRequest rid oids) timeout)).
  { intros oids w; rewrite multigetnext_exchange; simpl.
    destruct (answer_to _ _ _ _ _ _) as [|[e|m]]; reflexivity. }
  assert (Hset : forall mappings binds,
             binds_of mappings = Some binds ->
             makes_one_exchange
               (@multiset Value ip community mappings port timeout)
               (fun w => exchange_call w ip port community
                           (fun rid => SetRequest rid binds) timeout)).
  { intros mappings binds Hbinds w.
    rewrite (multiset_exchange _ _ _ _ _ _ (typed_any _ Hbinds) Hbinds).
    simpl. destruct (answer_to _ _ _ _ _ _) as [|[e|m]]; reflexivity. }
  repeat split.
  - exact Hget.
  - intros requested w. unfold get.
    rewrite bind_world; [exact (Hget [requested] w)|].
    intros [|v output] w'; reflexivity.
  - exact Hnext.
  - intros requested w. unfold getnext.
    rewrite bind_world; [exact (Hnext [requested] w)|].
    intros [|vb output] w'; reflexivity.
  - exact Hset.
  - intros requested v w. unfold set.
    rewrite bind_world;
      [exact (Hset [(requested, Typed v)] _ eq_refl w)|].
    intros result w'; destruct (dict_get result requested); reflexivity.
  - intros scalar_oids repeating_oids max_list_size w.
    rewrite bulkget_exchange; simpl.
    destruct (answer_to _ _ _ _ _ _) as [|[e|m]]; reflexivity.
Qed.

End MoreOperationFacts.

Section FailureAndBulkFacts.
Context {Value : Type}.

Implicit Types (w : @World Value) (m : @Message Value).

Lemma bind_passes_failures {A B : Type} (op : @M Value A)
      (k : A -> @M Value B) reply :
  passes_failures_on op reply -> passes_failures_on (bind op k) reply.
Proof.
  intros Hop w; destruct (Hop w) as [Htimeout Hdecode].
  unfold bind; split.
  - intros Hreply; specialize (Htimeout Hreply).
    destruct (op w) as [[a|e] w']; simpl in *; congruence.
  - intros e Hreply; specialize (Hdecode e Hreply).
    destruct (op w) as [[a|e'] w']; simpl in *; congruence.
Qed.

(** X6.  No operation catches anything: when the transport times out the
    operation raises Timeout, and when the decoding of the reply raises
    (NoSuchOID, SnmpError, ...) the operation raises the same exception. *)
Theorem operations_pass_failures_on :
  forall ip community port timeout,
    (forall oids,
        passes_failures_on
          (@multiget Value ip community oids port timeout)
          (fun w => answer_to w ip port community
                      (fun rid => GetRequest rid (map OID oids)) timeout)) /\
    (forall requested,
        passes_failures_on
          (@get Value ip community requested port timeout)
          (fun w => answer_to w ip port community
                      (fun rid => GetRequest rid [OID requested]) timeout)) /\
    (forall oids,
        passes_failures_on
          (@multigetnext Value ip community oids port timeout)
          (fun w => answer_to w ip port community
                      (fun rid => GetNextRequest rid oids) timeout)) /\
    (forall requested,
        passes_failures_on
          (@getnext Value ip community requested port timeout)
          (fun w => answer_to w ip port community
                      (fun rid => GetNextRequest rid [requested]) timeout)) /\
    (forall mappings binds,
        binds_of mappings = Some binds ->
        passes_failures_on
          (@multiset Value ip community mappings port timeout)
          (fun w => answer_to w ip port community
                      (fun rid => SetRequest rid binds) timeout)) /\
    (forall requested v,
        passes_failures_on
          (@set Value ip community requested (Typed v) port timeout)
          (fun w => answer_to w ip port community
                      (fun rid => SetRequest rid [mkVarBind (OID requested) v])
                      timeout)) /\
    (forall scalar_oids repeating_oids max_list_size,
        passes_failures_on
          (@bulkget Value ip community scalar_oids repeating_oids
                    max_list_size port timeout)
          (fun w => answer_to w ip port community
                      (fun rid =>
                         BulkGetRequest
                           rid (length scalar_oids) max_list_size
                           (map OID scalar_oids ++ map OID repeating_oids))
                      timeout)).
Proof.
  intros ip community port timeout.
  assert (Hget : forall oids,
             passes_failures_on
               (@multiget Value ip community oids port timeout)
               (fun w => answer_to w ip port community
                           (fun rid => GetRequest rid (map OID oids))
                           timeout)).
  { intros oids w; rewrite multiget_exchange; simpl.
    split; [intros -> | intros e ->]; reflexivity. }
  assert (Hnext : forall oids,
             passes_failures_on
               (@multigetnext Value ip community oids port timeout)
               (fun w => answer_to w ip port community
                           (fun rid => GetNextRequest rid oids) timeout)).
  { intros oids w; rewrite multigetnext_exchange; simpl.
    split; [intros -> | intros e ->]; reflexivity. }
  assert (Hset : forall mappings binds,
             binds_of mappings = Some binds ->
             passes_failures_on
               (@multiset Value ip community mappings port timeout)
               (fun w => answer_to w ip port community
                           (fun rid => SetRequest rid binds) timeout)).
  { intros mappings binds Hbinds w.
    rewrite (multiset_exchange _ _ _ _ _ _ (typed_any _ Hbinds) Hbinds).
    simpl. split; [intros -> | intros e ->]; reflexivity. }
  repeat split.
  - apply Hget.
  - apply Hget.
  - apply (bind_passes_failures _ (Hget [requested])).
  - apply (bind_passes_failures _ (Hget [requested])).
  - apply Hnext.
  - apply Hnext.
  - apply (bind_passes_failures _ (Hnext [requested])).
  - apply (bind_passes_failures _ (Hnext [requested])).
  - apply (Hset _ _ H).
  - apply (Hset _ _ H).
  - apply (bind_passes_failures
             _ (Hset [(requested, Typed v)] _ eq_refl)).
  - apply (bind_passes_failures
             _ (Hset [(requested, Typed v)] _ eq_refl)).
  - rewrite bulkget_exchange; simpl; intros ->; reflexivity.
  - rewrite bulkget_exchange; simpl; intros e ->; reflexivity.
Qed.

(** X7.  The dict that multiset returns maps every OID of the response to
    the value of the last varbind of the response for this OID, and has no
    entry for any other OID: the OIDs sent play no part in it. *)
Theorem multiset_maps_each_oid_to_its_last_value :
  forall w ip community mappings binds port timeout m output,
    binds_of mappings = Some binds ->
    answer_to w ip port community (fun rid => SetRequest rid binds) timeout
    = Answer (inr m) ->
    fst (multiset ip community mappings port timeout w) = Return output ->
    forall o,
      dict_get output (unicode o)
      = option_map value (last_for o (varbinds (msg_pdu m))).
Proof.
  intros w ip community mappings binds port timeout m output
         Hbinds Hanswer Hreturn o.
  rewrite (multiset_exchange _ _ _ _ _ _ (typed_any _ Hbinds) Hbinds)
    in Hreturn.
  simpl in Hreturn; rewrite Hanswer in Hreturn; simpl in Hreturn.
  destruct (_ =? _)%nat; [|discriminate].
  injection Hreturn as <-.
  apply lookup_of_canonical.
Qed.

Lemma bulk_bound_sum (n r : nat) (max_list_size : Z) :
  bulk_bound n max_list_size (n + r)
  = (Z.of_nat n + max_list_size * Z.of_nat r)%Z.
Proof. unfold bulk_bound; f_equal; f_equal; lia. Qed.

(** What is left of a response after the scalars fills the listing with at
    most [bound] entries when the response has at most [n + bound]
    varbinds. *)
Lemma listing_at_most (vbs : list (@VarBind Value)) (n : nat) (bound : Z) :
  (Z.of_nat (length vbs) <= Z.of_nat n + bound)%Z ->
  (Z.of_nat
     (dict_len
        (dict_of_pairs
           (map (fun vb : @VarBind Value => (unicode (oid vb), value vb))
                (skipn n vbs))))
   <= Z.max 0 bound)%Z.
Proof.
  intros Hle.
  pose proof (dict_len_at_most
                (map (fun vb : @VarBind Value => (unicode (oid vb), value vb))
                     (skipn n vbs))) as Hlen.
  rewrite length_map, length_skipn in Hlen.
  lia.
Qed.

(** X8.  A result of bulkget never exceeds what was asked for: it has at
    most one scalar per scalar OID and at most max_list_size entries in the
    listing per repeating OID (none when max_list_size is zero or
    negative). *)
Theorem bulkget_result_sizes :
  forall w ip community scalar_oids repeating_oids max_list_size port
         timeout (result : @BulkResult Value),
    fst (bulkget ip community scalar_oids repeating_oids max_list_size
                 port timeout w)
    = Return result ->
    (dict_len (scalars result) <= length scalar_oids)%nat /\
    (Z.of_nat (dict_len (listing result))
     <= Z.max 0 (max_list_size * Z.of_nat (length repeating_oids)))%Z.
Proof.
  intros w ip community scalar_oids repeating_oids max_list_size port
         timeout result.
  rewrite bulkget_exchange; simpl.
  destruct (answer_to _ _ _ _ _ _) as [|[e|m]]; simpl; try discriminate.
  rewrite bulk_bound_sum.
  destruct (Z.gtb_spec
              (Z.of_nat (length (varbinds (msg_pdu m))))
              (Z.of_nat (length scalar_oids)
               + max_list_size * Z.of_nat (length repeating_oids)))
    as [Hgt | Hle]; [discriminate|].
  intros H; injection H as <-; simpl.
  split.
  - eapply Nat.le_trans; [apply dict_len_at_most|].
    rewrite length_map, length_firstn; apply Nat.le_min_l.
  - apply listing_at_most; exact Hle.
Qed.

(** X9.  When the OIDs of the response are pairwise distinct and the
    cardinality check passes, bulkget returns the varbinds of the response
    as they came: the first len(scalar_oids) as the scalars, all the others
    as the listing, in the order of the response. *)
Theorem bulkget_keeps_wire_order :
  forall w ip community scalar_oids repeating_oids max_list_size port
         timeout m,
    answer_to w ip port community
              (fun rid =>
                 BulkGetRequest rid (length scalar_oids) max_list_size
                   (map OID scalar_oids ++ map OID repeating_oids))
              timeout
    = Answer (inr m) ->
    let vbs := varbinds (msg_pdu m) in
    let as_pair := fun vb : @VarBind Value => (unicode (oid vb), value vb) in
    (Z.of_nat (length vbs)
     <= bulk_bound (length scalar_oids) max_list_size
                   (length scalar_oids + length repeating_oids))%Z ->
    NoDup (map oid vbs) ->
    fst (bulkget ip community scalar_oids repeating_oids max_list_size
                 port timeout w)
    = Return (mkBulkResult
                (map as_pair (firstn (length scalar_oids) vbs))
                (map as_pair (skipn (length scalar_oids) vbs))).
Proof.
  intros w ip community scalar_oids repeating_oids max_list_size port
         timeout m Hanswer vbs as_pair Hbound Hnd.
  rewrite bulkget_exchange; simpl; rewrite Hanswer; simpl; fold vbs.
  destruct (_ >? _)%Z eqn:Hcheck; [apply Z.gtb_gt in Hcheck; lia|].
  rewrite <- (firstn_skipn (length scalar_oids) vbs), map_app in Hnd.
  rewrite !dict_of_pairs_distinct; [reflexivity | |];
    rewrite map_map; simpl;
    rewrite <- (map_map oid unicode); apply NoDup_unicode.
  - exact (NoDup_app_remove_l _ _ Hnd).
  - exact (NoDup_app_remove_r _ _ Hnd).
Qed.

(** X10.  max_list_size is not validated: when it is so negative that the
    bound n + m * max(0, k - n) falls below zero, bulkget rejects every
    response with SnmpError, the empty one too. *)
Theorem bulkget_negative_bound_rejects_all :
  forall w ip community scalar_oids repeating_oids max_list_size port
         timeout m,
    answer_to w ip port community
              (fun rid =>
                 BulkGetRequest rid (length scalar_oids) max_list_size
                   (map OID scalar_oids ++ map OID repeating_oids))
              timeout
    = Answer (inr m) ->
    (bulk_bound (length scalar_oids) max_list_size
                (length scalar_oids + length repeating_oids) < 0)%Z ->
    fst (bulkget ip community scalar_oids repeating_oids max_list_size
                 port timeout w)
    = Raise SnmpError.
Proof.
  intros w ip community scalar_oids repeating_oids max_list_size port
         timeout m Hanswer Hneg.
  rewrite bulkget_exchange; simpl; rewrite Hanswer; simpl.
  destruct (_ >? _)%Z eqn:Hcheck; [reflexivity|].
  destruct (Z.gtb_spec
              (Z.of_nat (length (varbinds (msg_pdu m))))
              (bulk_bound (length scalar_oids) max_list_size
                          (length scalar_oids + length repeating_oids)));
    [discriminate | lia].
Qed.

(** X11.  The fetcher of bulkwalk sends one GETBULK without non-repeaters
    and with bulk_size repetitions, and what it returns went through an
    ordered dict: the OIDs of the varbinds it returns are pairwise
    distinct, there are at most bulk_size of them per OID asked, and each
    carries the value of the last varbind of the response for its OID. *)
Theorem bulkwalk_fetcher_returns_distinct_oids :
  forall bulk_size ip community oids port timeout w vbs w1,
    fetcher_call (@_bulkwalk_fetcher Value bulk_size) ip community oids
                 port timeout w
    = (Return vbs, w1) ->
    NoDup (map oid vbs) /\
    (Z.of_nat (length vbs)
     <= Z.max 0 (bulk_size * Z.of_nat (length oids)))%Z /\
    (exists m,
        answer_to w ip port community
                  (fun rid => BulkGetRequest rid 0 bulk_size (map OID oids))
                  timeout
        = Answer (inr m) /\
        forall vb, In vb vbs ->
                   last_for (oid vb) (varbinds (msg_pdu m)) = Some vb).
Proof.
  intros bulk_size ip community oids port timeout w vbs w1.
  unfold _bulkwalk_fetcher; simpl; unfold bind.
  rewrite bulkget_exchange; simpl.
  destruct (answer_to _ _ _ _ _ _) as [|[e|m]]; simpl; try discriminate.
  unfold bulk_bound; simpl.
  destruct (Z.gtb_spec
              (Z.of_nat (length (varbinds (msg_pdu m))))
              (bulk_size * Z.max 0 (Z.of_nat (length oids) - 0)))
    as [Hgt | Hle]; simpl; [discriminate|].
  intros H; injection H as <- <-.
  assert (Hlisting :
            (Z.of_nat
               (dict_len
                  (dict_of_pairs
                     (map (fun vb : @VarBind Value =>
                             (unicode (oid vb), value vb))
                          (skipn 0 (varbinds (msg_pdu m))))))
             <= Z.max 0 (bulk_size * Z.of_nat (length oids)))%Z).
  { apply listing_at_most. simpl Z.of_nat.
    replace (Z.max 0 (Z.of_nat (length oids) - 0))
      with (Z.of_nat (length oids)) in Hle by lia.
    lia. }
  simpl skipn in Hlisting.
  set (pairs := map (fun vb : @VarBind Value => (unicode (oid vb), value vb))
                    (varbinds (msg_pdu m))) in *.
  assert (Hcanonical : forall k, In k (map fst (dict_of_pairs pairs)) ->
                                 k = unicode (OID k)).
  { intros k Hk; apply dict_of_pairs_keys in Hk.
    subst pairs; rewrite map_map in Hk; simpl in Hk.
    apply in_map_iff in Hk as (vb & <- & _); reflexivity. }
  assert (Hkeys : map oid
                    (map (fun kv => mkVarBind (OID (fst kv)) (snd kv))
                         (dict_items (dict_of_pairs pairs)))
                  = map OID (map fst (dict_of_pairs pairs))).
  { unfold dict_items; rewrite !map_map; reflexivity. }
  repeat split.
  - rewrite Hkeys.
    apply NoDup_OID; [apply dict_of_pairs_keys_distinct | exact Hcanonical].
  - rewrite length_map; exact Hlisting.
  - exists m; split; [reflexivity|].
    intros vb Hin.
    apply in_map_iff in Hin as [[k v] [<- Hin]]; simpl.
    unfold dict_items in Hin.
    pose proof (@dict_get_item _ _ _ _ _ _ _
                               (dict_of_pairs_keys_distinct pairs) Hin)
      as Hget.
    rewrite (Hcanonical k) in Hget
      by (apply in_map_iff; exists (k, v); split; [reflexivity | exact Hin]).
    unfold pairs in Hget; rewrite lookup_of_canonical in Hget.
    destruct (last_for (OID k) (varbinds (msg_pdu m))) as [[o v0]|] eqn:Hlast;
      simpl in Hget; [|discriminate].
    injection Hget as ->.
    pose proof Hlast as Hfind.
    unfold last_for in Hfind; apply find_some in Hfind as [_ Ho].
    simpl in Ho; apply oid_eqb_eq in Ho; subst o.
    reflexivity.
Qed.

End FailureAndBulkFacts.

(** ** Failed fetches, warnings and datagrams of a walk *)

Section MoreWalkFacts.
Context {Value : Type} {ops : TypeOps Value}.

Implicit Types (w : @World Value) (events : list (@WalkEvent Value)).

(** A fetch of a walk that raises is its first fetch, and then nothing
    follows and the exception leaves the walk, or a fetch of the loop, and
    then the run ends as [ends_with] says. *)
Lemma multiwalk_failed_fetch fuel ip community oids port timeout
      (fetcher : @Fetcher Value) errors w events outcome w'
      pre fetched e post :
  multiwalk fuel ip community oids port timeout fetcher errors w
  = (events, outcome, w') ->
  events = pre ++ Fetch fetched (Raise e) :: post ->
  (Forall (fun ev => is_fetch ev = false) pre /\
   post = [] /\ outcome = Propagated e) \/
  (Exists (fun ev => is_fetch ev = true) pre /\
   ends_with errors ip fetched e post outcome).
Proof.
  intros Hrun Hsplit.
  apply multiwalk_inv in Hrun
    as [(e0 & _ & -> & ->)
       | [(varbinds & w1 & vars & events1 & yielded1 & events2
           & _ & _ & Hy & Hr & ->)
         | (varbinds & e1 & _ & _ & -> & _)]].
  - left.
    destruct pre as [|x [|y pre]]; simpl in Hsplit; try discriminate.
    + injection Hsplit as <- _ <- <-.
      repeat split; repeat constructor.
    + injection Hsplit as _ _ Hrest; destruct pre; discriminate.
  - right.
    destruct (yield_groups_fresh _ _ _ _ Hy) as [_ Hquiet].
    symmetry in Hsplit.
    change (?a :: ?b :: ?c :: events1 ++ events2)
      with ((a :: b :: c :: events1) ++ events2) in Hsplit.
    apply (app_cons_in_back (@fetch_failed Value)) in Hsplit
      as (pre' & -> & Hback).
    + split.
      * right; left; reflexivity.
      * exact (walk_rounds_failed_fetch _ _ _ _ _ _ _ _ _ _ _ _ Hr
                                        _ _ _ _ Hback).
    + do 3 (constructor; [intros (? & ? & ?); discriminate|]).
      eapply Forall_impl; [|exact Hquiet].
      intros a; apply quiet_not_failed.
    + exists fetched, e; reflexivity.
  - destruct pre as [|x [|y [|z [|z' pre]]]]; discriminate Hsplit.
Qed.

(** X12.  The first fetch of a multiwalk is not guarded: whatever
    exception it raises leaves the walk, in warn mode as in strict mode,
    before anything is yielded or logged as a warning. *)
Theorem first_fetch_failure_leaves_the_walk :
  forall fuel ip community oids port timeout (fetcher : @Fetcher Value)
         errors w e,
    fst (fetcher_call fetcher ip community oids port timeout w) = Raise e ->
    let run :=
      multiwalk fuel ip community oids port timeout fetcher errors w in
    run_outcome run = Propagated e /\
    yields (run_events run) = [] /\
    filter is_warning (run_events run) = [] /\
    run_world run
    = snd (fetcher_call fetcher ip community oids port timeout w).
Proof.
  intros fuel ip community oids port timeout fetcher errors w e Hfetch run.
  subst run; unfold multiwalk.
  destruct (fetcher_call _ _ _ _ _ _ w) as [[varbinds|e0] w1];
    simpl in Hfetch; [discriminate|].
  injection Hfetch as ->.
  repeat split.
Qed.

(** X13.  NoSuchOID from a fetch of the loop is the end of the tree: in
    either error mode the fetch is the last event of the walk, no warning
    is logged and the stream ends without an error. *)
Theorem NoSuchOID_in_the_loop_ends_the_walk :
  forall fuel ip community oids port timeout (fetcher : @Fetcher Value)
         errors w pre fetched post,
    let run :=
      multiwalk fuel ip community oids port timeout fetcher errors w in
    run_events run = pre ++ Fetch fetched (Raise NoSuchOID) :: post ->
    Exists (fun ev => is_fetch ev = true) pre ->
    post = [] /\ run_outcome run = Exhausted.
Proof.
  intros fuel ip community oids port timeout fetcher errors w
         pre fetched post run.
  destruct run as [[events outcome] w'] eqn:Hrun; subst run.
  unfold run_events, run_outcome; simpl.
  intros Hsplit Hpre.
  destruct (@multiwalk_failed_fetch _ _ _ _ _ _ _ _ _ _ _ _ _ _ _ _ Hrun Hsplit)
    as [(Hnone & _) | (_ & Hend)].
  - exfalso. apply Exists_exists in Hpre as (ev & Hin & Hev).
    rewrite Forall_forall in Hnone. rewrite (Hnone ev Hin) in Hev.
    discriminate.
  - exact Hend.
Qed.

(** X14.  Only the string 'warn' relaxes a walk: with any other value of
    errors a FaultySNMPImplementation raised by any fetch is the last event
    of the walk and leaves it. *)
Theorem faulty_fetch_propagates_unless_warn :
  forall fuel ip community oids port timeout (fetcher : @Fetcher Value)
         errors w pre fetched post,
    errors <> ERRORS_WARN ->
    let run :=
      multiwalk fuel ip community oids port timeout fetcher errors w in
    run_events run
    = pre ++ Fetch fetched (Raise FaultySNMPImplementation) :: post ->
    post = [] /\ run_outcome run = Propagated FaultySNMPImplementation.
Proof.
  intros fuel ip community oids port timeout fetcher errors w
         pre fetched post Herrors run.
  destruct run as [[events outcome] w'] eqn:Hrun; subst run.
  unfold run_events, run_outcome; simpl.
  intros Hsplit.
  apply String.eqb_neq in Herrors.
  destruct (@multiwalk_failed_fetch _ _ _ _ _ _ _ _ _ _ _ _ _ _ _ _ Hrun Hsplit)
    as [(_ & Hpost & Hout) | (_ & Hend)].
  - split; assumption.
  - unfold ends_with in Hend; rewrite Herrors in Hend; exact Hend.
Qed.

(** X15.  Exceptions other than NoSuchOID and FaultySNMPImplementation
    (SnmpError, Timeout, ...) are never caught: raised by any fetch, in
    either error mode, they end the walk at once and leave it. *)
Theorem other_exceptions_always_propagate :
  forall fuel ip community oids port timeout (fetcher : @Fetcher Value)
         errors w pre fetched e post,
    e <> NoSuchOID ->
    e <> FaultySNMPImplementation ->
    let run :=
      multiwalk fuel ip community oids port timeout fetcher errors w in
    run_events run = pre ++ Fetch fetched (Raise e) :: post ->
    post = [] /\ run_outcome run = Propagated e.
Proof.
  intros fuel ip community oids port timeout fetcher errors w
         pre fetched e post Hno Hfaulty run.
  destruct run as [[events outcome] w'] eqn:Hrun; subst run.
  unfold run_events, run_outcome; simpl.
  intros Hsplit.
  destruct (@multiwalk_failed_fetch _ _ _ _ _ _ _ _ _ _ _ _ _ _ _ _ Hrun Hsplit)
    as [(_ & Hpost & Hout) | (_ & Hend)].
  - split; assumption.
  - unfold ends_with in Hend; destruct e; try exact Hend; contradiction.
Qed.

Lemma quiet_no_warning events :
  Forall quiet events -> filter is_warning events = [].
Proof.
  induction 1 as [|ev events [_ Hw] _ IH]; simpl; [reflexivity|].
  rewrite Hw; exact IH.
Qed.

Lemma quiet_no_fetch events :
  Forall quiet events -> filter is_fetch events = [].
Proof.
  induction 1 as [|ev events [Hf _] _ IH]; simpl; [reflexivity|].
  rewrite Hf; exact IH.
Qed.

(** The loop logs no warning, or its last two events are a fetch that
    raised FaultySNMPImplementation and the one warning about it. *)
Lemma walk_rounds_warnings ip community port timeout
      (fetcher : @Fetcher Value) errors total requested_oids fuel :
  forall unfinished_oids yielded w events outcome w',
    walk_rounds fuel ip community port timeout fetcher errors total
                requested_oids unfinished_oids yielded w
    = (events, outcome, w') ->
    filter is_warning events = [] \/
    (errors = ERRORS_WARN /\ outcome = Exhausted /\
     exists pre fetched,
       events
       = pre ++ [Fetch fetched (Raise FaultySNMPImplementation);
                 Log (WarningAborted ip fetched FaultySNMPImplementation)]
       /\ filter is_warning pre = []).
Proof.
  induction fuel as [|fuel IH];
    intros unfinished_oids yielded w events outcome w' Hrun;
    apply walk_rounds_inv in Hrun
      as [(-> & _) | [(fuel' & e0 & post0 & Hfuel & _ & -> & Hend)
                     | [(fuel' & varbinds & w1 & vars & events1 & yielded1
                         & events2 & Hfuel & _ & _ & Hy & Hr & ->)
                       | (fuel' & varbinds & e1 & Hfuel & _ & _ & -> & _)]]];
    try discriminate; try (left; reflexivity).
  - unfold ends_with in Hend.
    destruct e0; try (destruct Hend as [-> _]; left; reflexivity).
    destruct (String.eqb errors ERRORS_WARN) eqn:Hw;
      destruct Hend as [-> ->]; [|left; reflexivity].
    right. apply String.eqb_eq in Hw.
    repeat split; [exact Hw|].
    exists [], (frontier unfinished_oids); split; reflexivity.
  - injection Hfuel as <-.
    destruct (yield_groups_fresh _ _ _ _ Hy) as [_ Hquiet].
    destruct (IH _ _ _ _ _ _ Hr)
      as [Hnone | (Hw & Hout & pre & fetched & -> & Hpre)].
    + left; simpl. rewrite filter_app, (quiet_no_warning Hquiet), Hnone.
      reflexivity.
    + right; repeat split; [exact Hw | exact Hout|].
      eexists (_ :: _ :: events1 ++ pre), fetched; split.
      * simpl; rewrite <- app_assoc; reflexivity.
      * simpl. rewrite filter_app, (quiet_no_warning Hquiet), Hpre.
        reflexivity.
Qed.

(** X16.  A walk logs at most one warning, and only in warn mode: when it
    does, the warning is the last event of the walk, it follows a fetch
    that raised FaultySNMPImplementation and names the OIDs of this fetch,
    and the stream ends without an error. *)
Theorem at_most_one_warning :
  forall fuel ip community oids port timeout (fetcher : @Fetcher Value)
         errors w,
    let run :=
      multiwalk fuel ip community oids port timeout fetcher errors w in
    filter is_warning (run_events run) = [] \/
    (errors = ERRORS_WARN /\ run_outcome run = Exhausted /\
     exists pre fetched,
       run_events run
       = pre ++ [Fetch fetched (Raise FaultySNMPImplementation);
                 Log (WarningAborted ip fetched FaultySNMPImplementation)]
       /\ filter is_warning pre = []).
Proof.
  intros fuel ip community oids port timeout fetcher errors w run.
  destruct run as [[events outcome] w'] eqn:Hrun; subst run.
  unfold run_events, run_outcome; simpl.
  apply multiwalk_inv in Hrun
    as [(e0 & _ & -> & ->)
       | [(varbinds & w1 & vars & events1 & yielded1 & events2
           & _ & _ & Hy & Hr & ->)
         | (varbinds & e1 & _ & _ & -> & _)]].
  - left; reflexivity.
  - destruct (yield_groups_fresh _ _ _ _ Hy) as [_ Hquiet].
    destruct (walk_rounds_warnings _ _ _ _ _ _ _ _ _ _ _ _ Hr)
      as [Hnone | (Hw & Hout & pre & fetched & -> & Hpre)].
    + left; simpl. rewrite filter_app, (quiet_no_warning Hquiet), Hnone.
      reflexivity.
    + right; repeat split; [exact Hw | exact Hout|].
      eexists (_ :: _ :: _ :: events1 ++ pre), fetched; split.
      * simpl; rewrite <- app_assoc; reflexivity.
      * simpl. rewrite filter_app, (quiet_no_warning Hquiet), Hpre.
        reflexivity.
  - left; reflexivity.
Qed.

End MoreWalkFacts.

Section WalkDatagrams.
Context {Value : Type} {ops : TypeOps Value}.

Implicit Types (w : @World Value) (events : list (@WalkEvent Value)).

Section AnyFetcher.
Variables (ip community : string) (port timeout : Z).
Variable fetcher : @Fetcher Value.
Variable errors : string.
Variable shape : list OidStr -> Result (list (@VarBind Value)) ->
                 @SendCall Value -> Prop.

(** The fetcher sends one datagram per call, of the shape [shape]. *)
Hypothesis fetcher_sends :
  forall oids w r w1,
    fetcher_call fetcher ip community oids port timeout w = (r, w1) ->
    exists call, sent w1 = sent w ++ [call] /\ shape oids r call.

Lemma walk_rounds_sends total requested_oids fuel :
  forall unfinished_oids yielded w events outcome w',
    walk_rounds fuel ip community port timeout fetcher errors total
                requested_oids unfinished_oids yielded w
    = (events, outcome, w') ->
    exists new, sent w' = sent w ++ new /\ fetches_sent shape events new.
Proof.
  induction fuel as [|fuel IH];
    intros unfinished_oids yielded w events outcome w' Hrun;
    apply walk_rounds_inv in Hrun
      as [(-> & -> & _) | [(fuel' & e0 & post0 & Hfuel & Hf & -> & Hend)
                         | [(fuel' & varbinds & w1 & vars & events1
                             & yielded1 & events2 & Hfuel & Hf & _ & Hy
                             & Hr & ->)
                           | (fuel' & varbinds & e1 & Hfuel & Hf & _ & ->
                              & _)]]];
    try discriminate;
    try (exists []; split; [symmetry; apply app_nil_r | constructor]).
  - destruct (fetcher_sends _ _ Hf) as (call & Hsent & Hshape).
    exists [call]; split; [exact Hsent|].
    unfold fetches_sent; simpl.
    apply ends_with_post in Hend as [-> | ->]; simpl;
      (constructor; [exists (frontier unfinished_oids), (Raise e0);
                     split; [reflexivity | exact Hshape]
                    | constructor]).
  - injection Hfuel as <-.
    destruct (fetcher_sends _ _ Hf) as (call & Hsent & Hshape).
    destruct (IH _ _ _ _ _ _ Hr) as (new & Hnew & Hfetches).
    destruct (yield_groups_fresh _ _ _ _ Hy) as [_ Hquiet].
    exists (call :: new); split.
    + rewrite Hnew, Hsent, <- app_assoc; reflexivity.
    + unfold fetches_sent in *; simpl.
      rewrite filter_app, (quiet_no_fetch Hquiet); simpl.
      constructor; [|exact Hfetches].
      exists (frontier unfinished_oids), (Return varbinds).
      split; [reflexivity | exact Hshape].
  - destruct (fetcher_sends _ _ Hf) as (call & Hsent & Hshape).
    exists [call]; split; [exact Hsent|].
    unfold fetches_sent; simpl.
    constructor; [|constructor].
    exists (frontier unfinished_oids), (Return varbinds).
    split; [reflexivity | exact Hshape].
Qed.

(** A walk sends one datagram per fetch, in the order of the fetches. *)
Lemma multiwalk_sends fuel oids w :
  let run :=
    multiwalk fuel ip community oids port timeout fetcher errors w in
  exists new,
    sent (run_world run) = sent w ++ new /\
    fetches_sent shape (run_events run) new.
Proof.
  intros run.
  destruct run as [[events outcome] w'] eqn:Hrun; subst run.
  unfold run_events, run_world; simpl.
  apply multiwalk_inv in Hrun
    as [(e0 & Hf & -> & ->)
       | [(varbinds & w1 & vars & events1 & yielded1 & events2
           & Hf & _ & Hy & Hr & ->)
         | (varbinds & e1 & Hf & _ & -> & _)]].
  - destruct (fetcher_sends _ _ Hf) as (call & Hsent & Hshape).
    exists [call]; split; [exact Hsent|].
    unfold fetches_sent; simpl.
    constructor; [|constructor].
    exists oids, (Raise e0); split; [reflexivity | exact Hshape].
  - destruct (fetcher_sends _ _ Hf) as (call & Hsent & Hshape).
    destruct (walk_rounds_sends _ _ _ _ _ _ Hr) as (new & Hnew & Hfetches).
    destruct (yield_groups_fresh _ _ _ _ Hy) as [_ Hquiet].
    exists (call :: new); split.
    + rewrite Hnew, Hsent, <- app_assoc; reflexivity.
    + unfold fetches_sent in *; simpl.
      rewrite filter_app, (quiet_no_fetch Hquiet); simpl.
      constructor; [|exact Hfetches].
      exists oids, (Return varbinds); split; [reflexivity | exact Hshape].
  - destruct (fetcher_sends _ _ Hf) as (call & Hsent & Hshape).
    exists [call]; split; [exact Hsent|].
    unfold fetches_sent; simpl.
    constructor; [|constructor].
    exists oids, (Return varbinds); split; [reflexivity | exact Hshape].
Qed.

End AnyFetcher.

Lemma fetches_sent_weaken
      (shape shape' : list OidStr -> Result (list (@VarBind Value)) ->
                      @SendCall Value -> Prop) events calls :
  (forall oids r call, shape oids r call -> shape' oids r call) ->
  fetches_sent shape events calls -> fetches_sent shape' events calls.
Proof.
  intros Himpl; unfold fetches_sent.
  induction 1 as [|ev call evs calls (oids & r & Hev & Hshape) _ IH];
    constructor; [|exact IH].
  exists oids, r; split; [exact Hev | apply Himpl; exact Hshape].
Qed.

Lemma fetches_sent_each
      (shape : list OidStr -> Result (list (@VarBind Value)) ->
               @SendCall Value -> Prop) events calls :
  fetches_sent shape events calls ->
  forall oids r, In (Fetch oids r) events -> exists call, shape oids r call.
Proof.
  unfold fetches_sent; intros Hall oids r Hin.
  assert (Hfiltered : In (Fetch oids r) (filter is_fetch events)).
  { apply filter_In; split; [exact Hin | reflexivity]. }
  clear Hin; induction Hall as [|ev call evs calls (o & r0 & Hev & Hs) _ IH].
  - contradiction.
  - destruct Hfiltered as [Heq | Hin].
    + rewrite Heq in Hev; injection Hev as <- <-; exists call; exact Hs.
    + exact (IH Hin).
Qed.

(** What one call of the GETNEXT fetcher sends and returns. *)
Lemma multigetnext_fetcher_sends ip community port timeout oids w r w1 :
  fetcher_call (@multigetnext_fetcher Value) ip community oids port timeout w
  = (r, w1) ->
  exists call,
    sent w1 = sent w ++ [call] /\
    (getnext_datagram ip port community timeout oids call /\
     successors_of oids r).
Proof.
  simpl; rewrite multigetnext_exchange; simpl.
  set (call := exchange_call _ _ _ _ _ _).
  intros Hcall; exists call.
  assert (Hdatagram : getnext_datagram ip port community timeout oids call).
  { eexists; reflexivity. }
  destruct (answer_to _ _ _ _ _ _) as [|[e|m]];
    injection Hcall as <- <-;
    (split; [reflexivity|]); (split; [exact Hdatagram|]);
    intros vbs Hvbs; try discriminate.
  destruct (_ =? _)%nat eqn:Hlen; [|discriminate].
  destruct (successors_ok _ _) eqn:Hok; [|discriminate].
  injection Hvbs as <-.
  apply successors_ok_true; [apply Nat.eqb_eq; exact Hlen | exact Hok].
Qed.

(** What one call of the bulk fetcher sends. *)
Lemma bulkwalk_fetcher_sends bulk_size ip community port timeout oids w
      (r : Result (list (@VarBind Value))) w1 :
  fetcher_call (_bulkwalk_fetcher bulk_size) ip community oids port timeout w
  = (r, w1) ->
  exists call,
    sent w1 = sent w ++ [call] /\
    bulk_datagram ip port community timeout bulk_size oids call.
Proof.
  unfold _bulkwalk_fetcher; simpl; unfold bind.
  rewrite bulkget_exchange; simpl.
  set (call := exchange_call _ _ _ _ _ _).
  intros Hcall; exists call.
  assert (Hdatagram :
            bulk_datagram ip port community timeout bulk_size oids call).
  { eexists; reflexivity. }
  destruct (answer_to _ _ _ _ _ _) as [|[e|m]]; simpl in Hcall;
    try destruct (_ >? _)%Z; simpl in Hcall;
    injection Hcall as _ <-; split; try reflexivity; exact Hdatagram.
Qed.

(** X17.  A multiwalk with the default fetcher, and a walk, send exactly
    one datagram per fetch, in the order of the fetches: a GETNEXT for the
    OIDs of the fetch, to the ip and port given, with the community and the
    timeout given to the multiwalk or to the walk. *)
Theorem walk_sends_one_getnext_per_fetch :
  forall fuel ip community port timeout errors w,
    (forall oids,
        let run :=
          multiwalk fuel ip community oids port timeout
                    (@multigetnext_fetcher Value) errors w in
        exists new,
          sent (run_world run) = sent w ++ new /\
          fetches_sent
            (fun fetched _ call =>
               getnext_datagram ip port community timeout fetched call)
            (run_events run) new) /\
    (forall requested,
        let run := walk fuel ip community requested port timeout errors w in
        exists new,
          sent (run_world run) = sent w ++ new /\
          fetches_sent
            (fun fetched _ call =>
               getnext_datagram ip port community timeout fetched call)
            (run_events run) new).
Proof.
  intros fuel ip community port timeout errors w.
  assert (Hmulti :
            forall oids,
              let run :=
                multiwalk fuel ip community oids port timeout
                          (@multigetnext_fetcher Value) errors w in
              exists new,
                sent (run_world run) = sent w ++ new /\
                fetches_sent
                  (fun fetched _ call =>
                     getnext_datagram ip port community timeout fetched call)
                  (run_events run) new).
  { intros oids run.
    destruct (@multiwalk_sends
                ip community port timeout multigetnext_fetcher errors
                (fun fetched r call =>
                   getnext_datagram ip port community timeout fetched call /\
                   successors_of fetched r)
                (@multigetnext_fetcher_sends ip community port timeout)
                fuel oids w)
      as (new & Hsent & Hfetches).
    exists new; split; [exact Hsent|].
    eapply fetches_sent_weaken; [|exact Hfetches].
    intros fetched r call [Hdatagram _]; exact Hdatagram. }
  split; [exact Hmulti|].
  intros requested; unfold walk; exact (Hmulti [requested]).
Qed.

(** X18.  A bulkwalk sends exactly one datagram per fetch: a GETBULK for
    the OIDs of the fetch with no non-repeaters and bulk_size repetitions,
    to the ip and port given, with the community given and the timeout
    2. *)
Theorem bulkwalk_sends_one_getbulk_per_fetch :
  forall fuel ip community oids bulk_size port w,
    let run :=
      bulkwalk fuel ip community (PyList oids) bulk_size port w in
    exists new,
      sent (run_world run) = sent w ++ new /\
      fetches_sent
        (fun fetched _ call =>
           bulk_datagram ip port community 2 bulk_size fetched call)
        (run_events run) new.
Proof.
  intros fuel ip community oids bulk_size port w run.
  subst run; unfold bulkwalk, default_timeout, run_world at 1,
                    run_events at 1; simpl.
  rewrite reyield_id.
  exact (@multiwalk_sends
           ip community port 2 (_bulkwalk_fetcher bulk_size) ERRORS_STRICT
           (fun fetched _ call =>
              bulk_datagram ip port community 2 bulk_size fetched call)
           (@bulkwalk_fetcher_sends bulk_size ip community port 2)
           fuel oids w).
Qed.

(** X19.  The successor check holds all along a walk with the default
    fetcher: whenever a fetch of the walk returns, it returns one varbind
    per OID fetched, each with an OID strictly greater than the OID fetched
    at its position. *)
Theorem walk_fetches_return_successors :
  forall fuel ip community oids port timeout errors w fetched vbs,
    let run :=
      multiwalk fuel ip community oids port timeout
                (@multigetnext_fetcher Value) errors w in
    In (Fetch fetched (Return vbs)) (run_events run) ->
    Forall2 (fun requested retrieved =>
               oid_ltb (OID requested) (oid retrieved) = true)
            fetched vbs.
Proof.
  intros fuel ip community oids port timeout errors w fetched vbs run Hin.
  destruct (@multiwalk_sends
              ip community port timeout multigetnext_fetcher errors
              (fun fetched r call =>
                 getnext_datagram ip port community timeout fetched call /\
                 successors_of fetched r)
              (@multigetnext_fetcher_sends ip community port timeout)
              fuel oids w)
    as (new & _ & Hfetches).
  destruct (fetches_sent_each Hfetches _ _ Hin) as (call & _ & Hsucc).
  exact (Hsucc vbs eq_refl).
Qed.

End WalkDatagrams.

(** ** What a walk yields *)

Section YieldFacts.
Context {Value : Type} {ops : TypeOps Value}.

Implicit Types (w : @World Value) (events : list (@WalkEvent Value)).

Lemma slice_step_incl (A : Type) (n : nat) (l : list A) :
  forall skip x, In x (slice_step skip n l) -> In x l.
Proof.
  induction l as [|y l IH]; intros skip x; simpl; [tauto|].
  destruct skip as [|skip]; simpl.
  - intros [-> | Hin]; [left; reflexivity | right; exact (IH _ _ Hin)].
  - intros Hin; right; exact (IH _ _ Hin).
Qed.

Lemma dict_set_values (K : Type) (key : PyKey K) (V : Type)
      (d : dict K V) k v x :
  In x (dict_values (dict_set d k v)) -> x = v \/ In x (dict_values d).
Proof.
  unfold dict_values.
  induction d as [|[k' v'] d IH]; simpl.
  - intros [<- | []]; left; reflexivity.
  - destruct (key_eqb k' k); simpl.
    + intros [<- | Hin]; [left; reflexivity | right; right; exact Hin].
    + intros [<- | Hin]; [right; left; reflexivity|].
      destruct (IH Hin) as [-> | H];
        [left; reflexivity | right; right; exact H].
Qed.

(** The groups of a round hold varbinds of the round only. *)
Lemma group_varbinds_values (varbinds : list (@VarBind Value))
      effective_roots user_roots var :
  In var (dict_values (group_varbinds varbinds effective_roots user_roots)) ->
  incl var varbinds.
Proof.
  unfold group_varbinds.
  set (n := length effective_roots).
  assert (Hresults :
            forall pairs (d : dict ObjectIdentifier (list (@VarBind Value))),
              (forall x, In x (dict_values d) -> incl x varbinds) ->
              forall x,
                In x (dict_values
                        (fold_left
                           (fun d ir =>
                              dict_set d (snd ir)
                                       (slice_step (fst ir) n varbinds))
                           pairs d)) ->
                incl x varbinds).
  { induction pairs as [|[i root] pairs IH]; intros d Hd x; simpl;
      [apply Hd|].
    apply IH. intros y Hy.
    apply dict_set_values in Hy as [-> | Hy]; [|exact (Hd y Hy)].
    intros z Hz; exact (slice_step_incl _ _ _ _ Hz). }
  specialize (Hresults (combine (seq 0 n) effective_roots) []
                       (fun x (H : In x []) => match H with end)).
  destruct user_roots as [|root user_roots]; [apply Hresults|].
  match type of Hresults with
  | forall x, In x (dict_values ?r) -> _ =>
      remember r as results eqn:Eresults; clear Eresults
  end.
  unfold dict_items.
  assert (Hrekey :
            forall items (d : dict ObjectIdentifier (list (@VarBind Value))),
              (forall x, In x (dict_values items) -> incl x varbinds) ->
              (forall x, In x (dict_values d) -> incl x varbinds) ->
              forall x,
                In x (dict_values
                        (fold_left
                           (fun new_results kv =>
                              match find (fun base => oid_in (fst kv) base)
                                         (root :: user_roots) with
                              | Some base => dict_set new_results base (snd kv)
                              | None => new_results
                              end)
                           items d)) ->
                incl x varbinds).
  { induction items as [|[k v] items IH]; intros d Hitems Hd x;
      [apply Hd|].
    cbn [fold_left]. apply IH.
    - intros y Hy; apply Hitems; right; exact Hy.
    - intros y Hy. cbn [fst snd] in Hy.
      destruct (find _ (root :: user_roots)); [|exact (Hd y Hy)].
      apply dict_set_values in Hy as [-> | Hy]; [|exact (Hd y Hy)].
      apply Hitems; left; reflexivity. }
  apply Hrekey; [exact Hresults|].
  intros x [].
Qed.

(** A sort that returns gives back the items it was given. *)
Lemma insert_sorted_In (A : Type) (lt : A -> A -> Result bool) a :
  forall l l' x,
    insert_sorted lt a l = Return l' -> In x l' -> x = a \/ In x l.
Proof.
  induction l as [|y l IH]; intros l' x; simpl.
  - intros E; injection E as <-; intros [<- | []]; left; reflexivity.
  - destruct (lt y a) as [[|]|e]; [|intros E; injection E as <-|discriminate].
    + destruct (insert_sorted lt a l) as [l''|e] eqn:El; [|discriminate].
      intros E; injection E as <-.
      intros [<- | Hin]; [right; left; reflexivity|].
      destruct (IH _ _ eq_refl Hin) as [-> | H];
        [left; reflexivity | right; right; exact H].
    + intros [<- | Hin]; [left; reflexivity | right; exact Hin].
Qed.

Lemma sorted_In (A : Type) (lt : A -> A -> Result bool) :
  forall l l' x, sorted lt l = Return l' -> In x l' -> In x l.
Proof.
  induction l as [|y l IH]; intros l' x; simpl.
  - intros E; injection E as <-; intros [].
  - destruct (sorted lt l) as [tail|e] eqn:El; [|discriminate].
    intros Hinsert Hin.
    destruct (insert_sorted_In _ _ _ _ Hinsert Hin) as [-> | H];
      [left; reflexivity | right; exact (IH _ _ eq_refl H)].
Qed.

Lemma yield_group_incl log_skipped requested_oids var :
  forall yielded events yielded' vb,
    yield_group log_skipped requested_oids var yielded
    = (events, yielded') ->
    In vb (yields events) -> In vb var.
Proof.
  induction var as [|varbind rest IH]; intros yielded events yielded' vb;
    simpl.
  - intros E; injection E as <- <-; intros [].
  - destruct (negb _ || set_mem _ _).
    + destruct (yield_group _ _ rest yielded) as [events0 yielded0] eqn:E0.
      intros E; injection E as <- <-.
      rewrite yields_app.
      replace (yields (if log_skipped
                       then [Log (DebugUnexpected varbind)] else []))
        with (@nil (@VarBind Value)) by (destruct log_skipped; reflexivity).
      intros Hin; right; exact (IH _ _ _ _ E0 Hin).
    + destruct (yield_group _ _ rest _) as [events0 yielded0] eqn:E0.
      intros E; injection E as <- <-.
      intros [<- | Hin]; [left; reflexivity | right; exact (IH _ _ _ _ E0 Hin)].
Qed.

Lemma yield_groups_incl log_skipped requested_oids vars :
  forall yielded events yielded' vb,
    yield_groups log_skipped requested_oids vars yielded
    = (events, yielded') ->
    In vb (yields events) -> exists var, In var vars /\ In vb var.
Proof.
  induction vars as [|var rest IH]; intros yielded events yielded' vb; simpl.
  - intros E; injection E as <- <-; intros [].
  - destruct (yield_group _ _ var yielded) as [events1 yielded1] eqn:E1.
    destruct (yield_groups _ _ rest yielded1) as [events2 yielded2] eqn:E2.
    intros E; injection E as <- <-.
    rewrite yields_app; intros Hin; apply in_app_iff in Hin as [Hin | Hin].
    + exists var; split; [left; reflexivity|].
      eapply yield_group_incl; eassumption.
    + destruct (IH _ _ _ _ E2 Hin) as (var' & Hvar & Hvb).
      exists var'; split; [right; exact Hvar | exact Hvb].
Qed.

(** What a round yields was returned by the fetch of the round. *)
Lemma round_yields_fetched log_skipped requested_oids
      (varbinds : list (@VarBind Value)) effective_roots user_roots
      vars yielded events yielded' vb :
  sorted varbinds_lt
         (dict_values (group_varbinds varbinds effective_roots user_roots))
  = Return vars ->
  yield_groups log_skipped requested_oids vars yielded
  = (events, yielded') ->
  In vb (yields events) -> In vb varbinds.
Proof.
  intros Hsort Hy Hin.
  destruct (@yield_groups_incl _ _ _ _ _ _ _ Hy Hin) as (var & Hvar & Hvb).
  pose proof (@sorted_In _ _ _ _ _ Hsort Hvar) as Hgroup.
  exact (@group_varbinds_values _ _ _ _ Hgroup _ Hvb).
Qed.

Lemma walk_rounds_yields_fetched ip community port timeout
      (fetcher : @Fetcher Value) errors total requested_oids fuel :
  forall unfinished_oids yielded w events outcome w' vb,
    walk_rounds fuel ip community port timeout fetcher errors total
                requested_oids unfinished_oids yielded w
    = (events, outcome, w') ->
    In vb (yields events) ->
    exists fetched varbinds,
      In (Fetch fetched (Return varbinds)) events /\ In vb varbinds.
Proof.
  induction fuel as [|fuel IH];
    intros unfinished_oids yielded w events outcome w' vb Hrun;
    apply walk_rounds_inv in Hrun
      as [(-> & _) | [(fuel' & e0 & post0 & Hfuel & _ & -> & Hend)
                     | [(fuel' & varbinds & w1 & vars & events1 & yielded1
                         & events2 & Hfuel & _ & Hsort & Hy & Hr & ->)
                       | (fuel' & varbinds & e1 & Hfuel & _ & _ & -> & _)]]];
    try discriminate; try (intros []).
  - apply ends_with_post in Hend as [-> | ->]; intros [].
  - injection Hfuel as <-.
    change (yields (?a :: ?b :: events1 ++ events2))
      with (yields (events1 ++ events2)).
    rewrite yields_app; intros Hin; apply in_app_iff in Hin as [Hin | Hin].
    + exists (frontier unfinished_oids), varbinds; split;
        [left; reflexivity|].
      eapply round_yields_fetched; eassumption.
    + destruct (IH _ _ _ _ _ _ _ Hr Hin) as (fetched & vbs & Hev & Hvb).
      exists fetched, vbs; split; [|exact Hvb].
      right; right; apply in_or_app; right; exact Hev.
Qed.

(** X20.  A walk makes nothing up: every varbind that a multiwalk yields
    is one of the varbinds that a fetch of the walk returned. *)
Theorem walk_yields_only_what_was_fetched :
  forall fuel ip community oids port timeout (fetcher : @Fetcher Value)
         errors w vb,
    let run :=
      multiwalk fuel ip community oids port timeout fetcher errors w in
    In vb (yields (run_events run)) ->
    exists fetched varbinds,
      In (Fetch fetched (Return varbinds)) (run_events run) /\
      In vb varbinds.
Proof.
  intros fuel ip community oids port timeout fetcher errors w vb run.
  destruct run as [[events outcome] w'] eqn:Hrun; subst run.
  unfold run_events; simpl.
  apply multiwalk_inv in Hrun
    as [(e0 & _ & -> & ->)
       | [(varbinds & w1 & vars & events1 & yielded1 & events2
           & _ & Hsort & Hy & Hr & ->)
         | (varbinds & e1 & _ & _ & -> & _)]];
    [intros [] | | intros []].
  - change (yields (?a :: ?b :: ?c :: events1 ++ events2))
      with (yields (events1 ++ events2)).
    rewrite yields_app; intros Hin; apply in_app_iff in Hin as [Hin | Hin].
    + exists oids, varbinds; split; [right; left; reflexivity|].
      eapply round_yields_fetched; eassumption.
    + destruct (@walk_rounds_yields_fetched
                  _ _ _ _ _ _ _ _ _ _ _ _ _ _ _ _ Hr Hin)
        as (fetched & vbs & Hev & Hvb).
      exists fetched, vbs; split; [|exact Hvb].
      right; right; right; apply in_or_app; right; exact Hev.
Qed.

End YieldFacts.

(** ** The order of what a walk of one base yields *)

Lemma oid_ltb_trans (a b c : ObjectIdentifier) :
  oid_ltb a b = true -> oid_ltb b c = true -> oid_ltb a c = true.
Proof.
  revert b c; induction a as [|x a IH]; intros [|y b] [|z c]; simpl;
    try discriminate; try reflexivity.
  destruct (N.eqb x y) eqn:Exy.
  - apply N.eqb_eq in Exy; subst y.
    destruct (N.eqb x z); [apply IH | tauto].
  - destruct (N.eqb y z) eqn:Eyz.
    + apply N.eqb_eq in Eyz; subst z. rewrite Exy; tauto.
    + intros Hxy Hyz. apply N.ltb_lt in Hxy; apply N.ltb_lt in Hyz.
      destruct (N.eqb x z) eqn:Exz; [apply N.eqb_eq in Exz; lia|].
      apply N.ltb_lt; lia.
Qed.




(** ** The sorted of a round

    [Type.__eq__] is taken to be equality of the tagged values. *)
Section SortedGroups.
Context {Value : Type} {ops : TypeOps Value}.
Hypothesis value_eqb_eq : forall a b : Value, value_eqb a b = true <-> a = b.

Implicit Types (x y z : @VarBind Value) (a b c : list (@VarBind Value)).


















End SortedGroups.

Section OneBase.
Context {Value : Type} {ops : TypeOps Value}.
Variable base : ObjectIdentifier.

Implicit Types (w : @World Value) (vb last : @VarBind Value).

Lemma group_of_first_round vb :
  group_varbinds [vb] [base] [] = [(base, [vb])].
Proof. reflexivity. Qed.

Lemma group_of_later_round root vb :
  oid_in root base = true ->
  group_varbinds [vb] [root] [base] = [(base, [vb])].
Proof.
  intros Hin; unfold group_varbinds; simpl.
  rewrite Hin; reflexivity.
Qed.

Lemma unfinished_of_one_group vb :
  get_unfinished_walk_oids [(base, [vb])]
  = if oid_in (oid vb) base then [(base, mkWalkRow vb true)] else [].
Proof.
  unfold get_unfinished_walk_oids; simpl.
  destruct (oid_in (oid vb) base); reflexivity.
Qed.

(** One group is sorted without a comparison. *)
Lemma sorted_one_group vb :
  sorted varbinds_lt (dict_values [(base, [vb])]) = Return [[vb]].
Proof. reflexivity. Qed.

Lemma yields_of_one_group log_skipped vb yielded events yielded' :
  yield_groups log_skipped [base] [[vb]] yielded = (events, yielded') ->
  yields events = [] \/ yields events = [vb].
Proof.
  simpl.
  destruct (negb _ || set_mem _ _); destruct log_skipped;
    intros E; injection E as <- _; simpl; auto.
Qed.

Lemma one_successor (requested : OidStr)
      (varbinds : list (@VarBind Value)) :
  Forall2 (fun requested retrieved =>
             oid_ltb (OID requested) (oid retrieved) = true)
          [requested] varbinds ->
  exists vb, varbinds = [vb] /\ oid_ltb (OID requested) (oid vb) = true.
Proof.
  intros H; inversion H as [|? vb ? rest Hlt Hrest]; subst.
  inversion Hrest; subst.
  exists vb; split; [reflexivity | exact Hlt].
Qed.

(** From a base that is unfinished at [last], the loop yields OIDs greater
    than the one of [last], in increasing order. *)
Lemma one_base_rounds ip community port timeout errors total fuel :
  forall last yielded w events outcome w',
    oid_in (oid last) base = true ->
    walk_rounds fuel ip community port timeout multigetnext_fetcher errors
                total [base] [(base, mkWalkRow last true)] yielded w
    = (events, outcome, w') ->
    Forall (fun vb => oid_ltb (oid last) (oid vb) = true) (yields events) /\
    ForallOrdPairs (fun x y => oid_ltb (oid x) (oid y) = true)
                   (yields events).
Proof.
  induction fuel as [|fuel IH];
    intros last yielded w events outcome w' Hlast Hrun;
    apply walk_rounds_inv in Hrun
      as [(-> & _) | [(fuel' & e0 & post0 & Hfuel & _ & -> & Hend)
                     | [(fuel' & varbinds & w1 & vars & events1 & yielded1
                         & events2 & Hfuel & Hf & Hsort & Hy & Hr & ->)
                       | (fuel' & varbinds & e1 & Hfuel & _ & _ & -> & _)]]];
    try discriminate Hfuel; try solve [split; constructor].
  - apply ends_with_post in Hend as [-> | ->]; split; constructor.
  - injection Hfuel as <-.
    destruct (multigetnext_fetcher_sends _ _ _ _ _ _ Hf)
      as (_ & _ & _ & Hsucc).
    destruct (one_successor (Hsucc _ eq_refl)) as (vb & -> & Hlt).
    cbn [map snd row_value] in Hsort, Hr.
    change (oid_ltb (oid last) (oid vb) = true) in Hlt.
    rewrite (@group_of_later_round (oid last) vb Hlast) in Hsort, Hr.
    rewrite sorted_one_group in Hsort; injection Hsort as <-.
    rewrite unfinished_of_one_group in Hr.
    change (yields (?a :: ?b :: events1 ++ events2))
      with (yields (events1 ++ events2)).
    rewrite yields_app.
    assert (Hrest :
              Forall (fun x => oid_ltb (oid vb) (oid x) = true)
                     (yields events2) /\
              ForallOrdPairs (fun x y => oid_ltb (oid x) (oid y) = true)
                             (yields events2)).
    { destruct (oid_in (oid vb) base) eqn:Hvb.
      - exact (IH _ _ _ _ _ _ Hvb Hr).
      - destruct fuel; simpl in Hr; injection Hr as <- _ _;
          split; constructor. }
    destruct Hrest as [Hgreater Hsorted].
    assert (Hlast_rest :
              Forall (fun x => oid_ltb (oid last) (oid x) = true)
                     (yields events2)).
    { eapply Forall_impl; [|exact Hgreater].
      intros x Hx; exact (@oid_ltb_trans _ _ _ Hlt Hx). }
    destruct (@yields_of_one_group _ _ _ _ _ Hy) as [-> | ->]; simpl.
    + split; assumption.
    + split; constructor; assumption.
Qed.

Lemma rounds_of_finished ip community port timeout errors total fuel
      yielded w events outcome w' :
  walk_rounds fuel ip community port timeout multigetnext_fetcher errors
              total [base] [] yielded w
  = (events, outcome, w') ->
  events = [] /\ outcome = Exhausted.
Proof.
  destruct fuel; simpl; intros E; injection E as <- <- _; split; reflexivity.
Qed.

(** What follows a fetch that returned the one varbind [vb]: the end of the
    walk when [vb] lies outside the base, and otherwise, if anything is
    fetched again, a fetch of the OID of [vb]. *)
Lemma after_a_fetch ip community port timeout errors total fuel
      rec log_skipped vb yielded events1 yielded1 w1 events2 outcome w' :
  yield_groups log_skipped [base] [[vb]] yielded = (events1, yielded1) ->
  walk_rounds fuel ip community port timeout multigetnext_fetcher errors
              total [base]
              (if oid_in (oid vb) base
               then [(base, mkWalkRow vb true)] else [])
              yielded1 w1
  = (events2, outcome, w') ->
  (oid_in (oid vb) base = false ->
   filter is_fetch (Log rec :: events1 ++ events2) = [] /\
   yields (Log rec :: events1 ++ events2) = [] /\
   outcome = Exhausted) /\
  (oid_in (oid vb) base = true ->
   forall f r,
     hd_error (filter is_fetch (Log rec :: events1 ++ events2))
     = Some (Fetch f r) ->
     f = [unicode (oid vb)]).
Proof.
  intros Hy Hr.
  destruct (yield_groups_fresh _ _ _ _ Hy) as [(Hc & _) Hquiet].
  split; intros Hin; rewrite Hin in Hr.
  - apply rounds_of_finished in Hr as [-> ->].
    rewrite app_nil_r.
    split; [simpl; apply (quiet_no_fetch Hquiet)|].
    split; [|reflexivity].
    change (yields (Log rec :: events1)) with (yields events1).
    destruct (@yields_of_one_group _ _ _ _ _ Hy) as [E | E]; [exact E|].
    rewrite E in Hc; inversion Hc as [|? ? Hvb _].
    unfold contained in Hvb; simpl in Hvb; rewrite Hin in Hvb.
    discriminate Hvb.
  - intros f r; simpl.
    rewrite filter_app, (quiet_no_fetch Hquiet); simpl.
    apply walk_rounds_inv in Hr
      as [(-> & _) | [(fuel' & e0 & post0 & _ & _ & -> & _)
                     | [(fuel' & varbinds & w2 & vars & ev1 & y1 & ev2
                         & _ & _ & _ & _ & _ & ->)
                       | (fuel' & varbinds & e1 & _ & _ & _ & -> & _)]]];
      simpl.
    + discriminate.
    + intros E; injection E as <- _; reflexivity.
    + intros E; injection E as <- _; reflexivity.
    + intros E; injection E as <- _; reflexivity.
Qed.

Lemma not_in_quiet_events (events1 events2 pre post : list (@WalkEvent Value))
      fetched r :
  Forall quiet events1 ->
  events1 ++ events2 = pre ++ Fetch fetched r :: post ->
  exists pre', events2 = pre' ++ Fetch fetched r :: post.
Proof.
  intros Hquiet Hsplit; symmetry in Hsplit.
  apply (app_cons_in_back (fun e => is_fetch e = true)) in Hsplit
    as (pre' & _ & Hback); [exists pre'; exact Hback | | reflexivity].
  eapply Forall_impl; [|exact Hquiet].
  intros e [He _]; rewrite He; discriminate.
Qed.

Lemma one_base_rounds_chain ip community port timeout errors total fuel :
  forall last yielded w events outcome w' pre fetched vb post,
    oid_in (oid last) base = true ->
    walk_rounds fuel ip community port timeout multigetnext_fetcher errors
                total [base] [(base, mkWalkRow last true)] yielded w
    = (events, outcome, w') ->
    events = pre ++ Fetch fetched (Return [vb]) :: post ->
    (oid_in (oid vb) base = false ->
     filter is_fetch post = [] /\ yields post = [] /\
     outcome = Exhausted) /\
    (oid_in (oid vb) base = true ->
     forall f r,
       hd_error (filter is_fetch post) = Some (Fetch f r) ->
       f = [unicode (oid vb)]).
Proof.
  induction fuel as [|fuel IH];
    intros last yielded w events outcome w' pre fetched vb post
           Hlast Hrun Hsplit;
    apply walk_rounds_inv in Hrun
      as [(-> & _) | [(fuel' & e0 & post0 & Hfuel & _ & -> & Hend)
                     | [(fuel' & varbinds & w1 & vars & events1 & yielded1
                         & events2 & Hfuel & Hf & Hsort & Hy & Hr & ->)
                       | (fuel' & varbinds & e1 & Hfuel & Hf & Hsort & ->
                          & _)]]];
    try discriminate Hfuel;
    try (destruct pre; discriminate Hsplit).
  - apply ends_with_post in Hend as [-> | ->];
      destruct pre as [|x [|y [|z pre]]]; discriminate Hsplit.
  - injection Hfuel as <-.
    destruct (multigetnext_fetcher_sends _ _ _ _ _ _ Hf)
      as (_ & _ & _ & Hsucc).
    destruct (one_successor (Hsucc _ eq_refl)) as (vb' & -> & _).
    cbn [map snd row_value] in Hsort, Hr.
    rewrite (@group_of_later_round (oid last) vb' Hlast) in Hsort, Hr.
    rewrite sorted_one_group in Hsort; injection Hsort as <-.
    rewrite unfinished_of_one_group in Hr.
    destruct pre as [|x [|y pre]]; simpl in Hsplit.
    + injection Hsplit as _ <- <-.
      eapply after_a_fetch; eassumption.
    + discriminate Hsplit.
    + injection Hsplit as _ _ Hrest.
      destruct (yield_groups_fresh _ _ _ _ Hy) as [_ Hquiet].
      destruct (@not_in_quiet_events _ _ _ _ _ _ Hquiet Hrest)
        as (pre' & Hback).
      destruct (oid_in (oid vb') base) eqn:Hvb.
      * exact (IH _ _ _ _ _ _ _ _ _ _ Hvb Hr Hback).
      * apply rounds_of_finished in Hr as [-> _].
        destruct pre'; discriminate Hback.
  - exfalso.
    destruct (multigetnext_fetcher_sends _ _ _ _ _ _ Hf)
      as (_ & _ & _ & Hsucc).
    destruct (one_successor (Hsucc _ eq_refl)) as (vb' & -> & _).
    cbn [map snd row_value] in Hsort.
    rewrite (@group_of_later_round (oid last) vb' Hlast) in Hsort.
    discriminate Hsort.
Qed.

End OneBase.

Section OneBaseWalk.
Context {Value : Type} {ops : TypeOps Value}.

(** X21.  A walk of one base yields its varbinds in strictly increasing
    order of OID, and every OID it yields is strictly greater than the base
    it was asked to walk. *)
Theorem walk_yields_in_increasing_order :
  forall fuel ip community requested port timeout errors (w : @World Value),
    let run := walk fuel ip community requested port timeout errors w in
    ForallOrdPairs (fun x y => oid_ltb (oid x) (oid y) = true)
                   (yields (run_events run)) /\
    Forall (fun vb => oid_ltb (OID requested) (oid vb) = true)
           (yields (run_events run)).
Proof.
  intros fuel ip community requested port timeout errors w run.
  destruct run as [[events outcome] w'] eqn:Hrun; subst run.
  unfold run_events; simpl.
  unfold walk in Hrun.
  apply multiwalk_inv in Hrun
    as [(e0 & _ & -> & ->)
       | [(varbinds & w1 & vars & events1 & yielded1 & events2
           & Hf & Hsort & Hy & Hr & ->)
         | (varbinds & e1 & _ & _ & -> & _)]];
    [split; constructor | | split; constructor].
  destruct (multigetnext_fetcher_sends _ _ _ _ _ _ Hf)
    as (_ & _ & _ & Hsucc).
  destruct (one_successor (Hsucc _ eq_refl)) as (vb & -> & Hlt).
  cbn [map] in Hsort, Hy, Hr.
  rewrite group_of_first_round in Hsort, Hr.
  rewrite sorted_one_group in Hsort; injection Hsort as <-.
  rewrite unfinished_of_one_group in Hr.
  change (yields (?a :: ?b :: ?c :: events1 ++ events2))
    with (yields (events1 ++ events2)).
  rewrite yields_app.
  assert (Hrest :
            Forall (fun x => oid_ltb (oid vb) (oid x) = true)
                   (yields events2) /\
            ForallOrdPairs (fun x y => oid_ltb (oid x) (oid y) = true)
                           (yields events2)).
  { destruct (oid_in (oid vb) (OID requested)) eqn:Hvb.
    - eapply one_base_rounds; eassumption.
    - destruct fuel; simpl in Hr; injection Hr as <- _ _;
        split; constructor. }
  destruct Hrest as [Hgreater Hsorted].
  assert (Hbase_rest :
            Forall (fun x => oid_ltb (OID requested) (oid x) = true)
                   (yields events2)).
  { eapply Forall_impl; [|exact Hgreater].
    intros x Hx; exact (@oid_ltb_trans _ _ _ Hlt Hx). }
  destruct (@yields_of_one_group _ _ _ _ _ _ _ Hy) as [-> | ->]; simpl.
  - split; assumption.
  - split; constructor; assumption.
Qed.

(** X25.  A walk of one base follows the agent from OID to OID: when a
    fetch returns a varbind outside the base, the walk ends there, nothing
    more is fetched or yielded and the stream ends without an error; when
    it returns a varbind inside the base, the next fetch, if there is one,
    asks for the OID of this very varbind. *)
Theorem walk_stops_outside_the_base_or_goes_on :
  forall fuel ip community requested port timeout errors (w : @World Value)
         pre fetched vb post,
    let run := walk fuel ip community requested port timeout errors w in
    run_events run = pre ++ Fetch fetched (Return [vb]) :: post ->
    (oid_in (oid vb) (OID requested) = false ->
     filter is_fetch post = [] /\ yields post = [] /\
     run_outcome run = Exhausted) /\
    (oid_in (oid vb) (OID requested) = true ->
     forall f r,
       hd_error (filter is_fetch post) = Some (Fetch f r) ->
       f = [unicode (oid vb)]).
Proof.
  intros fuel ip community requested port timeout errors w
         pre fetched vb post run.
  destruct run as [[events outcome] w'] eqn:Hrun; subst run.
  unfold run_events, run_outcome; simpl.
  intros Hsplit; unfold walk in Hrun.
  apply multiwalk_inv in Hrun
    as [(e0 & _ & -> & ->)
       | [(varbinds & w1 & vars & events1 & yielded1 & events2
           & Hf & Hsort & Hy & Hr & ->)
         | (varbinds & e1 & Hf & Hsort & -> & _)]].
  - destruct pre as [|x [|y [|z pre]]]; discriminate Hsplit.
  - destruct (multigetnext_fetcher_sends _ _ _ _ _ _ Hf)
      as (_ & _ & _ & Hsucc).
    destruct (one_successor (Hsucc _ eq_refl)) as (vb' & -> & _).
    cbn [map] in Hsort, Hy, Hr.
    rewrite group_of_first_round in Hsort, Hr.
    rewrite sorted_one_group in Hsort; injection Hsort as <-.
    rewrite unfinished_of_one_group in Hr.
    destruct pre as [|x [|y [|z pre]]]; simpl in Hsplit;
      try discriminate Hsplit.
    + injection Hsplit as _ _ <- <-.
      eapply after_a_fetch; eassumption.
    + injection Hsplit as _ _ _ Hrest.
      destruct (yield_groups_fresh _ _ _ _ Hy) as [_ Hquiet].
      destruct (@not_in_quiet_events _ _ _ _ _ _ _ Hquiet Hrest)
        as (pre' & Hback).
      destruct (oid_in (oid vb') (OID requested)) eqn:Hvb.
      * eapply one_base_rounds_chain; eassumption.
      * apply rounds_of_finished in Hr as [-> _].
        destruct pre'; discriminate Hback.
  - exfalso.
    destruct (multigetnext_fetcher_sends _ _ _ _ _ _ Hf)
      as (_ & _ & _ & Hsucc).
    destruct (one_successor (Hsucc _ eq_refl)) as (vb' & -> & _).
    cbn [map] in Hsort.
    rewrite group_of_first_round in Hsort.
    discriminate Hsort.
Qed.

(** X26.  walk hands its errors argument on to the loop: when a fetch
    other than the first raises FaultySNMPImplementation, a walk in warn
    mode logs the one warning and ends without an error, and a walk with
    any other value of errors raises the exception, nothing following the
    fetch. *)
Theorem walk_hands_the_error_mode_on :
  forall fuel ip community requested port timeout errors (w : @World Value)
         pre fetched post,
    let run := walk fuel ip community requested port timeout errors w in
    run_events run
    = pre ++ Fetch fetched (Raise FaultySNMPImplementation) :: post ->
    Exists (fun ev => is_fetch ev = true) pre ->
    (errors = ERRORS_WARN ->
     post = [Log (WarningAborted ip fetched FaultySNMPImplementation)] /\
     run_outcome run = Exhausted) /\
    (errors <> ERRORS_WARN ->
     post = [] /\
     run_outcome run = Propagated FaultySNMPImplementation).
Proof.
  intros fuel ip community requested port timeout errors w
         pre fetched post run.
  destruct run as [[events outcome] w'] eqn:Hrun; subst run.
  unfold run_events, run_outcome; simpl.
  intros Hsplit Hpre; unfold walk in Hrun.
  destruct (@multiwalk_failed_fetch
              _ _ _ _ _ _ _ _ _ _ _ _ _ _ _ _ _ _ Hrun Hsplit)
    as [(Hnone & _) | (_ & Hend)].
  - exfalso. apply Exists_exists in Hpre as (ev & Hin & Hev).
    rewrite Forall_forall in Hnone. rewrite (Hnone ev Hin) in Hev.
    discriminate.
  - unfold ends_with in Hend; split; intros Herrors.
    + apply String.eqb_eq in Herrors; rewrite Herrors in Hend; exact Hend.
    + apply String.eqb_neq in Herrors; rewrite Herrors in Hend; exact Hend.
Qed.

End OneBaseWalk.

(** ** table *)

Section TableFacts.
Context {Value : Type} {ops : TypeOps Value}.
Variable Row : Type.
Variable tablify : list (@VarBind Value) -> Z -> list Row.

Lemma fetches_sent_calls
      (shape : list OidStr -> Result (list (@VarBind Value)) ->
               @SendCall Value -> Prop) events calls :
  fetches_sent shape events calls ->
  Forall (fun call => exists oids r, shape oids r call) calls.
Proof.
  unfold fetches_sent.
  induction 1 as [|ev call evs calls (oids & r & _ & Hshape) _ IH];
    constructor; [|exact IH].
  exists oids, r; exact Hshape.
Qed.

(** X22.  table takes only ip, community, oid and port to the walk: every
    datagram it sends is a GETNEXT to the ip and port given with the
    timeout 2, and the walk is strict, so that any exception but NoSuchOID
    that a fetch raises, FaultySNMPImplementation too, is raised by table
    instead of rows. *)
Theorem table_is_a_strict_getnext_walk :
  forall fuel ip community requested port num_base_nodes (w : @World Value),
    let result :=
      table tablify fuel ip community requested port num_base_nodes w in
    (exists new,
        sent (snd result) = sent w ++ new /\
        Forall (fun call =>
                  exists oids,
                    getnext_datagram ip port community 2 oids call) new) /\
    (forall fetched e,
        In (Fetch fetched (Raise e))
           (run_events (walk fuel ip community requested port 2
                             ERRORS_STRICT w)) ->
        e <> NoSuchOID ->
        fst result = Some (Raise e)).
Proof.
  intros fuel ip community requested port num_base_nodes w result.
  subst result; unfold table, default_timeout; simpl fst; simpl snd.
  split.
  - destruct (@multiwalk_sends
                Value ops ip community port 2 multigetnext_fetcher
                ERRORS_STRICT
                (fun fetched r call =>
                   getnext_datagram ip port community 2 fetched call /\
                   successors_of fetched r)
                (@multigetnext_fetcher_sends Value ip community port 2)
                fuel [requested] w)
      as (new & Hsent & Hfetches).
    exists new; split; [exact Hsent|].
    eapply Forall_impl; [|exact (fetches_sent_calls Hfetches)].
    intros call (oids & r & Hdatagram & _); exists oids; exact Hdatagram.
  - intros fetched e Hin Hno.
    destruct (walk fuel ip community requested port 2 ERRORS_STRICT w)
      as [[events outcome] w'] eqn:Hrun.
    unfold run_events, run_outcome in *; simpl in *.
    apply in_split in Hin as (pre & post & Hsplit).
    unfold walk in Hrun.
    destruct (@multiwalk_failed_fetch _ _ _ _ _ _ _ _ _ _ _ _ _ _ _ _ _ _
                                      Hrun Hsplit)
      as [(_ & _ & ->) | (_ & Hend)]; [reflexivity|].
    unfold ends_with in Hend.
    destruct e; try (destruct Hend as [_ ->]; reflexivity).
    contradiction Hno; reflexivity.
Qed.

End TableFacts.

(** ** The log handler of the test suite *)

Section CapturingHandlerFacts.
Variable re_search : string -> string -> bool.

Lemma found_in_iff level message_regex records :
  found_in re_search level message_regex records = true <->
  exists record,
    In record records /\
    levelno record = level /\
    re_search message_regex (message record) = true.
Proof.
  induction records as [|record rest IH]; simpl.
  - split; [discriminate | intros (? & [] & _)].
  - destruct (Z.eqb (levelno record) level) eqn:Hlevel; simpl.
    + destruct (re_search message_regex (message record)) eqn:Hre.
      * split; [|reflexivity].
        intros _; exists record; apply Z.eqb_eq in Hlevel; auto.
      * rewrite IH; split.
        -- intros (r & Hin & Hr); exists r; auto.
        -- intros (r & [<- | Hin] & Hl & Hs); [congruence|].
           exists r; auto.
    + rewrite IH; split.
      * intros (r & Hin & Hr); exists r; auto.
      * intros (r & [<- | Hin] & Hl & Hs).
        -- apply Z.eqb_neq in Hlevel; contradiction.
        -- exists r; auto.
Qed.

(** X23.  assertContains passes exactly when some captured record has the
    level asked for and a message that the pattern matches; otherwise it
    raises AssertionError after printing the header line first and then one
    line per captured record, in the order of capture, and nothing else. *)
Theorem assertContains_passes_iff_a_record_matches :
  forall (self : CapturingHandler) level message_regex,
    (assertContains re_search self level message_regex = Passed <->
     exists record,
       In record self /\
       levelno record = level /\
       re_search message_regex (message record) = true) /\
    (forall printed,
        assertContains re_search self level message_regex
        = AssertionError printed ->
        nth_error printed 0 = Some CapturedHeader /\
        length printed = S (length self) /\
        forall i record,
          nth_error self i = Some record ->
          nth_error printed (S i)
          = Some (CapturedLine (levelno record) (message record))).
Proof.
  intros self level message_regex; unfold assertContains; split.
  - rewrite <- found_in_iff.
    destruct (found_in _ _ _ _); split; (reflexivity || discriminate).
  - intros printed.
    destruct (found_in _ _ _ _); [discriminate|].
    intros Hprinted; injection Hprinted as <-.
    split; [reflexivity|]; split.
    + simpl; rewrite length_map; reflexivity.
    + intros i record Hi; simpl.
      rewrite nth_error_map, Hi; reflexivity.
Qed.

(** X24.  Records are only ever added: after emit, assertContains passes
    exactly when it passed before or the record emitted has the level and
    matches the pattern. *)
Theorem emit_then_assertContains :
  forall (self : CapturingHandler) record level message_regex,
    assertContains re_search (emit self record) level message_regex = Passed
    <->
    assertContains re_search self level message_regex = Passed \/
    (levelno record = level /\
     re_search message_regex (message record) = true).
Proof.
  intros self record level message_regex.
  assert (Hpass : forall records,
             assertContains re_search records level message_regex = Passed
             <-> found_in re_search level message_regex records = true).
  { intros records; unfold assertContains.
    destruct (found_in _ _ _ _); split; (reflexivity || discriminate). }
  rewrite !Hpass, !found_in_iff; unfold emit; split.
  - intros (r & Hin & Hl & Hs).
    apply in_app_iff in Hin as [Hin | [<- | []]].
    + left; exists r; auto.
    + right; auto.
  - intros [(r & Hin & Hr) | [Hl Hs]].
    + exists r; split; [apply in_app_iff; left; exact Hin | exact Hr].
    + exists record; split; [apply in_app_iff; right; left; reflexivity|].
      auto.
Qed.

End CapturingHandlerFacts.

(** ** Instances of the conditional facts of the rest of the module *)

(** X1 on a get of 1.2.3 that is answered with one varbind. *)
Lemma get_returns_the_sole_value_witness :
  fst (get "::1" "private" (Dotted [1; 2; 3]%N) 161 2 (world_of echo_agent))
  = Return 30.
Proof.
  exact (proj1 (@get_returns_the_sole_value
                  Z (world_of echo_agent) "::1" "private"
                  (Dotted [1; 2; 3]%N) 161 2
                  (mkMessage 1 "public"
                     (mkGetResponse 234 [mkVarBind [1; 2; 3]%N 30]))
                  eq_refl)
               (mkVarBind [1; 2; 3]%N 30) eq_refl).
Defined.

(** X2 on a getnext of 1.2 that is answered with 1.2.3. *)
Lemma getnext_returns_a_successor_witness :
  oid_ltb (OID (Dotted [1; 2]%N)) (oid (mkVarBind [1; 2; 3]%N 30)) = true.
Proof.
  exact (proj1 (@getnext_returns_a_successor
                  Z (world_of echo_agent) "::1" "private"
                  (Dotted [1; 2]%N) 161 2)
               (mkVarBind [1; 2; 3]%N 30) eq_refl).
Defined.

(** X3 on a set of 1.2.3, spelled with a leading dot, to 99: the agent
    reports the value 30 for 1.2.3, and the lookup by the string misses. *)
Lemma set_returns_the_reported_value_witness :
  fst (set "::1" "private" (Spelled ".1.2.3" [1; 2; 3]%N) (Typed 99) 161 2
           (world_of echo_agent))
  = Raise KeyError.
Proof.
  destruct (@set_returns_the_reported_value
              Z (world_of echo_agent) "::1" "private"
              (Spelled ".1.2.3" [1; 2; 3]%N) 99 161 2
              (mkMessage 1 "public"
                 (mkGetResponse 234 [mkVarBind [1; 2; 3]%N 30]))
              eq_refl)
    as (_ & _ & Hspelled & _).
  apply Hspelled; [reflexivity | discriminate].
Defined.

(** X4 on a multiset of one value that is no Type instance. *)
Lemma untyped_value_raises_before_sending_witness :
  multiset "::1" "private" [(Dotted [1; 2; 3]%N, @Untyped Z)] 161 2
           (world_of echo_agent)
  = (Raise TypeError, world_of echo_agent).
Proof.
  apply (proj1 (@untyped_value_raises_before_sending
                  Z (world_of echo_agent) "::1" "private" 161 2)).
  left; reflexivity.
Defined.

(** X5 on a multiset of one typed value. *)
Lemma operations_make_one_exchange_witness :
  let w := world_of echo_agent in
  snd (multiset "::1" "private" [(Dotted [1; 2; 3]%N, Typed 5)] 161 2 w)
  = after_exchange
      w (exchange_call w "::1" 161 "private"
                       (fun rid => SetRequest rid [mkVarBind [1; 2; 3]%N 5])
                       2).
Proof.
  destruct (@operations_make_one_exchange Z "::1" "private" 161 2)
    as (_ & _ & _ & _ & Hmultiset & _).
  exact (Hmultiset [(Dotted [1; 2; 3]%N, Typed 5)] [mkVarBind [1; 2; 3]%N 5]
                   eq_refl (world_of echo_agent)).
Defined.

(** X6 on a multiget whose reply decodes to NoSuchOID. *)
Lemma operations_pass_failures_on_witness :
  fst (multiget "::1" "private" [Dotted [1; 2; 3]%N] 161 2
                (world_of end_of_tree_agent))
  = Raise NoSuchOID.
Proof.
  destruct (@operations_pass_failures_on Z "::1" "private" 161 2)
    as (Hmultiget & _).
  exact (proj2 (Hmultiget [Dotted [1; 2; 3]%N] (world_of end_of_tree_agent))
               NoSuchOID eq_refl).
Defined.

(** X7 on a multiset of 1.2.3 to 5 for which the agent reports 30. *)
Lemma multiset_maps_each_oid_to_its_last_value_witness :
  dict_get [(Dotted [1; 2; 3]%N, 30)] (unicode [1; 2; 3]%N)
  = option_map value (last_for [1; 2; 3]%N [mkVarBind [1; 2; 3]%N 30]).
Proof.
  exact (@multiset_maps_each_oid_to_its_last_value
           Z (world_of echo_agent) "::1" "private"
           [(Dotted [1; 2; 3]%N, Typed 5)] [mkVarBind [1; 2; 3]%N 5] 161 2
           (mkMessage 1 "public"
              (mkGetResponse 234 [mkVarBind [1; 2; 3]%N 30]))
           [(Dotted [1; 2; 3]%N, 30)] eq_refl eq_refl eq_refl [1; 2; 3]%N).
Defined.

(** X8 on a bulkget of one repeating OID with max_list_size 2 that is
    answered with two varbinds. *)
Lemma bulkget_result_sizes_witness :
  let result :=
    mkBulkResult [] [(Dotted [1; 2; 3]%N, 30); (Dotted [1; 2; 4]%N, 40)] in
  (dict_len (scalars result) <= 0)%nat /\
  Z.of_nat (dict_len (listing result)) <= Z.max 0 (2 * Z.of_nat 1).
Proof.
  exact (@bulkget_result_sizes
           Z (world_of two_varbinds_agent) "::1" "private" [] [Dotted [1; 2]%N]
           2 161 2
           (mkBulkResult [] [(Dotted [1; 2; 3]%N, 30);
                             (Dotted [1; 2; 4]%N, 40)])
           eq_refl).
Defined.

(** X9 on the same bulkget. *)
Lemma bulkget_keeps_wire_order_witness :
  fst (bulkget "::1" "private" [] [Dotted [1; 2]%N] 2 161 2
               (world_of two_varbinds_agent))
  = Return (mkBulkResult [] [(Dotted [1; 2; 3]%N, 30);
                             (Dotted [1; 2; 4]%N, 40)]).
Proof.
  apply (@bulkget_keeps_wire_order
           Z (world_of two_varbinds_agent) "::1" "private" [] [Dotted [1; 2]%N]
           2 161 2
           (mkMessage 1 "public"
              (mkGetResponse 234 [mkVarBind [1; 2; 3]%N 30;
                                  mkVarBind [1; 2; 4]%N 40]))
           eq_refl).
  - vm_compute; discriminate.
  - constructor.
    + intros [E | []]; discriminate E.
    + constructor; [intros [] | constructor].
Defined.

(** X10 on a bulkget of one repeating OID with max_list_size -1. *)
Lemma bulkget_negative_bound_rejects_all_witness :
  fst (bulkget "::1" "private" [] [Dotted [1; 2]%N] (-1) 161 2
               (world_of echo_agent))
  = Raise SnmpError.
Proof.
  apply (@bulkget_negative_bound_rejects_all
           Z (world_of echo_agent) "::1" "private" [] [Dotted [1; 2]%N]
           (-1) 161 2
           (mkMessage 1 "public"
              (mkGetResponse 234 [mkVarBind [1; 2; 3]%N 30]))
           eq_refl).
  vm_compute; reflexivity.
Defined.

(** X11 on the first fetch of a bulk walk of 1.2 with two repetitions. *)
Lemma bulkwalk_fetcher_returns_distinct_oids_witness :
  NoDup (map oid [mkVarBind [1; 2; 1]%N 1; mkVarBind [1; 2; 2]%N 2]).
Proof.
  exact (proj1 (@bulkwalk_fetcher_returns_distinct_oids
                  Z 2 "::1" "public" [Dotted [1; 2]%N] 161 2
                  (world_of bulk_agent)
                  [mkVarBind [1; 2; 1]%N 1; mkVarBind [1; 2; 2]%N 2]
                  (snd (fetcher_call (_bulkwalk_fetcher 2) "::1" "public"
                                     [Dotted [1; 2]%N] 161 2
                                     (world_of bulk_agent)))
                  eq_refl)).
Defined.

(** X12 on a walk in warn mode whose first reply decodes to NoSuchOID. *)
Lemma first_fetch_failure_leaves_the_walk_witness :
  run_outcome (multiwalk 5 "::1" "private" [Dotted [1; 2]%N] 161 2
                         multigetnext_fetcher ERRORS_WARN
                         (world_of end_of_tree_agent))
  = Propagated NoSuchOID.
Proof.
  exact (proj1 (@first_fetch_failure_leaves_the_walk
                  Z Integer_ops 5 "::1" "private" [Dotted [1; 2]%N] 161 2
                  multigetnext_fetcher ERRORS_WARN
                  (world_of end_of_tree_agent) NoSuchOID eq_refl)).
Defined.

(** X13 on a walk of 1.2 whose second reply decodes to NoSuchOID. *)
Lemma NoSuchOID_in_the_loop_ends_the_walk_witness :
  run_outcome
    (multiwalk 5 "::1" "private" [Dotted [1; 2]%N] 161 2
               multigetnext_fetcher ERRORS_STRICT
               (world_of (scripted [response 234 [mkVarBind [1; 2; 1]%N 1];
                                    failing NoSuchOID])))
  = Exhausted.
Proof.
  apply (@NoSuchOID_in_the_loop_ends_the_walk
           Z Integer_ops 5 "::1" "private" [Dotted [1; 2]%N] 161 2
           multigetnext_fetcher ERRORS_STRICT
           (world_of (scripted [response 234 [mkVarBind [1; 2; 1]%N 1];
                                failing NoSuchOID]))
           [Log (DebugWalking 1 name_multigetnext);
            Fetch [Dotted [1; 2]%N] (Return [mkVarBind [1; 2; 1]%N 1]);
            Log (DebugContinue 1 1);
            Yield (mkVarBind [1; 2; 1]%N 1)]
           [Dotted [1; 2; 1]%N] []).
  - reflexivity.
  - right; left; reflexivity.
Defined.

(** X14 on a strict walk of 1.2 against an agent stuck on 1.2.3. *)
Lemma faulty_fetch_propagates_unless_warn_witness :
  run_outcome
    (multiwalk 5 "::1" "private" [Dotted [1; 2]%N] 161 2
               multigetnext_fetcher ERRORS_STRICT (world_of echo_agent))
  = Propagated FaultySNMPImplementation.
Proof.
  apply (@faulty_fetch_propagates_unless_warn
           Z Integer_ops 5 "::1" "private" [Dotted [1; 2]%N] 161 2
           multigetnext_fetcher ERRORS_STRICT (world_of echo_agent)
           [Log (DebugWalking 1 name_multigetnext);
            Fetch [Dotted [1; 2]%N] (Return [mkVarBind [1; 2; 3]%N 30]);
            Log (DebugContinue 1 1);
            Yield (mkVarBind [1; 2; 3]%N 30)]
           [Dotted [1; 2; 3]%N] []).
  - discriminate.
  - reflexivity.
Defined.

(** X15 on a walk of 1.2 in warn mode whose second request times out. *)
Lemma other_exceptions_always_propagate_witness :
  run_outcome
    (multiwalk 5 "::1" "private" [Dotted [1; 2]%N] 161 2
               multigetnext_fetcher ERRORS_WARN
               (world_of (scripted [response 234 [mkVarBind [1; 2; 1]%N 1]])))
  = Propagated Timeout.
Proof.
  apply (@other_exceptions_always_propagate
           Z Integer_ops 5 "::1" "private" [Dotted [1; 2]%N] 161 2
           multigetnext_fetcher ERRORS_WARN
           (world_of (scripted [response 234 [mkVarBind [1; 2; 1]%N 1]]))
           [Log (DebugWalking 1 name_multigetnext);
            Fetch [Dotted [1; 2]%N] (Return [mkVarBind [1; 2; 1]%N 1]);
            Log (DebugContinue 1 1);
            Yield (mkVarBind [1; 2; 1]%N 1)]
           [Dotted [1; 2; 1]%N] Timeout []).
  - discriminate.
  - discriminate.
  - reflexivity.
Defined.

(** X19 on the first fetch of a walk of 1.2. *)
Lemma walk_fetches_return_successors_witness :
  Forall2 (fun requested (retrieved : @VarBind Z) =>
             oid_ltb (OID requested) (oid retrieved) = true)
          [Dotted [1; 2]%N] [mkVarBind [1; 2; 3]%N 30].
Proof.
  apply (@walk_fetches_return_successors
           Z Integer_ops 5 "::1" "private" [Dotted [1; 2]%N] 161 2 ERRORS_STRICT
           (world_of echo_agent) [Dotted [1; 2]%N] [mkVarBind [1; 2; 3]%N 30]).
  right; left; reflexivity.
Defined.

(** X20 on the varbind that a walk of 1.2 yields. *)
Lemma walk_yields_only_what_was_fetched_witness :
  let run :=
    multiwalk 5 "::1" "private" [Dotted [1; 2]%N] 161 2
              multigetnext_fetcher ERRORS_STRICT (world_of echo_agent) in
  exists fetched varbinds,
    In (Fetch fetched (Return varbinds)) (run_events run) /\
    In (mkVarBind [1; 2; 3]%N 30) varbinds.
Proof.
  apply (@walk_yields_only_what_was_fetched
           Z Integer_ops 5 "::1" "private" [Dotted [1; 2]%N] 161 2
           multigetnext_fetcher ERRORS_STRICT (world_of echo_agent)
           (mkVarBind [1; 2; 3]%N 30)).
  left; reflexivity.
Defined.

(** X22 on a table of 1.2 against the agent of the endless loop: the
    fourth fetch raises. *)
Lemma table_is_a_strict_getnext_walk_witness :
  fst (table (fun (vbs : list (@VarBind Z)) (_ : Z) => vbs)
             10 "::1" "private" (Dotted [1; 2]%N) 161 0
             (world_of endless_loop_agent))
  = Some (Raise FaultySNMPImplementation).
Proof.
  apply (proj2 (@table_is_a_strict_getnext_walk
                  Z Integer_ops (@VarBind Z)
                  (fun (vbs : list (@VarBind Z)) (_ : Z) => vbs)
                  10 "::1" "private" (Dotted [1; 2]%N) 161 0
                  (world_of endless_loop_agent))
               [Dotted [1; 2; 5]%N]).
  - vm_compute; do 10 right; left; reflexivity.
  - discriminate.
Defined.

(** X23 on a handler that captured one warning. *)
Lemma assertContains_passes_iff_a_record_matches_witness :
  assertContains String.eqb [mkPyLogRecord 30 "aborted"] 30 "aborted"
  = Passed.
Proof.
  apply (proj2 (proj1 (@assertContains_passes_iff_a_record_matches
                         String.eqb [mkPyLogRecord 30 "aborted"]
                         30 "aborted"))).
  exists (mkPyLogRecord 30 "aborted").
  split; [left; reflexivity | split; reflexivity].
Defined.

(** X24 on a warning emitted to a handler that had captured a debug
    message. *)
Lemma emit_then_assertContains_witness :
  assertContains String.eqb
                 (emit [mkPyLogRecord 10 "walking"]
                       (mkPyLogRecord 30 "aborted"))
                 30 "aborted"
  = Passed.
Proof.
  apply (proj2 (@emit_then_assertContains
                  String.eqb [mkPyLogRecord 10 "walking"]
                  (mkPyLogRecord 30 "aborted") 30 "aborted")).
  right; split; reflexivity.
Defined.

(** X25 on a walk of 1.2 whose second fetch returns 1.3.1. *)
Lemma walk_stops_outside_the_base_or_goes_on_witness :
  run_outcome
    (walk 5 "::1" "private" (Dotted [1; 2]%N) 161 2 ERRORS_STRICT
          (world_of (scripted [response 234 [mkVarBind [1; 2; 1]%N 1];
                               response 234 [mkVarBind [1; 3; 1]%N 2]])))
  = Exhausted.
Proof.
  apply (proj1 (@walk_stops_outside_the_base_or_goes_on
                  Z Integer_ops 5 "::1" "private" (Dotted [1; 2]%N) 161 2
                  ERRORS_STRICT
                  (world_of (scripted
                               [response 234 [mkVarBind [1; 2; 1]%N 1];
                                response 234 [mkVarBind [1; 3; 1]%N 2]]))
                  [Log (DebugWalking 1 name_multigetnext);
                   Fetch [Dotted [1; 2]%N] (Return [mkVarBind [1; 2; 1]%N 1]);
                   Log (DebugContinue 1 1);
                   Yield (mkVarBind [1; 2; 1]%N 1)]
                  [Dotted [1; 2; 1]%N] (mkVarBind [1; 3; 1]%N 2)
                  [Log (DebugContinue 0 1)] eq_refl)).
  reflexivity.
Defined.

(** X26 on the walk of 1.2 in warn mode whose fourth reply repeats a smaller
    OID. *)
Lemma walk_hands_the_error_mode_on_witness :
  run_outcome
    (walk 10 "::1" "private" (Dotted [1; 2]%N) 161 2 ERRORS_WARN
          (world_of decreasing_agent))
  = Exhausted.
Proof.
  refine (proj2 (proj1 (@walk_hands_the_error_mode_on
                  Z Integer_ops 10 "::1" "private" (Dotted [1; 2]%N) 161 2
                  ERRORS_WARN (world_of decreasing_agent)
                  [Log (DebugWalking 1 name_multigetnext);
                   Fetch [Dotted [1; 2]%N]
                         (Return [mkVarBind [1; 2; 3]%N 123]);
                   Log (DebugContinue 1 1);
                   Yield (mkVarBind [1; 2; 3]%N 123);
                   Fetch [Dotted [1; 2; 3]%N]
                         (Return [mkVarBind [1; 2; 4]%N 124]);
                   Log (DebugContinue 1 1);
                   Yield (mkVarBind [1; 2; 4]%N 124);
                   Fetch [Dotted [1; 2; 4]%N]
                         (Return [mkVarBind [1; 2; 5]%N 125]);
                   Log (DebugContinue 1 1);
                   Yield (mkVarBind [1; 2; 5]%N 125)]
                  [Dotted [1; 2; 5]%N]
                  [Log (WarningAborted "::1" [Dotted [1; 2; 5]%N]
                                       FaultySNMPImplementation)]
                  eq_refl _)
               eq_refl)).
  right; left; reflexivity.
Defined.

